(** * Polar Bookshelf: the cloud-aware datastore and its mutation coordinator

    A shallow embedding of [web/js/datastore/DatastoreMutations.ts] and
    [web/js/datastore/CloudAwareDatastore.ts].

    The first part ([Module Mutations]) embeds the promise plumbing of
    [DatastoreMutations.executeBatchedWrite] and of
    [CloudAwareDatastore.write] / [CloudAwareDatastore.delete] on a small
    model of JavaScript promises: every promise of the source is named after
    the expression that creates it, every [.then] / [.catch] / [await] is a
    named reaction, settled promises hand their reactions to the microtask
    queue, and the two stores are the environment, which settles the promises
    and latches it has been handed.

    The second part ([Module Snapshot]) embeds [CloudAwareDatastore.snapshot],
    its [InitialSnapshotLatch], [handleSnapshotSynchronization] and
    [CloudAwareDatastore.stop] as a transition system: the calls of the
    listener are tasks that are suspended at their [await]s and resumed in any
    order, the calls to the collaborators are recorded, and the environment
    says of every awaited call whether it resolves or rejects.

    [Module Tally] counts the reactions of the first part, [Module Phases]
    and [Module Replay] describe the phases of a snapshot session and the
    initial snapshot latch fed one event at a time.

    [Module Promises] is the promise model once more, for any program given
    by its promises, reactions and calls; [Module Files] runs the file and
    read operations of [CloudAwareDatastore] on it and [Module Pipes] runs
    [DatastoreMutations.handle] and [DatastoreMutations.pipe].

    [Module DocMetas] embeds [create], [addPagemarks],
    [createWithinInitialPagemarks] and [withBatchedMutations] of
    [web/js/metadata/DocMetas.ts]; the page numbers of [addPagemarks] are
    doubles, rounded as JavaScript rounds them. *)

From stdpp Require Import gmap strings list functions.

Module Mutations.

(** ** JavaScript values and promise states *)

#[warnings="-register-all"]
Inductive value :=
  | VUndefined
  | VBool (b : bool)
  | VObject
  | VError (msg : string)
  | VArray (elems : list value).

(** [result[0]] *)
Definition index0 (result : value) : value :=
  match result with
  | VArray (x :: _) => x
  | _ => VUndefined
  end.

Inductive outcome :=
  | Fulfilled (v : value)
  | Rejected (err : value).

Inductive pstate :=
  | Pending
  | Settled (o : outcome).

(** [DatastoreConsistency]: the consistency a [DatastoreMutations] object is
    created with, 'written' or 'committed' (the code tests for 'committed').
    The same two names select the two latches of a [DatastoreMutation]:
    [.written] and [.committed]. *)
Inductive DatastoreConsistency := written | committed.

(** The two stores a batched write is fanned out to. *)
Inductive leg := remote | local.

(** The three [DatastoreMutation] objects of [executeBatchedWrite]. *)
Inductive mutation := remoteCoordinator | localCoordinator | datastoreMutation.

Definition coordinator (l : leg) : mutation :=
  match l with
  | remote => remoteCoordinator
  | local => localCoordinator
  end.

(** Every promise of one [write] / [delete] call, named after the expression
    of the source that creates it.  The code has no loop, so each expression
    creates at most one promise per call. *)
Inductive pid :=
  | latch (m : mutation) (f : DatastoreConsistency)
      (* m.written / m.committed: the promise behind the latch *)
  | store_op (l : leg)
      (* this.cloud.write(...) / this.local.write(...), or .delete(...) *)
  | sync (l : leg)
      (* remoteSync(remoteCoordinator) / localSync(localCoordinator) *)
  | sync_catch (l : leg)
      (* remoteSync(...).catch(...) / localSync(...).catch(...) *)
  | gate_then
      (* remoteCoordinator.written.get().then(...) *)
  | gate_catch
      (* remoteCoordinator.written.get().then(...).catch(...) *)
  | batch (f : DatastoreConsistency)
      (* Promise.all([promise0, promise1]) *)
  | batch_then (f : DatastoreConsistency)
      (* batch.then(...) *)
  | batch_catch (f : DatastoreConsistency)
      (* batch.then(...).catch(...) *)
  | exec
      (* new Promise<void>((resolve, reject) => ...) *)
  | done_then
      (* datastoreMutation.committed.get().then(...) *)
  | done_catch
      (* datastoreMutation.committed.get().then(...).catch(...) *)
  | exec_async
      (* the promise of the async function executeBatchedWrite *)
  | index_then
      (* datastoreMutation.written.get().then(...) in write / delete *)
  | index_catch
      (* datastoreMutation.written.get().then(...).catch(...) *)
  | op_result.
      (* the promise of the async function write / delete *)

(** Every [.then], [.catch], [await] and [return] of a promise, named after
    its place in the source. *)
Inductive reaction :=
  | R_sync_await (l : leg)
      (* await this.cloud.write(...) inside remoteSync; likewise localSync *)
  | R_sync_catch (l : leg)
      (* .catch((err) => reject(err)) on remoteSync(...) / localSync(...) *)
  | R_gate_then
      (* .then(() => { localSync(localCoordinator).catch(...) }) *)
  | R_gate_catch
      (* .catch((err) => reject(err)) after it *)
  | R_all_elem (f : DatastoreConsistency) (l : leg)
      (* the element reaction Promise.all installs on its l-th input *)
  | R_batch_then (f : DatastoreConsistency)
      (* batch.then((result) => { latch.resolve(result[0]) }) *)
  | R_batch_catch (f : DatastoreConsistency)
      (* .catch(err => { latch.reject(err) }) *)
  | R_done_then
      (* datastoreMutation.committed.get().then(() => resolve()) *)
  | R_done_catch
      (* .catch((err) => reject(err)) after it *)
  | R_exec_adopt
      (* return new Promise(...) from the async executeBatchedWrite *)
  | R_index_then
      (* .then(() => { this.docMetaComparisonIndex.remove(...) }) *)
  | R_index_catch
      (* .catch(err => log.error("Could not handle delete: ", err)) *)
  | R_op_return.
      (* await executeBatchedWrite(...); return {}   (delete)
         return executeBatchedWrite(...)             (write) *)

Global Instance DatastoreConsistency_eq_dec : EqDecision DatastoreConsistency.
Proof. solve_decision. Defined.
Global Instance leg_eq_dec : EqDecision leg.
Proof. solve_decision. Defined.
Global Instance mutation_eq_dec : EqDecision mutation.
Proof. solve_decision. Defined.
Global Instance pid_eq_dec : EqDecision pid.
Proof. solve_decision. Defined.
Global Instance reaction_eq_dec : EqDecision reaction.
Proof. solve_decision. Defined.

(** ** The operation and the comparison index *)

Record DocInfo := mkDocInfo {
  fingerprint : string;
  marker : nat
}.

(** [CloudAwareDatastore.write(fingerprint, data, docInfo, ...)] and
    [CloudAwareDatastore.delete(docMetaFileRef, ...)]. *)
Inductive operation :=
  | op_write (docInfo : DocInfo)
  | op_delete (docMetaFileRef : string).

(** ** The state of one call *)

Record state := mkState {
  pst : pid → pstate;
  rx : pid → list reaction;
  queue : list (reaction * outcome);
  all_values : DatastoreConsistency → leg → option value;
  calls : list leg;
  logged : list (string * value);
  docMetaComparisonIndex : gmap string nat
}.

Definition set_pst (g : (pid → pstate) → pid → pstate) (s : state) : state :=
  mkState (g (pst s)) (rx s) (queue s) (all_values s) (calls s) (logged s)
          (docMetaComparisonIndex s).
Definition set_rx (g : (pid → list reaction) → pid → list reaction) (s : state) : state :=
  mkState (pst s) (g (rx s)) (queue s) (all_values s) (calls s) (logged s)
          (docMetaComparisonIndex s).
Definition set_queue (g : list (reaction * outcome) → list (reaction * outcome))
    (s : state) : state :=
  mkState (pst s) (rx s) (g (queue s)) (all_values s) (calls s) (logged s)
          (docMetaComparisonIndex s).
Definition set_all_values
    (g : (DatastoreConsistency → leg → option value) →
         DatastoreConsistency → leg → option value) (s : state) : state :=
  mkState (pst s) (rx s) (queue s) (g (all_values s)) (calls s) (logged s)
          (docMetaComparisonIndex s).
Definition set_calls (g : list leg → list leg) (s : state) : state :=
  mkState (pst s) (rx s) (queue s) (all_values s) (g (calls s)) (logged s)
          (docMetaComparisonIndex s).
Definition set_logged (g : list (string * value) → list (string * value))
    (s : state) : state :=
  mkState (pst s) (rx s) (queue s) (all_values s) (calls s) (g (logged s))
          (docMetaComparisonIndex s).
Definition set_index (g : gmap string nat → gmap string nat) (s : state) : state :=
  mkState (pst s) (rx s) (queue s) (all_values s) (calls s) (logged s)
          (g (docMetaComparisonIndex s)).

(** Commands: the code only ever threads the state. *)
Definition M := state → state.

Definition seq (m1 m2 : M) : M := λ s, m2 (m1 s).
Notation "m1 >> m2" := (seq m1 m2) (at level 65, right associativity).

Definition skip : M := λ s, s.

(** ** Promise primitives *)

(** Settle a promise: a settled promise never changes; a pending one takes
    the outcome and hands its reactions, in registration order, to the
    microtask queue. *)
Definition settle (p : pid) (o : outcome) : M := λ s,
  match pst s p with
  | Pending =>
      set_queue (λ q, q ++ ((λ r, (r, o)) <$> rx s p))
        (set_rx <[p := []]> (set_pst <[p := Settled o]> s))
  | Settled _ => s
  end.

(** [p.then(...)], [p.catch(...)], [await p]: on a pending promise the
    reaction is recorded, on a settled one it is queued at once. *)
Definition register (p : pid) (r : reaction) : M := λ s,
  match pst s p with
  | Pending => set_rx (λ g, <[p := g p ++ [r]]> g) s
  | Settled o => set_queue (λ q, q ++ [(r, o)]) s
  end.

Definition then_ := register.
Definition catch_ := register.
Definition await := register.
Definition return_promise := register.

(** Modelled from the spec: [Latch<T>] (web/js/util/Latch.ts is not among the
    sources).  A latch is a single-resolution future: [resolve] and [reject]
    after the first settlement never change the settled value, and [get()]
    returns the eventual outcome to every caller, also after settlement.  So
    a latch is its promise: [latch_get] is the promise itself, and
    [latch_resolve] / [latch_reject] settle it when it is still pending. *)
Definition latch_get (m : mutation) (f : DatastoreConsistency) : pid := latch m f.
Definition latch_resolve (m : mutation) (f : DatastoreConsistency) (v : value) : M :=
  settle (latch m f) (Fulfilled v).
Definition latch_reject (m : mutation) (f : DatastoreConsistency) (err : value) : M :=
  settle (latch m f) (Rejected err).

(** The [resolve] and [reject] functions of [new Promise<void>(...)]. *)
Definition resolve : M := settle exec (Fulfilled VUndefined).
Definition reject (err : value) : M := settle exec (Rejected err).

(** The body of [p.then(f)]: a fulfilment runs [f] and fulfils the derived
    promise with what [f] returns ([undefined] for every callback here), a
    rejection passes through to the derived promise. *)
Definition on_then (derived : pid) (f : value → M) (o : outcome) : M :=
  match o with
  | Fulfilled v => f v >> settle derived (Fulfilled VUndefined)
  | Rejected err => settle derived (Rejected err)
  end.

(** The body of [p.catch(g)]. *)
Definition on_catch (derived : pid) (g : value → M) (o : outcome) : M :=
  match o with
  | Fulfilled v => settle derived (Fulfilled v)
  | Rejected err => g err >> settle derived (Fulfilled VUndefined)
  end.

(** [Promise.all]'s element function for input [l]: store the value, and
    fulfil the batch with the array of values once both are there. *)
Definition all_resolve_element (f : DatastoreConsistency) (l : leg) (v : value) : M := λ s,
  let s' := set_all_values (λ a, <[f := <[l := Some v]> (a f)]> a) s in
  match all_values s' f remote, all_values s' f local with
  | Some v0, Some v1 => settle (batch f) (Fulfilled (VArray [v0; v1])) s'
  | _, _ => s'
  end.

(** [Promise.all([promise0, promise1])] *)
Definition promise_all (f : DatastoreConsistency) (promise0 promise1 : pid) : M :=
  register promise0 (R_all_elem f remote) >>
  register promise1 (R_all_elem f local).

(** The store is called: [this.cloud.write(..., remoteCoordinator)] and the
    like.  What the store then does is the environment's. *)
Definition call_store (l : leg) : M := set_calls (λ c, c ++ [l]).

Definition log_error (msg : string) (err : value) : M :=
  set_logged (λ g, g ++ [(msg, err)]).

Section Program.

(** The consistency the [DatastoreMutations] object was created with, the
    operation, and the two methods of [DocMetaComparisonIndex] the operation
    calls: the class is not among the sources, so its methods are parameters;
    [inr err] is a thrown [err]. *)
Variable consistency : DatastoreConsistency.
Variable operation_ : operation.
Variable index_remove : string → gmap string nat → gmap string nat + value.
Variable index_updateUsingDocInfo : DocInfo → gmap string nat → gmap string nat + value.

(** ** DatastoreMutations *)

(** [private batchPromises<T>(promise0, promise1, latch)], for the latch
    [datastoreMutation.f]: its two callbacks are [R_batch_then f] and
    [R_batch_catch f] below. *)
Definition batchPromises (f : DatastoreConsistency) (promise0 promise1 : pid) : M :=
  (* const batch = Promise.all([promise0, promise1]); *)
  promise_all f promise0 promise1 >>
  (* batch.then((result) => { latch.resolve(result[0]); }) *)
  then_ (batch f) (R_batch_then f) >>
  (*      .catch(err => { latch.reject(err); }); *)
  catch_ (batch_then f) (R_batch_catch f).

(** [public batched<T>(dm0, dm1, target)], for the target
    [datastoreMutation]. *)
Definition batched (dm0 dm1 : mutation) : M :=
  (* this.batchPromises(dm0.written.get(), dm1.written.get(), target.written); *)
  batchPromises written (latch_get dm0 written) (latch_get dm1 written) >>
  (* if (this.consistency === 'committed') {
       this.batchPromises(dm0.committed.get(), dm1.committed.get(), target.committed);
     } *)
  if decide (consistency = committed)
  then batchPromises committed (latch_get dm0 committed) (latch_get dm1 committed)
  else skip.

(** The async arrow functions passed by [write] and [delete]:
    [async (remoteCoordinator) => { await this.cloud.write(...) }]. *)
Definition remoteSync : M :=
  call_store remote >> await (store_op remote) (R_sync_await remote).

Definition localSync : M :=
  call_store local >> await (store_op local) (R_sync_await local).

(** [public async executeBatchedWrite<T>(datastoreMutation, remoteSync,
    localSync, remoteCoordinator, localCoordinator)]: the part that runs
    before the function returns its promise. *)
Definition executeBatchedWrite : M :=
  (* return new Promise<void>((resolve, reject) => { *)
  (*   remoteSync(remoteCoordinator).catch((err) => reject(err)); *)
  remoteSync >>
  catch_ (sync remote) (R_sync_catch remote) >>
  (*   remoteCoordinator.written.get()
           .then(() => { localSync(localCoordinator).catch(err => reject(err)); })
           .catch((err) => reject(err)); *)
  then_ (latch_get remoteCoordinator written) R_gate_then >>
  catch_ gate_then R_gate_catch >>
  (*   this.batched(remoteCoordinator, localCoordinator, datastoreMutation); *)
  batched remoteCoordinator localCoordinator >>
  (*   if (this.consistency === 'committed') {
         datastoreMutation.committed.get()
             .then(() => resolve())
             .catch((err) => reject(err));
       } *)
  (if decide (consistency = committed)
   then then_ (latch_get datastoreMutation committed) R_done_then >>
        catch_ done_then R_done_catch
   else skip) >>
  (* }); *)
  return_promise exec R_exec_adopt.

(** ** CloudAwareDatastore.write and CloudAwareDatastore.delete *)

(** [public async delete(docMetaFileRef, datastoreMutation)], up to its
    first [await]. *)
Definition delete_ : M :=
  (* datastoreMutation.written.get()
         .then(() => { this.docMetaComparisonIndex.remove(...) })
         .catch(err => log.error("Could not handle delete: ", err)); *)
  then_ (latch_get datastoreMutation written) R_index_then >>
  catch_ index_then R_index_catch >>
  (* await this.datastoreMutations.executeBatchedWrite(...); return {}; *)
  executeBatchedWrite >>
  await exec_async R_op_return.

(** [public async write(fingerprint, data, docInfo, datastoreMutation)], up
    to its return. *)
Definition write : M :=
  (* datastoreMutation.written.get()
         .then(() => { this.docMetaComparisonIndex.updateUsingDocInfo(docInfo) })
         .catch(err => log.error("Could not handle delete: ", err)); *)
  then_ (latch_get datastoreMutation written) R_index_then >>
  catch_ index_then R_index_catch >>
  (* return this.datastoreMutations.executeBatchedWrite(...); *)
  executeBatchedWrite >>
  return_promise exec_async R_op_return.

(** [this.docMetaComparisonIndex.remove(docMetaFileRef.fingerprint)] in
    [delete], [this.docMetaComparisonIndex.updateUsingDocInfo(docInfo)] in
    [write]. *)
Definition index_call (i : gmap string nat) : gmap string nat + value :=
  match operation_ with
  | op_write docInfo => index_updateUsingDocInfo docInfo i
  | op_delete docMetaFileRef => index_remove docMetaFileRef i
  end.

(** What a queued reaction does when its microtask runs. *)
Definition react (r : reaction) (o : outcome) : M :=
  match r with
  | R_sync_await l =>
      match o with
      | Fulfilled _ => settle (sync l) (Fulfilled VUndefined)
      | Rejected err => settle (sync l) (Rejected err)
      end
  | R_sync_catch l =>
      on_catch (sync_catch l) (λ err, reject err) o
  | R_gate_then =>
      on_then gate_then
        (λ _, localSync >> catch_ (sync local) (R_sync_catch local)) o
  | R_gate_catch =>
      on_catch gate_catch (λ err, reject err) o
  | R_all_elem f l =>
      match o with
      | Fulfilled v => all_resolve_element f l v
      | Rejected err => settle (batch f) (Rejected err)
      end
  | R_batch_then f =>
      on_then (batch_then f)
        (λ result, latch_resolve datastoreMutation f (index0 result)) o
  | R_batch_catch f =>
      on_catch (batch_catch f) (λ err, latch_reject datastoreMutation f err) o
  | R_done_then =>
      on_then done_then (λ _, resolve) o
  | R_done_catch =>
      on_catch done_catch (λ err, reject err) o
  | R_exec_adopt =>
      settle exec_async o
  | R_index_then =>
      match o with
      | Fulfilled _ => λ s,
          match index_call (docMetaComparisonIndex s) with
          | inl i => settle index_then (Fulfilled VUndefined) (set_index (λ _, i) s)
          | inr err => settle index_then (Rejected err) s
          end
      | Rejected err => settle index_then (Rejected err)
      end
  | R_index_catch =>
      on_catch index_catch (λ err, log_error "Could not handle delete: " err) o
  | R_op_return =>
      match operation_, o with
      | op_delete _, Fulfilled _ => settle op_result (Fulfilled VObject)
      | _, _ => settle op_result o
      end
  end.

(** ** Executions *)

(** What the stores do: the promise a store returned settles, or the store
    resolves or rejects a latch of the coordinator it was handed. *)
Inductive event :=
  | store_settles (l : leg) (o : outcome)
  | latch_settles (l : leg) (f : DatastoreConsistency) (o : outcome).

(** One step of an execution: the next microtask runs, or a store acts. *)
Inductive action :=
  | tick
  | env (e : event).

(** A store can only touch what it has been handed: before
    [localSync(localCoordinator)] is called nothing else holds the local
    coordinator or the local store's promise. *)
Definition happen (e : event) : M := λ s,
  match e with
  | store_settles l o =>
      if decide (l ∈ calls s) then settle (store_op l) o s else s
  | latch_settles l f o =>
      if decide (l ∈ calls s) then settle (latch (coordinator l) f) o s else s
  end.

Definition step (s : state) (a : action) : state :=
  match a with
  | tick =>
      match queue s with
      | [] => s
      | (r, o) :: q => react r o (set_queue (λ _, q) s)
      end
  | env e => happen e s
  end.

Definition run (s : state) (sched : list action) : state :=
  foldl step s sched.

(** Nothing has happened yet: every promise is pending; the caller's
    mutation is fresh (the default [new DefaultDatastoreMutation()]). *)
Definition empty (i : gmap string nat) : state :=
  mkState (λ _, Pending) (λ _, []) [] (λ _ _, None) [] [] i.

(** The state in which [write] / [delete] hands its promise to the caller. *)
Definition init (i : gmap string nat) : state :=
  match operation_ with
  | op_write _ => write (empty i)
  | op_delete _ => delete_ (empty i)
  end.

(** An execution of [write] / [delete]: the call, then the steps of a
    schedule. *)
Definition execution (i : gmap string nat) (sched : list action) : state :=
  run (init i) sched.

(** No microtask is left to run. *)
Definition quiescent (s : state) : Prop := queue s = [].

End Program.

(** ** The vocabulary of the proofs *)

(** [s'] extends [s]: what is settled, called, stored or logged stays so,
    queued microtasks stay queued, and a reaction recorded on a pending
    promise is still recorded, or queued with the promise's outcome. *)
Record ext (s s' : state) : Prop := mkExt {
  ext_pst : ∀ p o, pst s p = Settled o → pst s' p = Settled o;
  ext_calls : ∀ l, l ∈ calls s → l ∈ calls s';
  ext_all : ∀ f l, is_Some (all_values s f l) → is_Some (all_values s' f l);
  ext_logged : ∀ x, x ∈ logged s → x ∈ logged s';
  ext_queue : ∀ j, j ∈ queue s → j ∈ queue s';
  ext_rx : ∀ p r, pst s p = Pending → r ∈ rx s p →
    match pst s' p with
    | Pending => r ∈ rx s' p
    | Settled o => (r, o) ∈ queue s'
    end
}.

(** The promise a reaction is installed on. *)
Definition source (r : reaction) : pid :=
  match r with
  | R_sync_await l => store_op l
  | R_sync_catch l => sync l
  | R_gate_then => latch remoteCoordinator written
  | R_gate_catch => gate_then
  | R_all_elem f l => latch (coordinator l) f
  | R_batch_then f => batch f
  | R_batch_catch f => batch_then f
  | R_done_then => latch datastoreMutation committed
  | R_done_catch => done_then
  | R_exec_adopt => exec
  | R_index_then => latch datastoreMutation written
  | R_index_catch => index_then
  | R_op_return => exec_async
  end.

(** [datastoreMutation.committed.get().then(() => resolve())] is only
    installed under the 'committed' consistency. *)
Definition allowed (c : DatastoreConsistency) (r : reaction) : Prop :=
  match r with
  | R_done_then => c = committed
  | _ => True
  end.

(** What must have happened for promise [p] to be settled with [o]. *)
Definition justified (c : DatastoreConsistency) (s : state) (p : pid) (o : outcome) : Prop :=
  match p with
  | latch remoteCoordinator _ | store_op remote => True
  | latch localCoordinator _ | store_op local => local ∈ calls s
  | latch datastoreMutation f =>
      match o with
      | Fulfilled v => ∃ x, pst s (batch f) = Settled (Fulfilled x) ∧ v = index0 x
      | Rejected err => pst s (batch_then f) = Settled (Rejected err)
      end
  | sync l =>
      match o with
      | Fulfilled v => v = VUndefined ∧ ∃ x, pst s (store_op l) = Settled (Fulfilled x)
      | Rejected err => pst s (store_op l) = Settled (Rejected err)
      end
  | gate_then =>
      match o with
      | Fulfilled _ => ∃ x, pst s (latch remoteCoordinator written) = Settled (Fulfilled x)
      | Rejected err => pst s (latch remoteCoordinator written) = Settled (Rejected err)
      end
  | batch f =>
      match o with
      | Fulfilled x => ∃ v0 v1, x = VArray [v0; v1] ∧
          pst s (latch remoteCoordinator f) = Settled (Fulfilled v0) ∧
          pst s (latch localCoordinator f) = Settled (Fulfilled v1)
      | Rejected err => ∃ l, pst s (latch (coordinator l) f) = Settled (Rejected err)
      end
  | batch_then f =>
      match o with
      | Fulfilled _ => ∃ x, pst s (batch f) = Settled (Fulfilled x)
      | Rejected err => pst s (batch f) = Settled (Rejected err)
      end
  | exec =>
      match o with
      | Fulfilled _ => c = committed ∧
          ∃ v, pst s (latch datastoreMutation committed) = Settled (Fulfilled v)
      | Rejected err =>
          (∃ l, pst s (sync l) = Settled (Rejected err)) ∨
          pst s gate_then = Settled (Rejected err) ∨
          pst s done_then = Settled (Rejected err)
      end
  | done_then =>
      match o with
      | Fulfilled _ => True
      | Rejected err => pst s (latch datastoreMutation committed) = Settled (Rejected err)
      end
  | exec_async => pst s exec = Settled o
  | index_then =>
      match o with
      | Fulfilled _ => ∃ v, pst s (latch datastoreMutation written) = Settled (Fulfilled v)
      | Rejected _ => True
      end
  | op_result =>
      match o with
      | Fulfilled _ => ∃ v, pst s exec_async = Settled (Fulfilled v)
      | Rejected err => pst s exec_async = Settled (Rejected err)
      end
  | sync_catch _ | gate_catch | batch_catch _ | done_catch | index_catch => True
  end.

(** The invariant kept by every primitive: reactions sit on their source,
    queued microtasks carry their source's outcome, and whatever is settled,
    called, stored or logged has its cause. *)
Record PInv (c : DatastoreConsistency) (s : state) : Prop := mkPInv {
  inv_rx : ∀ p r, r ∈ rx s p → source r = p ∧ allowed c r;
  inv_queue : ∀ r o, (r, o) ∈ queue s → pst s (source r) = Settled o ∧ allowed c r;
  inv_pst : ∀ p o, pst s p = Settled o → justified c s p o;
  inv_calls : local ∈ calls s →
    ∃ v, pst s (latch remoteCoordinator written) = Settled (Fulfilled v);
  inv_all : ∀ f l v, all_values s f l = Some v →
    pst s (latch (coordinator l) f) = Settled (Fulfilled v);
  inv_logged : ∀ msg err, (msg, err) ∈ logged s →
    pst s index_then = Settled (Rejected err)
}.

(** Once both values are there, the promise of [Promise.all] is settled. *)
Definition batch_inv (s : state) : Prop :=
  ∀ f, is_Some (all_values s f remote) → is_Some (all_values s f local) →
       pst s (batch f) ≠ Pending.

(** The reactions installed so far: [localSync] and its [.catch] once the
    local store has been called, the 'committed' plumbing only under the
    'committed' consistency, everything else from the start. *)
Definition registered (c : DatastoreConsistency) (s : state) (r : reaction) : Prop :=
  match r with
  | R_sync_await local | R_sync_catch local => local ∈ calls s
  | R_all_elem committed _ | R_batch_then committed | R_batch_catch committed
  | R_done_then | R_done_catch => c = committed
  | _ => True
  end.

(** What holds, and stays, once reaction [r] has run on outcome [o]. *)
Definition fired (s : state) (r : reaction) (o : outcome) : Prop :=
  match r, o with
  | R_sync_await l, _ => pst s (sync l) ≠ Pending
  | R_sync_catch l, Rejected _ => pst s exec ≠ Pending
  | R_gate_then, Fulfilled _ => local ∈ calls s
  | R_gate_then, Rejected _ => pst s gate_then ≠ Pending
  | R_gate_catch, Rejected _ => pst s exec ≠ Pending
  | R_all_elem f l, Fulfilled _ => is_Some (all_values s f l)
  | R_all_elem f l, Rejected _ => pst s (batch f) ≠ Pending
  | R_batch_then f, Fulfilled _ => pst s (latch datastoreMutation f) ≠ Pending
  | R_batch_then f, Rejected _ => pst s (batch_then f) ≠ Pending
  | R_batch_catch f, Rejected _ => pst s (latch datastoreMutation f) ≠ Pending
  | R_done_then, Fulfilled _ => pst s exec ≠ Pending
  | R_done_then, Rejected _ => pst s done_then ≠ Pending
  | R_done_catch, Rejected _ => pst s exec ≠ Pending
  | R_exec_adopt, _ => pst s exec_async ≠ Pending
  | R_index_then, _ => pst s index_then ≠ Pending
  | R_index_catch, Rejected err => ("Could not handle delete: ", err) ∈ logged s
  | R_op_return, _ => pst s op_result ≠ Pending
  | _, _ => True
  end.

(** A reaction is live: recorded on its pending source, or queued with the
    source's outcome, or run. *)
Definition wired (s : state) (r : reaction) : Prop :=
  match pst s (source r) with
  | Pending => r ∈ rx s (source r)
  | Settled o => (r, o) ∈ queue s ∨ fired s r o
  end.

Definition FInv (c : DatastoreConsistency) (s : state) : Prop :=
  ∀ r, registered c s r → wired s r.

(** What holds in every state of an execution. *)
Definition Inv (c : DatastoreConsistency) (s : state) : Prop :=
  PInv c s ∧ batch_inv s ∧ FInv c s.

(** A microtask counts for itself and for the reactions it installs. *)
Definition weight (r : reaction) : nat :=
  match r with
  | R_gate_then => 3
  | _ => 1
  end.

Definition pids : list pid :=
  [ latch remoteCoordinator written; latch remoteCoordinator committed;
    latch localCoordinator written; latch localCoordinator committed;
    latch datastoreMutation written; latch datastoreMutation committed;
    store_op remote; store_op local; sync remote; sync local;
    sync_catch remote; sync_catch local; gate_then; gate_catch;
    batch written; batch committed; batch_then written; batch_then committed;
    batch_catch written; batch_catch committed;
    exec; done_then; done_catch; exec_async; index_then; index_catch; op_result ].

(** The work still to do: the queued microtasks and the recorded reactions. *)
Definition measure (s : state) : nat :=
  sum_list_with (λ j, weight j.1) (queue s) +
  sum_list_with (λ p, sum_list_with weight (rx s p)) pids.

(** Run the queued microtasks until none is left. *)
Definition drain (op : operation)
    (rmv : string → gmap string nat → gmap string nat + value)
    (upd : DocInfo → gmap string nat → gmap string nat + value) (s : state) : state :=
  run op rmv upd s (replicate (measure s) tick).

(** Microtasks never settle what only the stores settle. *)
Definition store_owned (p : pid) : Prop :=
  match p with
  | latch remoteCoordinator _ | latch localCoordinator _ | store_op _ => True
  | _ => False
  end.

(** Modelled from the spec: [DocMetaComparisonIndex.remove(fingerprint)]
    (web/js/datastore/DocMetaComparisonIndex.ts is not among the sources).
    The comparison index is a fingerprint-to-marker index; removing a
    fingerprint takes its entry out of the index. *)
Definition DocMetaComparisonIndex_remove (fp : string) (i : gmap string nat) :
    gmap string nat :=
  delete fp i.

(** Modelled from the spec: [DocMetaComparisonIndex.updateUsingDocInfo(docInfo)].
    The entry of the document's fingerprint takes the document's marker. *)
Definition DocMetaComparisonIndex_updateUsingDocInfo (d : DocInfo) (i : gmap string nat) :
    gmap string nat :=
  <[fingerprint d := marker d]> i.

Definition remove_ok (fp : string) (i : gmap string nat) : gmap string nat + value :=
  inl (DocMetaComparisonIndex_remove fp i).
Definition update_ok (d : DocInfo) (i : gmap string nat) : gmap string nat + value :=
  inl (DocMetaComparisonIndex_updateUsingDocInfo d i).

(** A removal that throws. *)
Definition remove_throws (fp : string) (i : gmap string nat) : gmap string nat + value :=
  inr (VError "index is broken").

Definition ticks (n : nat) : list action := replicate n tick.

Definition doc : DocInfo := mkDocInfo "0x001" 7.

(** The cloud write fails: the promise of [this.cloud.write(...)] rejects. *)
Definition sched_cloud_fails : list action :=
  [env (store_settles remote (Rejected (VError "cloud is down")))] ++ ticks 8.

(** The cloud delete fails, and the cloud store resolves the written latch
    all the same. *)
Definition sched_cloud_fails_then_written : list action :=
  sched_cloud_fails ++
  [env (latch_settles remote written (Fulfilled (VBool true)))] ++ ticks 8.

(** The cloud reports the failure on its written latch. *)
Definition sched_cloud_latch_fails : list action :=
  [env (latch_settles remote written (Rejected (VError "cloud is down")))] ++ ticks 12.

(** Both stores apply the operation and say so on their written latches. *)
Definition sched_both_written : list action :=
  [env (latch_settles remote written (Fulfilled (VBool true)))] ++ ticks 8 ++
  [env (latch_settles local written (Fulfilled (VBool false)))] ++ ticks 8.

(** Both stores apply and commit the operation, and their promises resolve. *)
Definition sched_both_committed : list action :=
  sched_both_written ++
  [env (latch_settles remote committed (Fulfilled (VBool true)));
   env (latch_settles local committed (Fulfilled (VBool false)));
   env (store_settles remote (Fulfilled VUndefined));
   env (store_settles local (Fulfilled VUndefined))] ++ ticks 12.

(** The remote store applies the operation, the local one has not yet. *)
Definition sched_remote_written : list action :=
  [env (latch_settles remote written (Fulfilled (VBool true)))] ++ ticks 8.

(** The local store fails after the remote one has applied the operation. *)
Definition sched_local_latch_fails : list action :=
  sched_remote_written ++
  [env (latch_settles local written (Rejected (VError "disk is full")))] ++ ticks 8.

(** Once the index reaction has run: the entry is gone, or the reaction was
    rejected, by the latch or by a removal that threw. *)
Definition IInv (fp : string)
    (rmv : string → gmap string nat → gmap string nat + value) (s : state) : Prop :=
  match pst s index_then with
  | Pending => True
  | Settled (Fulfilled _) => docMetaComparisonIndex s !! fp = None
  | Settled (Rejected err) =>
      pst s (latch datastoreMutation written) = Settled (Rejected err) ∨ ∃ j, rmv fp j = inr err
  end.

End Mutations.

(** * The snapshot session of the cloud-aware datastore *)

Module Snapshot.

(** ** Change-feed events *)

(** [type CloudDatastoreID = 'local' | 'cloud'] *)
Inductive CloudDatastoreID := local | cloud.

Inductive MutationType := created | updated | deleted.

(** Modelled from the spec: the consistency of a change event is 'pending'
    or 'committed' (the type is declared in web/js/datastore/Datastore.ts,
    which is not among the sources; the code only tests for 'committed').
    The first constructor is not called [pending], the name of the counter
    of [InitialSnapshotLatch]. *)
Inductive Consistency := pending_consistency | committed.

Global Instance CloudDatastoreID_eq_dec : EqDecision CloudDatastoreID.
Proof. solve_decision. Defined.
Global Instance MutationType_eq_dec : EqDecision MutationType.
Proof. solve_decision. Defined.
Global Instance Consistency_eq_dec : EqDecision Consistency.
Proof. solve_decision. Defined.

Record DocMetaMutation := mkDocMetaMutation {
  fingerprint : string;
  mutationType : MutationType;
  marker : nat
}.

Record Batch := mkBatch {
  id : nat;
  terminated : bool
}.

Record DocMetaSnapshotEvent := mkDocMetaSnapshotEvent {
  consistency : Consistency;
  batch : option Batch;
  docMetaMutations : list DocMetaMutation
}.

(** ** SyncDocMaps *)

Record SyncDoc := mkSyncDoc {
  sd_fingerprint : string;
  sd_marker : nat
}.

(** Modelled from the spec: [DocMetaSnapshotEvents.toSyncDocs],
    [SyncDocMaps.putAll] and [SyncDocMaps.fromArray] (web/js/datastore/
    Datastore.ts is not among the sources).  A SyncDocMap maps a fingerprint
    to the record of that document's state in one store; an event yields one
    such record per mutation. *)
Definition toSyncDocs (e : DocMetaSnapshotEvent) : list SyncDoc :=
  (λ m, mkSyncDoc (fingerprint m) (marker m)) <$> docMetaMutations e.

Definition putAll (m : gmap string SyncDoc) (docs : list SyncDoc) : gmap string SyncDoc :=
  foldl (λ acc d, <[sd_fingerprint d := d]> acc) m docs.

Definition fromArray (docs : list SyncDoc) : gmap string SyncDoc := putAll ∅ docs.

(** ** class InitialSnapshotLatch *)

Record InitialSnapshotLatch := mkInitialSnapshotLatch {
  syncDocMap : gmap string SyncDoc;
  latch : bool;                      (* latch.resolve(true) has been called *)
  hasInitialTerminatedBatch : bool;
  pending : Z
}.

Definition new_InitialSnapshotLatch : InitialSnapshotLatch :=
  mkInitialSnapshotLatch ∅ false false 0.

(** The [finally] block of [handleSnapshot]. *)
Definition handleSnapshot_finally (l : InitialSnapshotLatch) : InitialSnapshotLatch :=
  let pending' := (pending l - 1)%Z in
  mkInitialSnapshotLatch (syncDocMap l)
    (latch l || (hasInitialTerminatedBatch l && bool_decide (pending' = 0%Z)))
    (hasInitialTerminatedBatch l) pending'.

(** [! docMetaSnapshotEvent.batch || docMetaSnapshotEvent.batch.id !== 0] *)
Definition not_batch_0 (e : DocMetaSnapshotEvent) : bool :=
  match batch e with
  | None => true
  | Some b => negb (bool_decide (id b = 0))
  end.

(** [handleSnapshot] up to [await DocMetaSnapshotEvents.toSyncDocs(...)]: the
    latch afterwards, and whether the function is suspended at the [await]
    (it has returned through [finally] otherwise). *)
Definition handleSnapshot_enter (e : DocMetaSnapshotEvent) (l : InitialSnapshotLatch) :
    InitialSnapshotLatch * bool :=
  if hasInitialTerminatedBatch l then (handleSnapshot_finally l, false)
  else if not_batch_0 e then (handleSnapshot_finally l, false)
  else (mkInitialSnapshotLatch (syncDocMap l) (latch l) (hasInitialTerminatedBatch l)
          (pending l + 1)%Z, true).

(** [docMetaSnapshotEvent.consistency === 'committed' &&
     docMetaSnapshotEvent.batch!.terminated] *)
Definition committed_terminated (e : DocMetaSnapshotEvent) : bool :=
  bool_decide (consistency e = committed) &&
  match batch e with
  | Some b => terminated b
  | None => false
  end.

(** [handleSnapshot] from the [await] on. *)
Definition handleSnapshot_resume (e : DocMetaSnapshotEvent) (l : InitialSnapshotLatch) :
    InitialSnapshotLatch :=
  handleSnapshot_finally
    (mkInitialSnapshotLatch (putAll (syncDocMap l) (toSyncDocs e)) (latch l)
       (hasInitialTerminatedBatch l || committed_terminated e) (pending l)).

(** ** What the datastore asks of its collaborators *)

(** How a [SyncOrigin]'s [syncDocMap] was obtained: built from an event or
    from the initial snapshots, or read from the store for some refs with
    [PersistenceLayers.toSyncDocMapFromDocs]. *)
Inductive SyncDocMapSource :=
  | the_map (m : gmap string SyncDoc)
  | toSyncDocMapFromDocs (refs : list string).

Record SyncOrigin := mkSyncOrigin {
  datastore : CloudDatastoreID;
  syncDocMap_source : SyncDocMapSource
}.

Inductive Direction := cloud_to_local | local_to_cloud.

Inductive effect :=
  | synchronizeOrigins (a b : SyncOrigin)
      (* PersistenceLayers.synchronizeOrigins(a, b, listener) *)
  | transfer (source target : SyncOrigin) (d : Direction)
      (* PersistenceLayers.transfer(source, target, listener, d) *)
  | local_delete (docMetaFileRef : string)
      (* this.local.delete(docMetaFileRef) *)
  | dispatch_synchronization (e : DocMetaSnapshotEvent) (dest : CloudDatastoreID).
      (* this.synchronizationEventDispatcher.dispatchEvent({...e, dest}) *)

(** ** Awaited calls *)

(** How an awaited call of a collaborator ends: its promise resolves, or
    rejects with an error. *)
Inductive settlement := resolves | rejects (err : string).

(** The calls that a call of the store's listener awaits; [j] is the place
    of the mutation in [docMetaMutations]. *)
Inductive awaited :=
  | toSyncDocs_call
      (* handleSnapshot: await DocMetaSnapshotEvents.toSyncDocs(...) *)
  | toCloudSyncOrigin_call (j : nat)
      (* await toCloudSyncOrigin(), that is DocMetaSnapshotEvents.toSyncDocs *)
  | toLocalSyncOrigin_call (j : nat)
      (* await toLocalSyncOrigin(), that is PersistenceLayers.toSyncDocMapFromDocs *)
  | transfer_call (j : nat)
      (* await PersistenceLayers.transfer(...) *)
  | docMetaFileRefProvider_call (j : nat)
      (* await docMetaMutation.docMetaFileRefProvider() *)
  | local_delete_call (j : nat)
      (* await this.local.delete(docMetaFileRef) *)
  | docMetaSnapshotEventListener_call.
      (* handleEvent: await docMetaSnapshotEventListener(docMetaSnapshotEvent) *)

(** What the collaborators answer: the environment's choice. *)
Definition answers : Type := awaited → settlement.

(** Every awaited call resolves. *)
Definition all_resolve : answers := λ _, resolves.

(** An async function without a result, as far as it got: the calls it made
    of those recorded as effects, in order, and what it threw, if it threw. *)
Definition async : Type := list effect * option string.

Definition ret : async := ([], None).

(** A call that is recorded. *)
Definition call (x : effect) : async := ([x], None).

(** [await]: a rejection is thrown. *)
Definition await (o : settlement) : async :=
  ([], match o with
       | resolves => None
       | rejects err => Some err
       end).

(** One statement after another: what follows a throw does not run. *)
Definition andthen (m1 m2 : async) : async :=
  match m1.2 with
  | None => (m1.1 ++ m2.1, m2.2)
  | Some err => (m1.1, Some err)
  end.

Notation "m1 ⟫ m2" := (andthen m1 m2) (at level 65, right associativity).

(** [for (const x of xs) { body }], with the place of [x] in [xs]. *)
Fixpoint for_of {A : Type} (j : nat) (xs : list A) (body : nat → A → async) : async :=
  match xs with
  | [] => ret
  | x :: xs' => body j x ⟫ for_of (S j) xs' body
  end.

(** [private async handleSnapshotSynchronization(docMetaSnapshotEvent,
    listener)]: the calls it makes, in order, and what it throws: nothing
    catches the rejection of an awaited call. *)
Definition handleSnapshotSynchronization (a : answers) (e : DocMetaSnapshotEvent) : async :=
  let toLocalSyncOrigin :=
    mkSyncOrigin local (toSyncDocMapFromDocs (fingerprint <$> docMetaMutations e)) in
  let toCloudSyncOrigin :=
    mkSyncOrigin cloud (the_map (fromArray (toSyncDocs e))) in
  (* if (docMetaSnapshotEvent.consistency !== 'committed') { return; } *)
  if decide (consistency e ≠ committed) then ret
  else
    (* for (const docMetaMutation of docMetaSnapshotEvent.docMetaMutations) { *)
    for_of 0 (docMetaMutations e) (λ j docMetaMutation,
      (* if (docMetaMutation.mutationType === 'created' ||
             docMetaMutation.mutationType === 'updated') { *)
      (if decide (mutationType docMetaMutation = created ∨
                  mutationType docMetaMutation = updated)
       then
         (* const cloudSyncOrigin = await toCloudSyncOrigin(); *)
         await (a (toCloudSyncOrigin_call j)) ⟫
         (* const localSyncOrigin = await toLocalSyncOrigin(); *)
         await (a (toLocalSyncOrigin_call j)) ⟫
         (* await PersistenceLayers.transfer(cloudSyncOrigin, localSyncOrigin,
                                             listener, 'cloud-to-local'); *)
         call (transfer toCloudSyncOrigin toLocalSyncOrigin cloud_to_local) ⟫
         await (a (transfer_call j))
       else ret) ⟫
      (* if (docMetaMutation.mutationType === 'deleted') { *)
      (if decide (mutationType docMetaMutation = deleted)
       then
         (* const docMetaFileRef = await docMetaMutation.docMetaFileRefProvider(); *)
         await (a (docMetaFileRefProvider_call j)) ⟫
         (* await this.local.delete(docMetaFileRef); *)
         call (local_delete (fingerprint docMetaMutation)) ⟫
         await (a (local_delete_call j))
       else ret)) ⟫
    (* this.synchronizationEventDispatcher.dispatchEvent({...}); *)
    call (dispatch_synchronization e local).

(** ** One snapshot session *)

(** [unsubscribe] of a store's [SnapshotResult] cancels that store's feed. *)
Inductive SnapshotUnsubscriber := cancel (store : CloudDatastoreID).

Record SnapshotResult := mkSnapshotResult {
  unsubscribe : option SnapshotUnsubscriber
}.

Inductive feed_state := not_subscribed | active | cancelled.

(** Where a suspended call of the listener of [createSnapshot] is. *)
Inductive pc :=
  | at_toSyncDocs               (* await DocMetaSnapshotEvents.toSyncDocs(...) *)
  | at_synchronizingListener.   (* await this.handleSnapshot(...) has returned *)

Record task := mkTask {
  t_datastore : CloudDatastoreID;
  t_event : DocMetaSnapshotEvent;
  t_pc : pc
}.

(** Where [snapshot] itself is. *)
Inductive main_pc :=
  | await_local_latch           (* await localInitialSnapshotLatch.latch.get() *)
  | await_cloud_latch           (* await cloudInitialSnapshotLatch.latch.get() *)
  | await_synchronizeOrigins    (* await PersistenceLayers.synchronizeOrigins(...) *)
  | await_local_result          (* await localSnapshotResultPromise *)
  | await_cloud_result          (* await cloudSnapshotResultPromise *)
  | returned (r : SnapshotResult).

Record session := mkSession {
  isPrimarySnapshot : bool;
  initialSyncCompleted : bool;
  initialSnapshotLatch : CloudDatastoreID → InitialSnapshotLatch;
  docMetaComparisonIndex : gmap string nat;
  tasks : list task;
  main : main_pc;
  feed : CloudDatastoreID → feed_state;
  snapshotResult : CloudDatastoreID → option SnapshotResult;
  forwarded : list DocMetaSnapshotEvent;   (* calls of docMetaSnapshotEventListener *)
  effects : list effect;
  stopped : list CloudDatastoreID;         (* calls of datastore.stop() *)
  errors : list string                     (* calls of errorListener *)
}.

Definition set_initialSyncCompleted (b : bool) (σ : session) : session :=
  mkSession (isPrimarySnapshot σ) b (initialSnapshotLatch σ) (docMetaComparisonIndex σ)
    (tasks σ) (main σ) (feed σ) (snapshotResult σ) (forwarded σ) (effects σ) (stopped σ)
    (errors σ).
Definition set_latch (x : CloudDatastoreID) (l : InitialSnapshotLatch) (σ : session) : session :=
  mkSession (isPrimarySnapshot σ) (initialSyncCompleted σ)
    (<[x := l]> (initialSnapshotLatch σ)) (docMetaComparisonIndex σ) (tasks σ) (main σ)
    (feed σ) (snapshotResult σ) (forwarded σ) (effects σ) (stopped σ) (errors σ).
Definition set_index (i : gmap string nat) (σ : session) : session :=
  mkSession (isPrimarySnapshot σ) (initialSyncCompleted σ) (initialSnapshotLatch σ) i
    (tasks σ) (main σ) (feed σ) (snapshotResult σ) (forwarded σ) (effects σ) (stopped σ)
    (errors σ).
Definition set_tasks (ts : list task) (σ : session) : session :=
  mkSession (isPrimarySnapshot σ) (initialSyncCompleted σ) (initialSnapshotLatch σ)
    (docMetaComparisonIndex σ) ts (main σ) (feed σ) (snapshotResult σ) (forwarded σ)
    (effects σ) (stopped σ) (errors σ).
Definition set_main (m : main_pc) (σ : session) : session :=
  mkSession (isPrimarySnapshot σ) (initialSyncCompleted σ) (initialSnapshotLatch σ)
    (docMetaComparisonIndex σ) (tasks σ) m (feed σ) (snapshotResult σ) (forwarded σ)
    (effects σ) (stopped σ) (errors σ).
Definition set_feed (x : CloudDatastoreID) (f : feed_state) (σ : session) : session :=
  mkSession (isPrimarySnapshot σ) (initialSyncCompleted σ) (initialSnapshotLatch σ)
    (docMetaComparisonIndex σ) (tasks σ) (main σ) (<[x := f]> (feed σ)) (snapshotResult σ)
    (forwarded σ) (effects σ) (stopped σ) (errors σ).
Definition set_snapshotResult (x : CloudDatastoreID) (r : SnapshotResult) (σ : session) :
    session :=
  mkSession (isPrimarySnapshot σ) (initialSyncCompleted σ) (initialSnapshotLatch σ)
    (docMetaComparisonIndex σ) (tasks σ) (main σ) (feed σ)
    (<[x := Some r]> (snapshotResult σ)) (forwarded σ) (effects σ) (stopped σ) (errors σ).
Definition forward (e : DocMetaSnapshotEvent) (σ : session) : session :=
  mkSession (isPrimarySnapshot σ) (initialSyncCompleted σ) (initialSnapshotLatch σ)
    (docMetaComparisonIndex σ) (tasks σ) (main σ) (feed σ) (snapshotResult σ)
    (forwarded σ ++ [e]) (effects σ) (stopped σ) (errors σ).
Definition perform (es : list effect) (σ : session) : session :=
  mkSession (isPrimarySnapshot σ) (initialSyncCompleted σ) (initialSnapshotLatch σ)
    (docMetaComparisonIndex σ) (tasks σ) (main σ) (feed σ) (snapshotResult σ)
    (forwarded σ) (effects σ ++ es) (stopped σ) (errors σ).
Definition stop_store (x : CloudDatastoreID) (σ : session) : session :=
  mkSession (isPrimarySnapshot σ) (initialSyncCompleted σ) (initialSnapshotLatch σ)
    (docMetaComparisonIndex σ) (tasks σ) (main σ) (feed σ) (snapshotResult σ)
    (forwarded σ) (effects σ) (stopped σ ++ [x]) (errors σ).

(** [.catch(err => { log.error(...); errorListener(err); })] *)
Definition report (thrown : option string) (σ : session) : session :=
  match thrown with
  | Some err =>
      mkSession (isPrimarySnapshot σ) (initialSyncCompleted σ) (initialSnapshotLatch σ)
        (docMetaComparisonIndex σ) (tasks σ) (main σ) (feed σ) (snapshotResult σ)
        (forwarded σ) (effects σ) (stopped σ) (errors σ ++ [err])
  | None => σ
  end.

Section Session.

(** [DocMetaSnapshotEventListeners.createDeduplicatedListener(listener,
    docMetaComparisonIndex)] is not among the sources: the deduplicator is a
    parameter, which from the comparison index and an event gives the index
    afterwards and the event it passes to the wrapped listener, if any. *)
Variable deduplicate :
  gmap string nat → DocMetaSnapshotEvent → gmap string nat * option DocMetaSnapshotEvent.

(** The listener wrapped by [synchronizingEventDeduplicator]: [handleEvent()]
    synchronizes when the initial sync is completed on the primary snapshot,
    and passes the event on to [docMetaSnapshotEventListener] in its
    [finally], also when the synchronization has thrown; what [handleEvent]
    throws, from the [finally] block first, goes to the error listener.  The
    calls of one [handleEvent] are recorded at the step that starts it, in
    their order; [a] says how each of the calls it awaits ends. *)
Definition handleEvent (a : answers) (e : DocMetaSnapshotEvent) (σ : session) : session :=
  (* try { if (initialSyncCompleted && isPrimarySnapshot) {
             await this.handleSnapshotSynchronization(...); } } *)
  let synchronization :=
    if initialSyncCompleted σ && isPrimarySnapshot σ
    then handleSnapshotSynchronization a e
    else ret in
  (* finally { await docMetaSnapshotEventListener(docMetaSnapshotEvent); } *)
  let thrown :=
    match a docMetaSnapshotEventListener_call with
    | resolves => synchronization.2
    | rejects err => Some err
    end in
  (* handleEvent().catch(err => { log.error(...); errorListener(err); }); *)
  report thrown (forward e (perform synchronization.1 σ)).

(** [synchronizingListener(docMetaSnapshotEvent)] *)
Definition synchronizingListener (a : answers) (e : DocMetaSnapshotEvent) (σ : session) :
    session :=
  let '(i, out) := deduplicate (docMetaComparisonIndex σ) e in
  match out with
  | Some e' => handleEvent a e' (set_index i σ)
  | None => set_index i σ
  end.

(** The listener [createSnapshot] hands to the store, when the store calls
    it: up to its first suspension. *)
Definition listener (a : answers) (x : CloudDatastoreID) (e : DocMetaSnapshotEvent)
    (σ : session) : session :=
  if initialSyncCompleted σ then synchronizingListener a e σ
  else
    let '(l, suspended) := handleSnapshot_enter e (initialSnapshotLatch σ x) in
    set_tasks (tasks σ ++ [mkTask x e (if suspended then at_toSyncDocs
                                        else at_synchronizingListener)])
      (set_latch x l σ).

(** A suspended call of the listener goes on.  When [toSyncDocs] rejects,
    [handleSnapshot] runs its [finally] block and throws, and the listener
    throws with it: the event does not reach the synchronizing listener. *)
Definition continue (a : answers) (t : task) (σ : session) : session :=
  match t_pc t with
  | at_toSyncDocs =>
      match a toSyncDocs_call with
      | resolves =>
          set_tasks (tasks σ ++ [mkTask (t_datastore t) (t_event t) at_synchronizingListener])
            (set_latch (t_datastore t)
               (handleSnapshot_resume (t_event t) (initialSnapshotLatch σ (t_datastore t))) σ)
      | rejects _ =>
          set_latch (t_datastore t)
            (handleSnapshot_finally (initialSnapshotLatch σ (t_datastore t))) σ
      end
  | at_synchronizingListener => synchronizingListener a (t_event t) σ
  end.

(** [createSnapshot(datastore)]: subscribe the listener to the store. *)
Definition createSnapshot (x : CloudDatastoreID) (σ : session) : session :=
  set_feed x active σ.

(** [snapshot] goes on when what it awaits is there. *)
Definition advance (σ : session) : session :=
  match main σ with
  | await_local_latch =>
      if latch (initialSnapshotLatch σ local)
      then set_main await_cloud_latch (createSnapshot cloud σ)
      else σ
  | await_cloud_latch =>
      if latch (initialSnapshotLatch σ cloud)
      then
        let localSyncOrigin :=
          mkSyncOrigin local (the_map (syncDocMap (initialSnapshotLatch σ local))) in
        let cloudSyncOrigin :=
          mkSyncOrigin cloud (the_map (syncDocMap (initialSnapshotLatch σ cloud))) in
        if isPrimarySnapshot σ
        then set_main await_synchronizeOrigins
               (perform [synchronizeOrigins localSyncOrigin cloudSyncOrigin] σ)
        else set_main await_local_result (set_initialSyncCompleted true σ)
      else σ
  | await_synchronizeOrigins => σ
  | await_local_result =>
      match snapshotResult σ local with
      | Some _ => set_main await_cloud_result σ
      | None => σ
      end
  | await_cloud_result =>
      match snapshotResult σ cloud with
      | Some cloudSnapshotResult =>
          set_main (returned (mkSnapshotResult (unsubscribe cloudSnapshotResult))) σ
      | None => σ
      end
  | returned _ => σ
  end.

Inductive label :=
  | deliver (x : CloudDatastoreID) (e : DocMetaSnapshotEvent) (a : answers)
      (* store x calls its listener with e; what is then awaited ends as a says *)
  | resume (k : nat) (a : answers)
      (* the k-th suspended call of the listener goes on: what it awaited,
         and what it awaits next, ends as a says *)
  | subscribed (x : CloudDatastoreID) (with_unsubscribe : bool)
      (* the promise of x.snapshot(...) resolves *)
  | synchronized
      (* PersistenceLayers.synchronizeOrigins(...) resolves *)
  | go.
      (* snapshot goes on *)

Definition sstep (σ : session) (l : label) : session :=
  match l with
  | deliver x e a =>
      match feed σ x with
      | active => listener a x e σ
      | _ => σ
      end
  | resume k a =>
      match tasks σ !! k with
      | Some t => continue a t (set_tasks (delete k (tasks σ)) σ)
      | None => σ
      end
  | subscribed x with_unsubscribe =>
      match feed σ x, snapshotResult σ x with
      | not_subscribed, _ | _, Some _ => σ
      | _, None =>
          set_snapshotResult x
            (mkSnapshotResult (if with_unsubscribe then Some (cancel x) else None)) σ
      end
  | synchronized =>
      match main σ with
      | await_synchronizeOrigins =>
          set_main await_local_result (set_initialSyncCompleted true σ)
      | _ => σ
      end
  | go => advance σ
  end.

Definition srun (σ : session) (ls : list label) : session := foldl sstep σ ls.

(** [snapshot(docMetaSnapshotEventListener, errorListener)] up to its first
    [await]: [isPrimarySnapshot] is whether [this.primarySnapshot] is
    undefined. *)
Definition snapshot (primary : bool) (i : gmap string nat) : session :=
  createSnapshot local
    (mkSession primary false (λ _, new_InitialSnapshotLatch) i [] await_local_latch
       (λ _, not_subscribed) (λ _, None) [] [] [] []).

End Session.

(** ** CloudAwareDatastore.stop *)

(** Calling a [SnapshotResult]'s [unsubscribe]. *)
Definition call_unsubscribe (u : SnapshotUnsubscriber) (σ : session) : session :=
  match u with
  | cancel x =>
      match feed σ x with
      | active => set_feed x cancelled σ
      | _ => σ
      end
  end.

(** [public async stop()]: after the shutdown hook, the primary snapshot is
    unsubscribed when it has an [unsubscribe], then both stores are stopped. *)
Definition stop (primarySnapshot : option SnapshotResult) (σ : session) : session :=
  let σ' :=
    match primarySnapshot with
    | Some r =>
        match unsubscribe r with
        | Some u => call_unsubscribe u σ
        | None => σ
        end
    | None => σ
    end in
  stop_store local (stop_store cloud σ').

(** Modelled from the spec: the event deduplicator.  It consults the
    comparison index before it lets an event through: a mutation whose
    marker is not newer than what the index records for its fingerprint is
    suppressed; what is let through is recorded in the index. *)
Definition newer (i : gmap string nat) (m : DocMetaMutation) : bool :=
  match i !! fingerprint m with
  | Some recorded => bool_decide (recorded < marker m)
  | None => true
  end.

Definition deduplicate_spec (i : gmap string nat) (e : DocMetaSnapshotEvent) :
    gmap string nat * option DocMetaSnapshotEvent :=
  let accepted := filter (λ m, newer i m = true) (docMetaMutations e) in
  let i' := foldl (λ acc m, <[fingerprint m := marker m]> acc) i accepted in
  match accepted, docMetaMutations e with
  | [], _ :: _ => (i', None)
  | _, _ => (i', Some (mkDocMetaSnapshotEvent (consistency e) (batch e) accepted))
  end.


(** ** The vocabulary of the proofs *)

(** Concrete events. *)
Definition doc1 : DocMetaMutation := mkDocMetaMutation "0x001" created 1.
Definition doc2 : DocMetaMutation := mkDocMetaMutation "0x002" created 5.
Definition doc3 : DocMetaMutation := mkDocMetaMutation "0x003" updated 5.

(** A batch-0 event of the local store's initial replay. *)
Definition initial_event : DocMetaSnapshotEvent :=
  mkDocMetaSnapshotEvent committed (Some (mkBatch 0 false)) [doc1].

(** The terminated batch-0 marker. *)
Definition terminated_event : DocMetaSnapshotEvent :=
  mkDocMetaSnapshotEvent committed (Some (mkBatch 0 true)) [].

(** A committed event after the initial sync. *)
Definition later_event : DocMetaSnapshotEvent :=
  mkDocMetaSnapshotEvent committed (Some (mkBatch 1 true)) [doc2; doc3].

(** The local store delivers an event of its initial replay, which is
    handled to the end. *)
Definition labels_awaiting : list label :=
  [deliver local initial_event all_resolve; resume 0 all_resolve; resume 0 all_resolve].

(** Both initial replays end, the origins are synchronized, [snapshot]
    returns. *)
Definition labels_initial_sync : list label :=
  labels_awaiting ++
  [deliver local terminated_event all_resolve; resume 0 all_resolve; resume 0 all_resolve;
   go; subscribed local true; subscribed cloud true;
   deliver cloud terminated_event all_resolve; resume 0 all_resolve; resume 0 all_resolve;
   go; synchronized; go; go].


Definition is_synchronizeOrigins (x : effect) : bool :=
  match x with
  | synchronizeOrigins _ _ => true
  | _ => false
  end.


(** The one transfer [handleSnapshotSynchronization] asks for. *)
Definition the_transfer (e : DocMetaSnapshotEvent) : effect :=
  transfer (mkSyncOrigin cloud (the_map (fromArray (toSyncDocs e))))
           (mkSyncOrigin local (toSyncDocMapFromDocs (fingerprint <$> docMetaMutations e)))
           cloud_to_local.

Definition option_list {A} (o : option A) : list A :=
  match o with
  | Some x => [x]
  | None => []
  end.

Global Instance awaited_eq_dec : EqDecision awaited.
Proof. solve_decision. Defined.

(** The body of the loop of [handleSnapshotSynchronization], for the
    mutation at place [j]. *)
Definition synchronize_mutation (a : answers) (e : DocMetaSnapshotEvent) (j : nat)
    (docMetaMutation : DocMetaMutation) : async :=
  (if decide (mutationType docMetaMutation = created ∨
              mutationType docMetaMutation = updated)
   then
     await (a (toCloudSyncOrigin_call j)) ⟫
     await (a (toLocalSyncOrigin_call j)) ⟫
     call (the_transfer e) ⟫
     await (a (transfer_call j))
   else ret) ⟫
  (if decide (mutationType docMetaMutation = deleted)
   then
     await (a (docMetaFileRefProvider_call j)) ⟫
     call (local_delete (fingerprint docMetaMutation)) ⟫
     await (a (local_delete_call j))
   else ret).

(** The calls [handleSnapshotSynchronization] makes for one mutation when no
    awaited call rejects. *)
Definition calls_for (e : DocMetaSnapshotEvent) (m : DocMetaMutation) : list effect :=
  (if decide (mutationType m = created ∨ mutationType m = updated)
   then [the_transfer e] else []) ++
  (if decide (mutationType m = deleted) then [local_delete (fingerprint m)] else []).

(** The calls awaited for the mutation at place [j]. *)
Definition awaited_for (j : nat) : list awaited :=
  [toCloudSyncOrigin_call j; toLocalSyncOrigin_call j; transfer_call j;
   docMetaFileRefProvider_call j; local_delete_call j].

(** No awaited call for the first [n] mutations rejects. *)
Definition resolve_before (a : answers) (n : nat) : Prop :=
  ∀ j c, j < n → c ∈ awaited_for j → a c = resolves.


(** The transfer for the mutation at place [j] is rejected. *)
Definition transfer_fails (j : nat) : answers :=
  λ c, if decide (c = transfer_call j) then rejects "transfer failed" else resolves.



(** The initial sync completes while a call of the listener for an event of
    the local store's replay waits to go on. *)
Definition labels_meanwhile : list label :=
  [deliver local terminated_event all_resolve; resume 1 all_resolve; resume 1 all_resolve;
   go; subscribed local true; subscribed cloud true;
   deliver cloud terminated_event all_resolve; resume 1 all_resolve; resume 1 all_resolve;
   go; synchronized].

(** What holds in every state of a session. *)
Record SInv (σ : session) : Prop := mkSInv {
  sinv_local : feed σ local = active;
  sinv_result : ∀ x r, snapshotResult σ x = Some r →
    unsubscribe r = None ∨ unsubscribe r = Some (cancel x);
  sinv_returned : ∀ r, main σ = returned r →
    ∃ cloudSnapshotResult, snapshotResult σ cloud = Some cloudSnapshotResult ∧
      r = mkSnapshotResult (unsubscribe cloudSnapshotResult)
}.

End Snapshot.

(** * Counting the reactions of the mutation coordinator *)

Module Tally.

Import Mutations.

(** The live reactions of a kind: queued or recorded, counted with [w]. *)
Definition total (w : reaction → nat) (s : state) : nat :=
  sum_list_with (λ j, w j.1) (queue s) +
  sum_list_with (λ p, sum_list_with w (rx s p)) pids.

(** The reaction that starts [localSync]. *)
Definition gate (r : reaction) : nat :=
  match r with
  | R_gate_then => 1
  | _ => 0
  end.

(** The reactions installed only under the 'committed' consistency. *)
Definition committed_plumbing (r : reaction) : nat :=
  match r with
  | R_all_elem committed _ | R_batch_then committed | R_batch_catch committed
  | R_done_then | R_done_catch => 1
  | _ => 0
  end.

(** The reaction that calls the comparison index. *)
Definition index_update (r : reaction) : nat :=
  match r with
  | R_index_then => 1
  | _ => 0
  end.

(** No reaction of [react] installs a reaction counted by [w]. *)
Definition quiet (w : reaction → nat) : Prop :=
  w (R_sync_await local) = 0 ∧ w (R_sync_catch local) = 0.

(** The stores called so far: the remote one, then the local one as long as
    the gate has not been used up. *)
Definition CallsInv (s : state) : Prop :=
  ∃ n, calls s = remote :: replicate n local ∧ total gate s + n ≤ 1.

(** Under the 'written' consistency nothing is wired to the committed
    latches: no reaction of the committed plumbing is live and the handle's
    committed latch is untouched. *)
Definition WrittenOnly (s : state) : Prop :=
  total committed_plumbing s = 0 ∧ pst s (latch datastoreMutation committed) = Pending.

(** [datastoreMutation.committed.get().then(() => resolve())] only fulfils
    its promise on a fulfilment of the latch. *)
Definition DoneInv (s : state) : Prop :=
  ∀ v, pst s done_then = Settled (Fulfilled v) →
       ∃ x, pst s (latch datastoreMutation committed) = Settled (Fulfilled x).

(** The comparison index in a call started with index [i]: untouched until
    the index reaction has run, which happens once, on the index as it was. *)
Definition IndexInv (op : operation)
    (rmv : string → gmap string nat → gmap string nat + value)
    (upd : DocInfo → gmap string nat → gmap string nat + value)
    (i : gmap string nat) (s : state) : Prop :=
  match pst s index_then with
  | Pending => docMetaComparisonIndex s = i ∧ total index_update s ≤ 1
  | Settled (Fulfilled _) =>
      total index_update s = 0 ∧
      pst s (latch datastoreMutation written) ≠ Pending ∧
      index_call op rmv upd i = inl (docMetaComparisonIndex s)
  | Settled (Rejected err) =>
      total index_update s = 0 ∧
      pst s (latch datastoreMutation written) ≠ Pending ∧
      docMetaComparisonIndex s = i ∧
      (pst s (latch datastoreMutation written) = Settled (Rejected err) ∨
       (index_call op rmv upd i = inr err ∧
        ∃ v, pst s (latch datastoreMutation written) = Settled (Fulfilled v)))
  end.

End Tally.

(** * The phases of a snapshot session *)

Module Phases.

Import Snapshot.

(** The one reconciliation of the origins [snapshot] asks for, and what may
    follow it. *)
Definition initial_sync_first (es : list effect) : Prop :=
  ∃ ml mc rest,
    es = synchronizeOrigins (mkSyncOrigin local (the_map ml))
                            (mkSyncOrigin cloud (the_map mc)) :: rest ∧
    Forall (λ x, is_synchronizeOrigins x = false) rest.

(** Where [snapshot] is tells what has happened so far. *)
Record PhaseInv (σ : session) : Prop := mkPhaseInv {
  ph_latch : ∀ x, latch (initialSnapshotLatch σ x) = true →
    hasInitialTerminatedBatch (initialSnapshotLatch σ x) = true;
  ph_main :
    match main σ with
    | await_local_latch =>
        feed σ cloud = not_subscribed ∧ initialSyncCompleted σ = false ∧ effects σ = []
    | await_cloud_latch =>
        latch (initialSnapshotLatch σ local) = true ∧
        initialSyncCompleted σ = false ∧ effects σ = []
    | await_synchronizeOrigins =>
        latch (initialSnapshotLatch σ local) = true ∧
        latch (initialSnapshotLatch σ cloud) = true ∧
        initialSyncCompleted σ = false ∧ isPrimarySnapshot σ = true ∧
        ∃ ml mc, effects σ = [synchronizeOrigins (mkSyncOrigin local (the_map ml))
                                                 (mkSyncOrigin cloud (the_map mc))]
    | await_local_result | await_cloud_result | returned _ =>
        latch (initialSnapshotLatch σ local) = true ∧
        latch (initialSnapshotLatch σ cloud) = true ∧
        initialSyncCompleted σ = true ∧
        if isPrimarySnapshot σ then initial_sync_first (effects σ) else effects σ = []
    end;
  ph_results :
    match main σ with
    | await_cloud_result => is_Some (snapshotResult σ local)
    | returned _ => is_Some (snapshotResult σ local) ∧ is_Some (snapshotResult σ cloud)
    | _ => True
    end
}.

End Phases.

(** * The initial snapshot latch, one event at a time *)

Module Replay.

Import Snapshot.

(** [handleSnapshot] run to its end, with no other call of it in between:
    [toSyncDocs] resolves before the store delivers its next event. *)
Definition handleSnapshot (l : InitialSnapshotLatch) (e : DocMetaSnapshotEvent) :
    InitialSnapshotLatch :=
  let '(l', suspended) := handleSnapshot_enter e l in
  if suspended then handleSnapshot_resume e l' else l'.

(** A fresh [InitialSnapshotLatch] after the events [es], one at a time. *)
Definition replay (es : list DocMetaSnapshotEvent) : InitialSnapshotLatch :=
  foldl handleSnapshot new_InitialSnapshotLatch es.



End Replay.

(** * Promise plumbing of the smaller operations *)

Module Promises.

Import Mutations(value(..), outcome(..), pstate(..)).

Section World.

Context {pid reaction call : Type} `{!EqDecision pid}.

(** The promises of one call, the reactions recorded on the pending ones in
    the order of their registration, the microtask queue, the calls made to
    the collaborators and the errors logged. *)
Record world := mkWorld {
  pst : pid → pstate;
  rx : list (pid * reaction);
  queue : list (reaction * outcome);
  calls : list call;
  logged : list (string * value)
}.

Definition M := world → world.

Definition seq (m1 m2 : M) : M := λ w, m2 (m1 w).

Definition skip : M := λ w, w.

(** Settle a promise: a settled promise never changes; a pending one takes
    the outcome and hands its reactions, in registration order, to the
    microtask queue. *)
Definition settle (p : pid) (o : outcome) : M := λ w,
  match pst w p with
  | Pending =>
      mkWorld (<[p := Settled o]> (pst w))
        (filter (λ x, x.1 ≠ p) (rx w))
        (queue w ++ ((λ x, (x.2, o)) <$> filter (λ x, x.1 = p) (rx w)))
        (calls w) (logged w)
  | Settled _ => w
  end.

(** [p.then(...)], [p.catch(...)], [await p], [return p]: on a pending
    promise the reaction is recorded, on a settled one it is queued at
    once. *)
Definition register (p : pid) (r : reaction) : M := λ w,
  match pst w p with
  | Pending => mkWorld (pst w) (rx w ++ [(p, r)]) (queue w) (calls w) (logged w)
  | Settled o => mkWorld (pst w) (rx w) (queue w ++ [(r, o)]) (calls w) (logged w)
  end.

Definition call_ (c : call) : M := λ w,
  mkWorld (pst w) (rx w) (queue w) (calls w ++ [c]) (logged w).

Definition log_error (msg : string) (err : value) : M := λ w,
  mkWorld (pst w) (rx w) (queue w) (calls w) (logged w ++ [(msg, err)]).

Definition pop (q : list (reaction * outcome)) : M := λ w,
  mkWorld (pst w) (rx w) q (calls w) (logged w).

(** Nothing has happened yet. *)
Definition empty : world := mkWorld (λ _, Pending) [] [] [] [].

(** One step of an execution: the next microtask runs, or the environment
    settles a promise. *)
Inductive action :=
  | tick
  | env (p : pid) (o : outcome).

Section Execution.

(** What a queued reaction does when its microtask runs, and the promises
    the environment may settle: those of the calls made so far. *)
Variable react : reaction → outcome → M.
Variable owned : world → pid → bool.

Definition step (w : world) (a : action) : world :=
  match a with
  | tick =>
      match queue w with
      | [] => w
      | (r, o) :: q => react r o (pop q w)
      end
  | env p o => if owned w p then settle p o w else w
  end.

Definition run (w : world) (sched : list action) : world := foldl step w sched.

End Execution.

(** The live reactions, counted with [weight]. *)
Definition total (weight : reaction → nat) (w : world) : nat :=
  sum_list_with (λ j, weight j.1) (queue w) + sum_list_with (λ x, weight x.2) (rx w).

Definition quiescent (w : world) : Prop := queue w = [].

(** Run the queued microtasks until none is left. *)
Definition drain (react : reaction → outcome → M) (owned : world → pid → bool)
    (weight : reaction → nat) (w : world) : world :=
  run react owned w (replicate (total weight w) tick).

(** ** The vocabulary of the proofs *)

(** [w'] has what [w] has: what is settled, called or logged stays so. *)
Record grows (w w' : world) : Prop := mkGrows {
  grows_pst : ∀ p o, pst w p = Settled o → pst w' p = Settled o;
  grows_calls : ∀ c, c ∈ calls w → c ∈ calls w';
  grows_logged : ∀ x, x ∈ logged w → x ∈ logged w'
}.

(** [w'] extends [w]: moreover queued microtasks stay queued, and a recorded
    reaction is still recorded, or queued with its promise's outcome. *)
Record ext (w w' : world) : Prop := mkExt {
  ext_grows : grows w w';
  ext_queue : ∀ j, j ∈ queue w → j ∈ queue w';
  ext_rx : ∀ p r, pst w p = Pending → (p, r) ∈ rx w →
    match pst w' p with
    | Pending => (p, r) ∈ rx w'
    | Settled o => (r, o) ∈ queue w'
    end
}.

(** What can be observed of a world. *)
Inductive fact :=
  | settled (p : pid) (o : outcome)
  | called (c : call)
  | logged_error (msg : string) (err : value).

Definition holds (w : world) (f : fact) : Prop :=
  match f with
  | settled p o => pst w p = Settled o
  | called c => c ∈ calls w
  | logged_error msg err => (msg, err) ∈ logged w
  end.

Section Invariants.

(** The promise a reaction is installed on, the reactions the program
    installs at all, what must have happened for a fact to hold, the
    reactions installed so far, and what holds once a reaction has run. *)
Variable source : reaction → pid.
Variable allowed : reaction → Prop.
Variable justified : world → fact → Prop.
Variable registered : world → reaction → Prop.
Variable fired : world → reaction → outcome → Prop.

Record PInv (w : world) : Prop := mkPInv {
  inv_rx : ∀ p r, (p, r) ∈ rx w → source r = p ∧ pst w p = Pending ∧ allowed r;
  inv_queue : ∀ r o, (r, o) ∈ queue w → pst w (source r) = Settled o ∧ allowed r;
  inv_facts : ∀ f, holds w f → justified w f
}.

Definition wired (w : world) (r : reaction) : Prop :=
  match pst w (source r) with
  | Pending => (source r, r) ∈ rx w
  | Settled o => (r, o) ∈ queue w ∨ fired w r o
  end.

Definition FInv (w : world) : Prop := ∀ r, registered w r → wired w r.

Definition Inv (w : world) : Prop := PInv w ∧ FInv w.

(** What a program owes for [Inv] to hold in all its executions. *)
Record sound (react : reaction → outcome → M) (owned : world → pid → bool) : Prop :=
  mkSound {
  sound_justified : ∀ w w' f, grows w w' → justified w f → justified w' f;
  sound_fired : ∀ w w' r o, grows w w' → fired w r o → fired w' r o;
  sound_registered : ∀ w w' r, calls w' = calls w → registered w' r → registered w r;
  sound_ext : ∀ r o w, ext w (react r o w);
  sound_PInv : ∀ r o w, PInv w → pst w (source r) = Settled o → allowed r →
    PInv (react r o w);
  sound_react_fired : ∀ r o w, PInv w → pst w (source r) = Settled o → allowed r →
    fired (react r o w) r o;
  sound_react_registered : ∀ r o w r', PInv w → pst w (source r) = Settled o → allowed r →
    registered (react r o w) r' → registered w r' ∨ wired (react r o w) r';
  sound_owned : ∀ w p o, PInv w → owned w p = true → pst w p = Pending →
    justified (settle p o w) (settled p o)
}.

End Invariants.

End World.

Notation "m1 ⨾ m2" := (seq m1 m2) (at level 65, right associativity).

End Promises.

(** * The file and read operations of the cloud-aware datastore *)

Module Files.

Import Mutations(value(..), outcome(..), pstate(..)).
Import Snapshot(CloudDatastoreID(..)).
Import Promises.

(** The methods of [CloudAwareDatastore] that hand their arguments on to
    the stores. *)
Inductive operation :=
  | contains (fingerprint : string)
  | getDocMeta (fingerprint : string)
  | getFile (backend ref : string)
  | containsFile (backend ref : string)
  | getDocMetaFiles
  | writeFile (backend ref data meta : string)
  | deleteFile (backend ref : string).

(** A call of a store's method of the same name, with the same arguments. *)
Definition call : Type := CloudDatastoreID * operation.

Inductive pid :=
  | store_promise (x : CloudDatastoreID)
      (* this.local.op(...) / this.cloud.op(...) *)
  | cloud_catch
      (* this.cloud.writeFile(...).catch(...) *)
  | op_result.
      (* the promise of the async method *)

Inductive reaction :=
  | R_return
      (* return this.local.op(...);   return result; *)
  | R_cloud_catch
      (* .catch(err => log.error("Unable to write file to cloud: ", err)) *)
  | R_await_cloud.
      (* await this.cloud.deleteFile(backend, ref); *)

Global Instance operation_eq_dec : EqDecision operation.
Proof. solve_decision. Defined.
Global Instance pid_eq_dec : EqDecision pid.
Proof. solve_decision. Defined.
Global Instance reaction_eq_dec : EqDecision reaction.
Proof. solve_decision. Defined.

Section Program.

Variable op : operation.

Definition call_store (x : CloudDatastoreID) : @M pid reaction call := call_ (x, op).

(** The method up to the point where it hands its promise to the caller. *)
Definition start : @M pid reaction call :=
  match op with
  | contains _ | getDocMeta _ | getFile _ _ | getDocMetaFiles =>
      (* return this.local.op(...); *)
      call_store local ⨾ register (store_promise local) R_return
  | containsFile _ _ =>
      (* return this.local.containsFile(backend, ref);   (not async) *)
      call_store local
  | writeFile _ _ _ _ =>
      (* const result = this.local.writeFile(backend, ref, data, meta); *)
      call_store local ⨾
      (* this.cloud.writeFile(backend, ref, data, meta)
             .catch(err => log.error("Unable to write file to cloud: ", err)); *)
      call_store cloud ⨾
      register (store_promise cloud) R_cloud_catch ⨾
      (* return result; *)
      register (store_promise local) R_return
  | deleteFile _ _ =>
      (* await this.cloud.deleteFile(backend, ref); *)
      call_store cloud ⨾ register (store_promise cloud) R_await_cloud
  end.

(** The promise the caller holds: [containsFile] is not [async] and returns
    the local store's promise itself. *)
Definition result : pid :=
  match op with
  | containsFile _ _ => store_promise local
  | _ => op_result
  end.

Definition react (r : reaction) (o : outcome) : @M pid reaction call :=
  match r with
  | R_return => settle op_result o
  | R_cloud_catch =>
      match o with
      | Fulfilled v => settle cloud_catch (Fulfilled v)
      | Rejected err =>
          log_error "Unable to write file to cloud: " err ⨾
          settle cloud_catch (Fulfilled VUndefined)
      end
  | R_await_cloud =>
      match o with
      | Fulfilled _ =>
          (* return this.local.deleteFile(backend, ref); *)
          call_store local ⨾ register (store_promise local) R_return
      | Rejected err => settle op_result (Rejected err)
      end
  end.

(** A store settles the promise of a call it has received. *)
Definition owned (w : @world pid reaction call) (p : pid) : bool :=
  match p with
  | store_promise x => bool_decide (x ∈ (calls w).*1)
  | _ => false
  end.

Definition init : @world pid reaction call := start empty.

Definition step := step react owned.
Definition run := run react owned.

Definition execution (sched : list (@action pid)) : @world pid reaction call :=
  run init sched.

(** A microtask counts for itself and for the reaction it installs. *)
Definition weight (r : reaction) : nat :=
  match r with
  | R_await_cloud => 2
  | _ => 1
  end.

Definition drain (w : @world pid reaction call) : @world pid reaction call :=
  drain react owned weight w.

(** ** The vocabulary of the proofs *)

Definition source (r : reaction) : pid :=
  match r with
  | R_return => store_promise local
  | R_cloud_catch | R_await_cloud => store_promise cloud
  end.

Definition is_writeFile : Prop :=
  match op with
  | writeFile _ _ _ _ => True
  | _ => False
  end.

Definition is_deleteFile : Prop :=
  match op with
  | deleteFile _ _ => True
  | _ => False
  end.

Definition is_containsFile : Prop :=
  match op with
  | containsFile _ _ => True
  | _ => False
  end.

(** The reactions the method installs at all. *)
Definition allowed (r : reaction) : Prop :=
  match r with
  | R_return => ¬ is_containsFile
  | R_cloud_catch => is_writeFile
  | R_await_cloud => is_deleteFile
  end.

Definition justified (w : @world pid reaction call) (f : @fact pid call) : Prop :=
  match f with
  | settled (store_promise x) _ => x ∈ (calls w).*1
  | settled cloud_catch _ => True
  | settled op_result o =>
      pst w (store_promise local) = Settled o ∨
      (is_deleteFile ∧
       ∃ err, o = Rejected err ∧ pst w (store_promise cloud) = Settled (Rejected err))
  | called (x, op') =>
      op' = op ∧
      match x with
      | local => is_deleteFile → ∃ v, pst w (store_promise cloud) = Settled (Fulfilled v)
      | cloud => is_writeFile ∨ is_deleteFile
      end
  | logged_error msg err =>
      msg = "Unable to write file to cloud: " ∧
      pst w (store_promise cloud) = Settled (Rejected err)
  end.

Definition registered (w : @world pid reaction call) (r : reaction) : Prop :=
  match r with
  | R_return => ¬ is_containsFile ∧ (is_deleteFile → local ∈ (calls w).*1)
  | R_cloud_catch => is_writeFile
  | R_await_cloud => is_deleteFile
  end.

Definition fired (w : @world pid reaction call) (r : reaction) (o : outcome) : Prop :=
  match r, o with
  | R_return, _ => pst w op_result ≠ Pending
  | R_cloud_catch, Rejected err => ("Unable to write file to cloud: ", err) ∈ logged w
  | R_cloud_catch, Fulfilled _ => True
  | R_await_cloud, Fulfilled _ => (local, op) ∈ calls w
  | R_await_cloud, Rejected _ => pst w op_result ≠ Pending
  end.

Definition Inv (w : @world pid reaction call) : Prop :=
  Inv source allowed justified registered fired w.

(** The reactions that call a store. *)
Definition awaits (r : reaction) : nat :=
  match r with
  | R_await_cloud => 1
  | _ => 0
  end.

(** The reactions that log. *)
Definition catches (r : reaction) : nat :=
  match r with
  | R_cloud_catch => 1
  | _ => 0
  end.

(** The calls made and the errors logged, counted. *)
Definition CountInv (w : @world pid reaction call) : Prop :=
  (∃ n, calls w = calls init ++ replicate n (local, op) ∧
        total awaits w + n ≤ match op with deleteFile _ _ => 1 | _ => 0 end) ∧
  length (logged w) + total catches w ≤ match op with writeFile _ _ _ _ => 1 | _ => 0 end.

(** The methods that only read. *)
Definition is_read : Prop :=
  match op with
  | writeFile _ _ _ _ | deleteFile _ _ => False
  | _ => True
  end.

End Program.

End Files.

(** * DatastoreMutations.handle and DatastoreMutations.pipe *)

Module Pipes.

Import Mutations(value(..), outcome(..), pstate(..), DatastoreConsistency(..)).
Import Promises.

Inductive method := handle | pipe.

Inductive pid :=
  | promise
      (* handle: the promise handed in *)
  | source_latch (f : DatastoreConsistency)
      (* pipe: source.written / source.committed *)
  | handle_then
      (* promise.then(...) *)
  | handle_catch
      (* promise.then(...).catch(...) *)
  | pipe_then (f : DatastoreConsistency)
      (* source.get().then(...) in pipeLatch *)
  | pipe_catch (f : DatastoreConsistency)
      (* source.get().then(...).catch(...) in pipeLatch *)
  | target_latch (f : DatastoreConsistency).
      (* target.written / target.committed *)

Inductive reaction :=
  | R_handle_then
      (* .then((result) => { try { target.written.resolve(converter(result)); ... } ... }) *)
  | R_handle_catch
      (* .catch(err => { try { target.written.reject(err); ... } ... }) *)
  | R_pipe_then (f : DatastoreConsistency)
      (* .then((value: T) => target.resolve(converter(value))) *)
  | R_pipe_catch (f : DatastoreConsistency).
      (* .catch(err => target.reject(err)) *)

Global Instance method_eq_dec : EqDecision method.
Proof. solve_decision. Defined.
Global Instance pid_eq_dec : EqDecision pid.
Proof. solve_decision. Defined.
Global Instance reaction_eq_dec : EqDecision reaction.
Proof. solve_decision. Defined.

Section Program.

(** The consistency the [DatastoreMutations] object was created with, and
    the converter handed in: [inr err] is a thrown [err]. *)
Variable consistency : DatastoreConsistency.
Variable converter : value → value + value.

(** [target.written.resolve(x); if (this.consistency === 'committed') {
    target.committed.resolve(x); }], and likewise [reject]. *)
Definition settle_target (o : outcome) : @M pid reaction unit :=
  settle (target_latch written) o ⨾
  if decide (consistency = committed) then settle (target_latch committed) o else skip.

(** [private pipeLatch<T, V>(source, target, converter)] *)
Definition pipeLatch (f : DatastoreConsistency) : @M pid reaction unit :=
  (* source.get()
         .then((value: T) => target.resolve(converter(value)))
         .catch(err => target.reject(err)); *)
  register (source_latch f) (R_pipe_then f) ⨾
  register (pipe_then f) (R_pipe_catch f).

Definition start (m : method) : @M pid reaction unit :=
  match m with
  | handle =>
      (* promise.then((result) => { ... }).catch(err => { ... }); *)
      register promise R_handle_then ⨾ register handle_then R_handle_catch
  | pipe =>
      (* this.pipeLatch(source.written, target.written, converter); *)
      pipeLatch written ⨾
      (* if (this.consistency === 'committed') {
             this.pipeLatch(source.committed, target.committed, converter); } *)
      if decide (consistency = committed) then pipeLatch committed else skip
  end.

Definition react (r : reaction) (o : outcome) : @M pid reaction unit :=
  match r with
  | R_handle_then =>
      match o with
      | Fulfilled result =>
          (* try { target.written.resolve(converter(result)); ... }
             catch (err) { console.error("Unable to resolve: ", err); } *)
          match converter result with
          | inl x => settle_target (Fulfilled x)
          | inr err => log_error "Unable to resolve: " err
          end ⨾
          settle handle_then (Fulfilled VUndefined)
      | Rejected err => settle handle_then (Rejected err)
      end
  | R_handle_catch =>
      match o with
      | Fulfilled v => settle handle_catch (Fulfilled v)
      | Rejected err =>
          (* try { target.written.reject(err); ... } catch (err) { ... } *)
          settle_target (Rejected err) ⨾ settle handle_catch (Fulfilled VUndefined)
      end
  | R_pipe_then f =>
      match o with
      | Fulfilled v =>
          match converter v with
          | inl x =>
              settle (target_latch f) (Fulfilled x) ⨾
              settle (pipe_then f) (Fulfilled VUndefined)
          | inr err => settle (pipe_then f) (Rejected err)
          end
      | Rejected err => settle (pipe_then f) (Rejected err)
      end
  | R_pipe_catch f =>
      match o with
      | Fulfilled v => settle (pipe_catch f) (Fulfilled v)
      | Rejected err =>
          settle (target_latch f) (Rejected err) ⨾
          settle (pipe_catch f) (Fulfilled VUndefined)
      end
  end.

(** The caller settles the promise and the latches of the source. *)
Definition owned (w : @world pid reaction unit) (p : pid) : bool :=
  match p with
  | promise | source_latch _ => true
  | _ => false
  end.

Definition init (m : method) : @world pid reaction unit := start m empty.

Definition step := step react owned.
Definition run := run react owned.

Definition execution (m : method) (sched : list (@action pid)) : @world pid reaction unit :=
  run (init m) sched.

Definition weight (r : reaction) : nat := 1.

Definition drain (w : @world pid reaction unit) : @world pid reaction unit :=
  drain react owned weight w.

(** ** The vocabulary of the proofs *)

Definition source (r : reaction) : pid :=
  match r with
  | R_handle_then => promise
  | R_handle_catch => handle_then
  | R_pipe_then f => source_latch f
  | R_pipe_catch f => pipe_then f
  end.

Section Method.

Variable m : method.

(** A latch of the chosen kind is wired at all. *)
Definition wired_kind (f : DatastoreConsistency) : Prop :=
  f = committed → consistency = committed.

Definition allowed (r : reaction) : Prop :=
  match r with
  | R_handle_then | R_handle_catch => m = handle
  | R_pipe_then f | R_pipe_catch f => m = pipe ∧ wired_kind f
  end.

Definition justified (w : @world pid reaction unit) (f : @fact pid unit) : Prop :=
  match f with
  | settled handle_then o =>
      match o with
      | Fulfilled _ => ∃ v, pst w promise = Settled (Fulfilled v)
      | Rejected err => pst w promise = Settled (Rejected err)
      end
  | settled (pipe_then f) o =>
      match o with
      | Fulfilled _ =>
          ∃ v x, pst w (source_latch f) = Settled (Fulfilled v) ∧ converter v = inl x
      | Rejected err =>
          pst w (source_latch f) = Settled (Rejected err) ∨
          ∃ v, pst w (source_latch f) = Settled (Fulfilled v) ∧ converter v = inr err
      end
  | settled (target_latch f) o =>
      wired_kind f ∧
      match m, o with
      | handle, Fulfilled x =>
          ∃ v, pst w promise = Settled (Fulfilled v) ∧ converter v = inl x
      | handle, Rejected err => pst w handle_then = Settled (Rejected err)
      | pipe, Fulfilled x =>
          ∃ v, pst w (source_latch f) = Settled (Fulfilled v) ∧ converter v = inl x
      | pipe, Rejected err => pst w (pipe_then f) = Settled (Rejected err)
      end
  | logged_error msg err =>
      msg = "Unable to resolve: " ∧
      ∃ v, pst w promise = Settled (Fulfilled v) ∧ converter v = inr err
  | _ => True
  end.

Definition registered (w : @world pid reaction unit) (r : reaction) : Prop := allowed r.

Definition fired (w : @world pid reaction unit) (r : reaction) (o : outcome) : Prop :=
  match r, o with
  | R_handle_then, Fulfilled v =>
      pst w handle_then ≠ Pending ∧
      match converter v with
      | inl _ => ∀ f, wired_kind f → pst w (target_latch f) ≠ Pending
      | inr err => ("Unable to resolve: ", err) ∈ logged w
      end
  | R_handle_then, Rejected _ => pst w handle_then ≠ Pending
  | R_handle_catch, Rejected _ => ∀ f, wired_kind f → pst w (target_latch f) ≠ Pending
  | R_handle_catch, Fulfilled _ => True
  | R_pipe_then f, Fulfilled v =>
      pst w (pipe_then f) ≠ Pending ∧
      (∀ x, converter v = inl x → pst w (target_latch f) ≠ Pending)
  | R_pipe_then f, Rejected _ => pst w (pipe_then f) ≠ Pending
  | R_pipe_catch f, Rejected _ => pst w (target_latch f) ≠ Pending
  | R_pipe_catch f, Fulfilled _ => True
  end.

Definition Inv (w : @world pid reaction unit) : Prop :=
  Inv source allowed justified registered fired w.

End Method.

(** The reaction that logs. *)
Definition resolves (r : reaction) : nat :=
  match r with
  | R_handle_then => 1
  | _ => 0
  end.

Definition LogInv (w : @world pid reaction unit) : Prop :=
  length (logged w) + total resolves w ≤ 1.

End Program.

End Pipes.

(** * DocMetas *)

Module DocMetas.

(** [for (let idx = first; idx <= last; ++idx) { body }] on a state: the
    condition is tested before every round; [fuel] bounds the rounds. *)
Fixpoint for_loop {T : Type} (fuel : nat) (idx last : Z) (body : Z → T → T) (s : T) : T :=
  match fuel with
  | O => s
  | S fuel' =>
      if bool_decide (idx ≤ last)%Z
      then for_loop fuel' (idx + 1)%Z last body (body idx s)
      else s
  end.

(** The loop with the fuel it needs: one round for each index from [first]
    to [last]. *)
Definition for_upto {T : Type} (first last : Z) (body : Z → T → T) (s : T) : T :=
  for_loop (Z.to_nat (last - first + 1)) first last body s.

(** The fields of [DocInfo] the code reads and writes. *)
Record DocInfo := mkDocInfo {
  fingerprint : string;
  nrPages : Z;
  filename : option string;
  mutating : option bool
}.

(** [PagemarkType.SINGLE_COLUMN], the member the code names. *)
Inductive PagemarkType := SINGLE_COLUMN.

(** The argument of [Pagemarks.create]. *)
Record PagemarkOptions := mkPagemarkOptions {
  type : PagemarkType;
  percentage : Z;
  column : Z
}.

(** A call [Pagemarks.updatePagemark(docMeta, pageNum,
    Pagemarks.create(options))]. *)
Definition updatePagemark : Type := Z * PagemarkOptions.

(** The [options] of [addPagemarks]: each field a number, or undefined. *)
Record Options := mkOptions {
  o_nrPages : option Z;
  o_offsetPage : option Z;
  o_percentage : option Z
}.

(** [!x] for a number or undefined. *)
Definition not_ (x : option Z) : bool :=
  match x with
  | None => true
  | Some n => bool_decide (n = 0%Z)
  end.

(** [if (!options.x) { options.x = d; }], then [options.x]. *)
Definition or_default (x : option Z) (d : Z) : Z :=
  if not_ x then d else default d x.

(** ** JavaScript numbers *)

(** A JavaScript number is an IEEE 754 double.  The numbers of
    [addPagemarks] are page numbers and counts of pages: a whole finite
    double is written as the integer it is, and a sum is rounded as the sum
    of two doubles is.  Fractions, NaN and values that are no numbers are not
    modelled. *)

(** The double nearest to an integer, before overflow: 53 significant bits,
    a tie goes to the even significand. *)
Definition nearest (z : Z) : Z :=
  let a := Z.abs z in
  if bool_decide (a < 2 ^ 53)%Z then z
  else
    let ulp := (2 ^ (Z.log2 a - 52))%Z in
    let q := (a / ulp)%Z in
    let r := (a mod ulp)%Z in
    let q' :=
      if bool_decide (2 * r < ulp)%Z then q
      else if bool_decide (ulp < 2 * r)%Z then (q + 1)%Z
      else if Z.even q then q else (q + 1)%Z in
    (Z.sgn z * (q' * ulp))%Z.

(** A whole finite double, or the infinity a sum overflows to. *)
Inductive number := finite (z : Z) | infinity (negative : bool).

(** The double an exact result is rounded to: beyond the largest finite
    double it is an infinity. *)
Definition double (z : Z) : number :=
  let r := nearest z in
  if bool_decide (Z.abs r < 2 ^ 1024)%Z then finite r
  else infinity (bool_decide (r < 0)%Z).

(** [x + y], for a finite [y]. *)
Definition plus (x : number) (y : Z) : number :=
  match x with
  | finite z => double (z + y)
  | infinity negative => infinity negative
  end.

(** [x <= y] *)
Definition le (x y : number) : bool :=
  match x, y with
  | finite a, finite b => bool_decide (a ≤ b)%Z
  | infinity true, _ => true
  | _, infinity false => true
  | _, _ => false
  end.

(** [Math.min(x, y)] *)
Definition Math_min (x y : number) : number := if le x y then x else y.

Section Classes.

(** [PageInfo], [PageMeta] and the constructors of [DocInfo] and [DocMeta]
    are not among the sources: the page types and the constructors are
    parameters. *)
Variables PageInfo PageMeta : Type.
Variable new_PageInfo : Z → PageInfo.                 (* new PageInfo({num: idx}) *)
Variable new_PageMeta : PageInfo → PageMeta.          (* new PageMeta({pageInfo}) *)
Variable DocInfos_create : string → Z → option string → DocInfo.

Record DocMeta := mkDocMeta {
  docInfo : DocInfo;
  pageMetas : gmap Z PageMeta
}.

Variable new_DocMeta : DocInfo → gmap Z PageMeta → DocMeta.

(** [public static create(fingerprint, nrPages, filename?)] *)
Definition create (fingerprint : string) (nrPages : Z) (filename : option string) :
    DocMeta :=
  (* const docInfo = DocInfos.create(fingerprint, nrPages, filename); *)
  let docInfo := DocInfos_create fingerprint nrPages filename in
  (* const pageMetas: {[id: string]: PageMeta} = {};
     for (let idx = 1; idx <= nrPages; ++idx) {
         const pageInfo = new PageInfo({num: idx});
         const pageMeta = new PageMeta({pageInfo});
         pageMetas[idx] = pageMeta;
     } *)
  let pageMetas :=
    for_upto 1 nrPages
      (λ idx pageMetas, <[idx := new_PageMeta (new_PageInfo idx)]> pageMetas) ∅ in
  (* return new DocMeta(docInfo, pageMetas); *)
  new_DocMeta docInfo pageMetas.

(** The pagemark both loops create: [Pagemarks.create({type:
    PagemarkType.SINGLE_COLUMN, percentage: 100, column: 0})]. *)
Definition full_page : PagemarkOptions := mkPagemarkOptions SINGLE_COLUMN 100 0.

(** [for (let pageNum = ...; pageNum <= maxPageNum; ++pageNum) { ... }] of
    [addPagemarks]: the calls of [Pagemarks.updatePagemark], in order.  The
    test and the increment are those of doubles: when [++pageNum] gives the
    number it started from the loop never ends, and no [fuel] is enough. *)
Fixpoint pagemark_loop (fuel : nat) (pageNum : Z) (maxPageNum : number)
    (calls : list updatePagemark) : option (list updatePagemark) :=
  match fuel with
  | O => None
  | S fuel' =>
      if le (finite pageNum) maxPageNum
      then
        let calls := calls ++ [(pageNum, full_page)] in
        match plus (finite pageNum) 1 with
        | finite pageNum => pagemark_loop fuel' pageNum maxPageNum calls
        | infinity negative =>
            (* an infinity stays what it is under [++] *)
            if le (infinity negative) maxPageNum then None else Some calls
        end
      else Some calls
  end.

(** [public static addPagemarks(docMeta, options)]: the options object
    afterwards, and the calls of [Pagemarks.updatePagemark], in order; [None]
    when [fuel] rounds of the loop are not enough. *)
Definition addPagemarks (fuel : nat) (docMeta : DocMeta) (options : option Options) :
    option (Options * list updatePagemark) :=
  (* if (!options) { options = {}; } *)
  let options := default (mkOptions None None None) options in
  (* if (!options.nrPages) { options.nrPages = 3; } *)
  let nrPages_ := or_default (o_nrPages options) 3 in
  (* if (!options.offsetPage) { options.offsetPage = 1; } *)
  let offsetPage := or_default (o_offsetPage options) 1 in
  (* if (!options.percentage) { options.percentage = 100; } *)
  let percentage_ := or_default (o_percentage options) 100 in
  (* const maxPageNum = Math.min(options.offsetPage + options.nrPages - 1,
                                 docMeta.docInfo.nrPages); *)
  let maxPageNum :=
    Math_min (plus (plus (finite offsetPage) nrPages_) (-1))
             (finite (nrPages (docInfo docMeta))) in
  (* for (let pageNum = options.offsetPage; pageNum <= maxPageNum; ++pageNum) {
         const pagemark = Pagemarks.create({...});
         Pagemarks.updatePagemark(docMeta, pageNum, pagemark);
     } *)
  match pagemark_loop fuel offsetPage maxPageNum [] with
  | Some calls =>
      Some (mkOptions (Some nrPages_) (Some offsetPage) (Some percentage_), calls)
  | None => None
  end.

(** [MockDocMetas.createWithinInitialPagemarks(fingerprint, nrPages)]: the
    document, and the calls of [Pagemarks.updatePagemark] on it. *)
Definition createWithinInitialPagemarks (fingerprint : string) (nrPages : Z) :
    DocMeta * list updatePagemark :=
  (* const result = DocMetas.create(fingerprint, nrPages); *)
  let result := create fingerprint nrPages None in
  (* const maxPages = 3; *)
  let maxPages := 3%Z in
  (* for (let pageNum = 1; pageNum <= Math.min(nrPages, maxPages); ++pageNum) { ... } *)
  (result,
   for_upto 1 (Z.min nrPages maxPages)
     (λ pageNum calls, calls ++ [(pageNum, full_page)]) []).

Definition set_mutating (b : option bool) (docMeta : DocMeta) : DocMeta :=
  mkDocMeta
    (mkDocInfo (fingerprint (docInfo docMeta)) (nrPages (docInfo docMeta))
       (filename (docInfo docMeta)) b)
    (pageMetas docMeta).

(** [public static withBatchedMutations(docMeta, mutator)]: the mutator
    works on the document and may throw; the result is the document
    afterwards and what was thrown, if anything. *)
Definition withBatchedMutations {E : Type} (docMeta : DocMeta)
    (mutator : DocMeta → DocMeta * option E) : DocMeta * option E :=
  (* try { docMeta.docInfo.mutating = true; mutator(); } *)
  let '(docMeta', thrown) := mutator (set_mutating (Some true) docMeta) in
  (* finally { docMeta.docInfo.mutating = undefined; } *)
  (set_mutating None docMeta', thrown).

End Classes.

End DocMetas.

(** * Verification of the mutation coordinator *)

Import Mutations.

(** The fields of [PInv] a command leaves alone. *)
Ltac pinv_same I E JE :=
  first
    [ exact (inv_rx _ _ I) | exact (inv_queue _ _ I) | exact (inv_calls _ _ I)
    | exact (inv_all _ _ I) | exact (inv_logged _ _ I)
    | let q := fresh in let oq := fresh in let Hq := fresh in
      intros q oq Hq; apply (JE _ _ _ _ _ E); exact (inv_pst _ _ I q oq Hq) ].

(** ** How the primitives move the state *)

Lemma ext_refl s : ext s s.
Proof.
  split; auto. intros p r Hp Hr. by rewrite Hp.
Qed.

Lemma ext_trans s1 s2 s3 : ext s1 s2 → ext s2 s3 → ext s1 s3.
Proof.
  intros H12 H23. split.
  - intros p o H. by apply H23, H12.
  - intros l H. by apply H23, H12.
  - intros f l H. by apply H23, H12.
  - intros x H. by apply H23, H12.
  - intros j H. by apply H23, H12.
  - intros p r Hp Hr. pose proof (ext_rx _ _ H12 p r Hp Hr) as H2.
    destruct (pst s2 p) as [|o2] eqn:Hp2.
    + by apply (ext_rx _ _ H23).
    + rewrite (ext_pst _ _ H23 p o2 Hp2). by apply H23.
Qed.

Lemma ext_not_pending s s' p : ext s s' → pst s p ≠ Pending → pst s' p ≠ Pending.
Proof.
  intros H Hp. destruct (pst s p) as [|o] eqn:E; [done|].
  by rewrite (ext_pst _ _ H p o E).
Qed.

Lemma settle_ext p o s : ext s (settle p o s).
Proof.
  unfold settle. destruct (pst s p) eqn:Hp; [|apply ext_refl].
  split; simpl; auto.
  - intros q oq Hq. unfold insert, fn_insert.
    destruct (decide (p = q)) as [<-|]; congruence.
  - intros j Hj. apply elem_of_app. by left.
  - intros q r Hq Hr. unfold insert, fn_insert.
    destruct (decide (p = q)) as [<-|].
    + apply elem_of_app. right. by apply (list_elem_of_fmap_2 (λ r, (r, o))).
    + by rewrite Hq.
Qed.

Lemma register_ext p r s : ext s (register p r s).
Proof.
  unfold register. destruct (pst s p) eqn:Hp.
  - split; simpl; auto.
    intros q r' Hq Hr. rewrite Hq. unfold insert, fn_insert.
    destruct (decide (p = q)) as [<-|]; [|done].
    apply elem_of_app. by left.
  - split; simpl; auto.
    + intros j Hj. apply elem_of_app. by left.
    + intros q r' Hq Hr. by rewrite Hq.
Qed.

Lemma call_store_ext l s : ext s (call_store l s).
Proof.
  split; simpl; auto.
  - intros l' H. apply elem_of_app. by left.
  - intros p r Hp Hr. by rewrite Hp.
Qed.

Lemma log_error_ext msg err s : ext s (log_error msg err s).
Proof.
  split; simpl; auto.
  - intros x H. apply elem_of_app. by left.
  - intros p r Hp Hr. by rewrite Hp.
Qed.

Lemma set_index_ext g s : ext s (set_index g s).
Proof.
  split; simpl; auto. intros p r Hp Hr. by rewrite Hp.
Qed.

Lemma all_resolve_element_ext f l v s : ext s (all_resolve_element f l v s).
Proof.
  unfold all_resolve_element.
  set (s' := set_all_values _ s).
  assert (ext s s') as Hs'.
  { split; simpl; auto.
    - intros f' l' H. unfold insert, fn_insert.
      destruct (decide (f = f')) as [<-|]; [|done].
      destruct (decide (l = l')) as [<-|]; [|done]. by eexists.
    - intros p r Hp Hr. by rewrite Hp. }
  destruct (all_values s' f remote), (all_values s' f local); try done.
  eapply ext_trans; [done|apply settle_ext].
Qed.

Lemma seq_ext (m1 m2 : M) s :
  (∀ s, ext s (m1 s)) → (∀ s, ext s (m2 s)) → ext s ((m1 >> m2) s).
Proof. intros H1 H2. unfold seq. eapply ext_trans; [apply H1|apply H2]. Qed.

(** ** Where reactions sit and what settles a promise *)

Lemma justified_ext c s s' p o : ext s s' → justified c s p o → justified c s' p o.
Proof.
  intros H. pose proof (ext_pst _ _ H) as Hp. pose proof (ext_calls _ _ H) as Hc.
  destruct p as [[] f|[]|l|l| | |f|f|f| | | | | | |]; simpl; auto; destruct o;
    firstorder eauto.
Qed.

Lemma justified_same c s s' p o :
  pst s' = pst s → calls s' = calls s → justified c s p o → justified c s' p o.
Proof.
  intros Hp Hc. unfold justified. by rewrite Hp, Hc.
Qed.

Lemma settle_PInv c p o s :
  PInv c s → (pst s p = Pending → justified c s p o) → PInv c (settle p o s).
Proof.
  intros I J. pose proof (settle_ext p o s) as E.
  unfold settle in *. destruct (pst s p) eqn:Hp; [|done].
  specialize (J eq_refl). split; simpl.
  - intros q r. unfold insert, fn_insert.
    destruct (decide (p = q)); [by intros ?%elem_of_nil|apply I].
  - intros r o' [Hj|Hj]%elem_of_app.
    + destruct (inv_queue _ _ I r o' Hj) as [H1 H2]. split; [|done].
      by apply (ext_pst _ _ E).
    + apply list_elem_of_fmap in Hj as (r' & [= -> ->] & Hr).
      destruct (inv_rx _ _ I _ _ Hr) as [-> H2]. split; [|done].
      unfold insert, fn_insert. by case_decide.
  - intros q oq. unfold insert, fn_insert.
    destruct (decide (p = q)) as [<-|].
    + intros [= <-]. by apply (justified_ext c s).
    + intros Hq. apply (justified_ext c s); [done|]. by apply I.
  - intros Hc. destruct (inv_calls _ _ I Hc) as [v Hv]. exists v.
    by apply (ext_pst _ _ E).
  - intros f l v H. apply (ext_pst _ _ E). by apply I.
  - intros msg err H. apply (ext_pst _ _ E). by apply (inv_logged _ _ I msg).
Qed.

Lemma register_PInv c p r s :
  PInv c s → source r = p → allowed c r → PInv c (register p r s).
Proof.
  intros I Hs Ha. pose proof (register_ext p r s) as E.
  unfold register in *. destruct (pst s p) as [|o] eqn:Hp.
  - split; simpl; [|pinv_same I E justified_ext..].
    intros q r'. unfold insert, fn_insert.
    destruct (decide (p = q)) as [<-|]; [|apply I].
    intros [H|H%list_elem_of_singleton]%elem_of_app; [by apply I|by subst].
  - split; simpl; [pinv_same I E justified_ext| |pinv_same I E justified_ext..].
    intros r' o' [Hj|Hj%list_elem_of_singleton]%elem_of_app.
    + by apply I.
    + injection Hj as -> ->. by rewrite Hs.
Qed.

Lemma call_store_PInv c l s :
  PInv c s →
  (l = local → ∃ v, pst s (latch remoteCoordinator written) = Settled (Fulfilled v)) →
  PInv c (call_store l s).
Proof.
  intros I J. pose proof (call_store_ext l s) as E.
  split; simpl;
    [pinv_same I E justified_ext..| |pinv_same I E justified_ext
    |pinv_same I E justified_ext].
  intros [H|H%list_elem_of_singleton]%elem_of_app; [by apply I|]. by apply J.
Qed.

Lemma log_error_PInv c msg err s :
  PInv c s → pst s index_then = Settled (Rejected err) → PInv c (log_error msg err s).
Proof.
  intros I J. pose proof (log_error_ext msg err s) as E.
  split; simpl; [pinv_same I E justified_ext..|].
  intros msg' err' [H|H%list_elem_of_singleton]%elem_of_app.
  - by apply (inv_logged _ _ I msg').
  - by injection H as -> ->.
Qed.

Lemma set_index_PInv c g s : PInv c s → PInv c (set_index g s).
Proof.
  intros I. pose proof (set_index_ext g s) as E. split; simpl; pinv_same I E justified_ext.
Qed.

Lemma pop_PInv c q s :
  (∀ j, j ∈ q → j ∈ queue s) → PInv c s → PInv c (set_queue (λ _, q) s).
Proof.
  intros Hq I. split; simpl;
    [exact (inv_rx _ _ I)| | |exact (inv_calls _ _ I)|exact (inv_all _ _ I)
    |exact (inv_logged _ _ I)].
  - intros r o H. apply I. by apply Hq.
  - intros p o H. apply (justified_same c s); [done..|]. by apply I.
Qed.

Lemma set_slot_PInv c f l v s :
  PInv c s → pst s (latch (coordinator l) f) = Settled (Fulfilled v) →
  PInv c (set_all_values (λ a, <[f := <[l := Some v]> (a f)]> a) s).
Proof.
  intros I J. split; simpl;
    [exact (inv_rx _ _ I)|exact (inv_queue _ _ I)| |exact (inv_calls _ _ I)|
    |exact (inv_logged _ _ I)].
  - intros p o H. apply (justified_same c s); [done..|]. by apply I.
  - intros f' l' v'. unfold insert, fn_insert.
    destruct (decide (f = f')) as [<-|]; [|apply I].
    destruct (decide (l = l')) as [<-|]; [|apply I]. by intros [= <-].
Qed.

Lemma all_resolve_element_PInv c f l v s :
  PInv c s → pst s (latch (coordinator l) f) = Settled (Fulfilled v) →
  PInv c (all_resolve_element f l v s).
Proof.
  intros I J. unfold all_resolve_element.
  pose proof (set_slot_PInv c f l v s I J) as I'.
  set (s' := set_all_values _ s) in *.
  destruct (all_values s' f remote) as [v0|] eqn:H0; [|done].
  destruct (all_values s' f local) as [v1|] eqn:H1; [|done].
  apply settle_PInv; [done|]. intros _. exists v0, v1.
  split; [done|].
  split; [exact (inv_all _ _ I' f remote v0 H0)|exact (inv_all _ _ I' f local v1 H1)].
Qed.

(** ** Which reactions are installed, and what a run reaction leaves behind *)

Lemma fired_ext s s' r o : ext s s' → fired s r o → fired s' r o.
Proof.
  intros E.
  assert (∀ p, pst s p ≠ Pending → pst s' p ≠ Pending) as Hp
    by (intros p; by apply ext_not_pending).
  pose proof (ext_calls _ _ E) as Hc. pose proof (ext_all _ _ E) as Ha.
  pose proof (ext_logged _ _ E) as Hl.
  destruct r, o; simpl; auto.
Qed.

Lemma wired_ext s s' r : ext s s' → wired s r → wired s' r.
Proof.
  intros E. unfold wired. destruct (pst s (source r)) as [|o] eqn:Hp.
  - intros Hr. pose proof (ext_rx _ _ E _ _ Hp Hr) as H.
    destruct (pst s' (source r)); auto.
  - rewrite (ext_pst _ _ E _ _ Hp). intros [H|H].
    + left. by apply (ext_queue _ _ E).
    + right. by apply (fired_ext s).
Qed.

Lemma register_wired r s : wired (register (source r) r s) r.
Proof.
  unfold wired, register. destruct (pst s (source r)) as [|o] eqn:Hp; simpl; rewrite Hp.
  - unfold insert, fn_insert. case_decide; [|done]. apply elem_of_app. right.
    by apply list_elem_of_singleton.
  - left. apply elem_of_app. right. by apply list_elem_of_singleton.
Qed.

Lemma settle_not_pending p o s : pst (settle p o s) p ≠ Pending.
Proof.
  unfold settle. destruct (pst s p) eqn:Hp; simpl.
  - unfold insert, fn_insert. by case_decide.
  - by rewrite Hp.
Qed.

(** What the primitives leave alone. *)
Lemma calls_settle p o s : calls (settle p o s) = calls s.
Proof. unfold settle. by destruct (pst s p). Qed.
Lemma calls_register p r s : calls (register p r s) = calls s.
Proof. unfold register. by destruct (pst s p). Qed.
Lemma calls_all_resolve_element f l v s : calls (all_resolve_element f l v s) = calls s.
Proof.
  unfold all_resolve_element.
  repeat case_match; by rewrite ?calls_settle.
Qed.
Lemma all_values_settle p o s : all_values (settle p o s) = all_values s.
Proof. unfold settle. by destruct (pst s p). Qed.
Lemma all_values_register p r s : all_values (register p r s) = all_values s.
Proof. unfold register. by destruct (pst s p). Qed.
Lemma index_settle p o s : docMetaComparisonIndex (settle p o s) = docMetaComparisonIndex s.
Proof. unfold settle. by destruct (pst s p). Qed.
Lemma index_register p r s :
  docMetaComparisonIndex (register p r s) = docMetaComparisonIndex s.
Proof. unfold register. by destruct (pst s p). Qed.
Lemma index_all_resolve_element f l v s :
  docMetaComparisonIndex (all_resolve_element f l v s) = docMetaComparisonIndex s.
Proof.
  unfold all_resolve_element.
  repeat case_match; by rewrite ?index_settle.
Qed.
Lemma pst_register p r s : pst (register p r s) = pst s.
Proof. unfold register. by destruct (pst s p). Qed.
Lemma pst_settle_ne p o s q : q ≠ p → pst (settle p o s) q = pst s q.
Proof.
  intros Hne. unfold settle. destruct (pst s p); [|done]. simpl.
  unfold insert, fn_insert. by case_decide.
Qed.
Lemma pst_all_resolve_element_ne f l v s q :
  q ≠ batch f → pst (all_resolve_element f l v s) q = pst s q.
Proof.
  intros Hne. unfold all_resolve_element.
  repeat case_match; by rewrite ?pst_settle_ne.
Qed.

(** ** Every microtask and every store event keeps the invariant *)

Section Steps.

Variable c : DatastoreConsistency.
Variable op : operation.
Variable rmv : string → gmap string nat → gmap string nat + value.
Variable upd : DocInfo → gmap string nat → gmap string nat + value.

Lemma react_ext r o s : ext s (react op rmv upd r o s).
Proof.
  destruct r, o; simpl; unfold on_then, on_catch, reject, resolve, latch_resolve,
    latch_reject, localSync, catch_, await;
    repeat first
      [ apply settle_ext | apply register_ext | apply call_store_ext
      | apply log_error_ext | apply all_resolve_element_ext
      | match goal with |- ext _ ((_ >> _) _) => apply seq_ext; intros end ].
  - destruct (index_call _ _ _ _) as [i|err].
    + eapply ext_trans; [apply (set_index_ext (λ _, i))|apply settle_ext].
    + apply settle_ext.
  - destruct op; apply settle_ext.
  - destruct op; apply settle_ext.
Qed.

Lemma react_PInv r o s :
  PInv c s → pst s (source r) = Settled o → allowed c r →
  PInv c (react op rmv upd r o s).
Proof.
  intros I J A.
  destruct r, o; simpl in *; unfold on_then, on_catch, reject, resolve,
    latch_resolve, latch_reject, localSync, catch_, await, seq.
  all: try (apply settle_PInv; [done|]; intros _; simpl; by eauto).
  - (* R_sync_catch, rejected *)
    pose proof (settle_ext exec (Rejected err) s) as E.
    apply settle_PInv; [|done]. apply settle_PInv; [done|]. intros _. simpl. eauto.
  - (* R_gate_then, fulfilled *)
    apply settle_PInv; [|intros _; simpl].
    + apply register_PInv; [|done..]. apply register_PInv; [|done..].
      apply call_store_PInv; [done|]. eauto.
    + exists v. apply (ext_pst s); [|done].
      eapply ext_trans; [apply call_store_ext|].
      eapply ext_trans; apply register_ext.
  - (* R_gate_catch, rejected *)
    apply settle_PInv; [|done]. apply settle_PInv; [done|]. intros _. simpl. eauto.
  - (* R_all_elem, fulfilled *)
    by apply all_resolve_element_PInv.
  - (* R_batch_then, fulfilled *)
    apply settle_PInv; [|intros _; simpl].
    + apply settle_PInv; [done|]. intros _. simpl. eauto.
    + exists v. apply (ext_pst s); [apply settle_ext|done].
  - (* R_batch_catch, rejected *)
    apply settle_PInv; [|done]. apply settle_PInv; [done|]. intros _. simpl. eauto.
  - (* R_done_then, fulfilled *)
    apply settle_PInv; [|done]. apply settle_PInv; [done|]. intros _. simpl. eauto.
  - (* R_done_catch, rejected *)
    apply settle_PInv; [|done]. apply settle_PInv; [done|]. intros _. simpl. eauto.
  - (* R_index_then, fulfilled *)
    destruct (index_call _ _ _ _) as [i|err].
    + apply settle_PInv; [by apply set_index_PInv|]. intros _. simpl. eauto.
    + apply settle_PInv; [done|]. intros _. simpl. eauto.
  - (* R_index_catch, rejected *)
    apply settle_PInv; [|done]. by apply log_error_PInv.
  - (* R_op_return, fulfilled *)
    destruct op; apply settle_PInv; try done; intros _; simpl; eauto.
  - (* R_op_return, rejected *)
    destruct op; apply settle_PInv; try done; intros _; simpl; eauto.
Qed.

Lemma react_fired r o s : fired (react op rmv upd r o s) r o.
Proof.
  destruct r, o; simpl; unfold on_then, on_catch, reject, resolve, latch_resolve,
    latch_reject, localSync, catch_, await, seq; try done;
    try apply settle_not_pending.
  - eapply ext_not_pending; [apply settle_ext|apply settle_not_pending].
  - apply (ext_calls (call_store local s)).
    + eapply ext_trans; [apply register_ext|].
      eapply ext_trans; [apply register_ext|apply settle_ext].
    + simpl. apply elem_of_app. right. by apply list_elem_of_singleton.
  - eapply ext_not_pending; [apply settle_ext|apply settle_not_pending].
  - unfold all_resolve_element.
    set (s' := set_all_values _ s).
    assert (is_Some (all_values s' f l)) as H.
    { simpl. unfold insert, fn_insert. do 2 (case_decide; [|done]). by eexists. }
    repeat case_match; by rewrite ?all_values_settle.
  - eapply ext_not_pending; [apply settle_ext|apply settle_not_pending].
  - eapply ext_not_pending; [apply settle_ext|apply settle_not_pending].
  - eapply ext_not_pending; [apply settle_ext|apply settle_not_pending].
  - eapply ext_not_pending; [apply settle_ext|apply settle_not_pending].
  - case_match; apply settle_not_pending.
  - apply (ext_logged (log_error "Could not handle delete: " err s)); [apply settle_ext|].
    simpl. apply elem_of_app. right. by apply list_elem_of_singleton.
  - destruct op; apply settle_not_pending.
  - destruct op; apply settle_not_pending.
Qed.

Lemma calls_react r o s :
  (∀ v, (r, o) ≠ (R_gate_then, Fulfilled v)) →
  calls (react op rmv upd r o s) = calls s.
Proof.
  intros H.
  destruct r, o; simpl; unfold on_then, on_catch, reject, resolve, latch_resolve,
    latch_reject, catch_, await, seq, log_error;
    rewrite ?calls_settle, ?calls_all_resolve_element; try done.
  - by destruct (H v).
  - case_match; by rewrite calls_settle.
  - destruct op; by rewrite calls_settle.
  - destruct op; by rewrite calls_settle.
Qed.

Lemma all_values_react r o s :
  (∀ f l v, (r, o) ≠ (R_all_elem f l, Fulfilled v)) →
  all_values (react op rmv upd r o s) = all_values s.
Proof.
  intros H.
  destruct r, o; simpl; unfold on_then, on_catch, reject, resolve, latch_resolve,
    latch_reject, localSync, catch_, await, seq, log_error;
    rewrite ?all_values_settle, ?all_values_register; try done.
  - by destruct (H f l v).
  - case_match; by rewrite all_values_settle.
  - destruct op; by rewrite all_values_settle.
  - destruct op; by rewrite all_values_settle.
Qed.

Lemma batch_inv_ext s s' :
  ext s s' → all_values s' = all_values s → batch_inv s → batch_inv s'.
Proof.
  intros E Ha B f H0 H1. rewrite Ha in H0, H1.
  apply (ext_not_pending _ _ _ E). by apply B.
Qed.

Lemma all_resolve_element_batch_inv f l v s :
  batch_inv s → batch_inv (all_resolve_element f l v s).
Proof.
  intros B. unfold all_resolve_element.
  set (s' := set_all_values _ s).
  assert (∀ f', f' ≠ f → is_Some (all_values s' f' remote) →
            is_Some (all_values s' f' local) → pst s' (batch f') ≠ Pending) as Hne.
  { intros f' Hf. simpl. unfold insert, fn_insert. case_decide; [done|apply B]. }
  destruct (all_values s' f remote) as [v0|] eqn:H0; cycle 1.
  { intros f' Hr Hl. destruct (decide (f' = f)) as [->|]; [|by apply Hne].
    rewrite H0 in Hr. by destruct Hr. }
  destruct (all_values s' f local) as [v1|] eqn:H1; cycle 1.
  { intros f' Hr Hl. destruct (decide (f' = f)) as [->|]; [|by apply Hne].
    rewrite H1 in Hl. by destruct Hl. }
  intros f' Hr Hl. rewrite all_values_settle in Hr, Hl.
  destruct (decide (f' = f)) as [->|]; [apply settle_not_pending|].
  eapply ext_not_pending; [apply settle_ext|]. by apply Hne.
Qed.

Lemma all_elem_cases r o :
  (∃ f l v, r = R_all_elem f l ∧ o = Fulfilled v) ∨
  (∀ f l v, (r, o) ≠ (R_all_elem f l, Fulfilled v)).
Proof. destruct r, o; try (by right); left; eauto. Qed.

Lemma gate_then_cases r o :
  (∃ v, r = R_gate_then ∧ o = Fulfilled v) ∨ (∀ v, (r, o) ≠ (R_gate_then, Fulfilled v)).
Proof. destruct r, o; try (by right); left; eauto. Qed.

Lemma react_batch_inv r o s : batch_inv s → batch_inv (react op rmv upd r o s).
Proof.
  intros B. destruct (all_elem_cases r o) as [(f & l & v & -> & ->)|Hne].
  - simpl. by apply all_resolve_element_batch_inv.
  - apply (batch_inv_ext s); [apply react_ext| |done]. by apply all_values_react.
Qed.

Lemma step_Inv s a : Inv c s → Inv c (step op rmv upd s a).
Proof.
  intros (I & B & F). destruct a as [|e]; simpl.
  - (* the next microtask *)
    destruct (queue s) as [|[r0 o0] q] eqn:Hq; [done|].
    set (s0 := set_queue (λ _, q) s).
    destruct (inv_queue _ _ I r0 o0) as [J A]; [rewrite Hq; by left|].
    assert (PInv c s0) as I0.
    { apply pop_PInv; [|done]. intros j Hj. rewrite Hq. by right. }
    pose proof (react_ext r0 o0 s0) as E.
    split; [by apply react_PInv|]. split; [by apply react_batch_inv|].
    intros r Hr.
    assert (wired s r → wired (react op rmv upd r0 o0 s0) r) as Hw.
    { unfold wired at 1. destruct (pst s (source r)) as [|o] eqn:Hp.
      - intros H. apply (wired_ext s0); [done|]. unfold wired. simpl. by rewrite Hp.
      - rewrite Hq. intros [[H|H]%elem_of_cons|H].
        + injection H as -> ->. unfold wired.
          rewrite (ext_pst _ _ E (source r0) o0 J). right. apply react_fired.
        + apply (wired_ext s0); [done|]. unfold wired. simpl. rewrite Hp. by left.
        + apply (wired_ext s0); [done|]. unfold wired. simpl. rewrite Hp. right.
          revert H. by destruct r, o. }
    destruct (gate_then_cases r0 o0) as [(v & -> & ->)|Hne].
    + (* localSync is started *)
      destruct (decide (r = R_sync_await local)) as [->|H1].
      { simpl. unfold on_then, localSync, catch_, await, seq.
        eapply wired_ext; [|apply (register_wired (R_sync_await local))].
        eapply ext_trans; [apply register_ext|apply settle_ext]. }
      destruct (decide (r = R_sync_catch local)) as [->|H2].
      { simpl. unfold on_then, localSync, catch_, await, seq.
        eapply wired_ext; [|apply (register_wired (R_sync_catch local))].
        apply settle_ext. }
      apply Hw, F. revert Hr. destruct r as [[]|[]| | |[] ?|[]|[]| | | | | |]; done.
    + apply Hw, F. revert Hr. unfold registered. by rewrite calls_react.
  - (* a store acts *)
    assert (ext s (happen e s)) as E.
    { destruct e; simpl; case_decide; auto using ext_refl, settle_ext. }
    assert (calls (happen e s) = calls s) as Hc.
    { destruct e; simpl; case_decide; by rewrite ?calls_settle. }
    split; [|split].
    + destruct e as [l o|l f o]; simpl; case_decide; try done.
      * apply settle_PInv; [done|]. intros _. by destruct l.
      * apply settle_PInv; [done|]. intros _. by destruct l.
    + apply (batch_inv_ext s); [done| |done].
      destruct e; simpl; case_decide; by rewrite ?all_values_settle.
    + intros r Hr. apply (wired_ext s); [done|]. apply F.
      revert Hr. unfold registered. by rewrite Hc.
Qed.

Lemma run_Inv s sched : Inv c s → Inv c (run op rmv upd s sched).
Proof.
  revert s. induction sched as [|a sched IH]; intros s I; [done|].
  simpl. by apply IH, step_Inv.
Qed.

Lemma init_Inv i : Inv c (init c op i).
Proof.
  split; [|split].
  - unfold init, write, delete_, executeBatchedWrite, batched, batchPromises,
      promise_all, remoteSync, then_, catch_, await, return_promise, latch_get, seq.
    assert (PInv c (empty i)) as I0.
    { split; simpl; try done; intros; by apply elem_of_nil in H. }
    destruct c, op; simpl;
      repeat first [apply register_PInv; [|done..] | apply call_store_PInv; [|done]];
      done.
  - intros f. destruct c, op, f; vm_compute; by intros [? [=]].
  - intros r. destruct c, op; destruct r as [[]|[]| | |[] []|[]|[]| | | | | |];
      vm_compute; try done; intros H;
      first [by repeat constructor|exfalso; inversion H as [|??? H']; inversion H'].
Qed.

Lemma reachable_Inv i sched : Inv c (run op rmv upd (init c op i) sched).
Proof. apply run_Inv, init_Inv. Qed.

End Steps.

(** ** The microtask queue always drains *)

Lemma pids_all p : p ∈ pids.
Proof.
  unfold pids. destruct p as [m f|l|l|l| | |f|f|f| | | | | | |];
    try destruct m; try destruct f; try destruct l; set_solver.
Qed.

Lemma pids_NoDup : NoDup pids.
Proof. apply (bool_decide_unpack _). by vm_compute. Qed.

Lemma sum_insert_notin (g : pid → list reaction) p x (l : list pid) :
  p ∉ l →
  sum_list_with (λ q, sum_list_with weight (<[p := x]> g q)) l =
  sum_list_with (λ q, sum_list_with weight (g q)) l.
Proof.
  induction l as [|a l IH]; [done|]. intros [Ha Hl]%not_elem_of_cons. simpl.
  rewrite IH by done. by rewrite fn_lookup_insert_ne.
Qed.

Lemma sum_insert (g : pid → list reaction) p x (l : list pid) :
  NoDup l → p ∈ l →
  sum_list_with (λ q, sum_list_with weight (<[p := x]> g q)) l + sum_list_with weight (g p) =
  sum_list_with (λ q, sum_list_with weight (g q)) l + sum_list_with weight x.
Proof.
  induction l as [|a l IH]; [by intros _ ?%elem_of_nil|].
  intros [Ha Hl]%list.NoDup_cons [->|Hp]%elem_of_cons; simpl.
  - rewrite sum_insert_notin by done. rewrite fn_lookup_insert. lia.
  - specialize (IH Hl Hp). destruct (decide (p = a)) as [->|Hne]; [done|].
    rewrite fn_lookup_insert_ne by done. lia.
Qed.

Lemma weight_jobs (o : outcome) (l : list reaction) :
  sum_list_with (λ j, weight j.1) ((λ r, (r, o)) <$> l) = sum_list_with weight l.
Proof. induction l as [|r l IH]; [done|]. simpl. f_equal. exact IH. Qed.

Lemma measure_settle p o s : measure (settle p o s) = measure s.
Proof.
  unfold settle. destruct (pst s p); [|done]. unfold measure. simpl.
  rewrite sum_list_with_app, weight_jobs.
  pose proof (sum_insert (rx s) p [] pids pids_NoDup (pids_all p)) as H. simpl in H.
  lia.
Qed.

Lemma measure_register p r s : measure (register p r s) = measure s + weight r.
Proof.
  unfold register. destruct (pst s p); unfold measure; simpl.
  - pose proof (sum_insert (rx s) p (rx s p ++ [r]) pids pids_NoDup (pids_all p)) as H.
    rewrite sum_list_with_app in H. simpl in H. lia.
  - rewrite sum_list_with_app. simpl. lia.
Qed.

Lemma measure_all_resolve_element f l v s :
  measure (all_resolve_element f l v s) = measure s.
Proof.
  unfold all_resolve_element. repeat case_match; by rewrite ?measure_settle.
Qed.

Section Drain.

Variable op : operation.
Variable rmv : string → gmap string nat → gmap string nat + value.
Variable upd : DocInfo → gmap string nat → gmap string nat + value.

Lemma measure_react r o s : measure (react op rmv upd r o s) + 1 ≤ measure s + weight r.
Proof.
  destruct r, o; simpl; unfold on_then, on_catch, reject, resolve, latch_resolve,
    latch_reject, localSync, catch_, await, seq, log_error;
    rewrite ?measure_settle, ?measure_register, ?measure_all_resolve_element;
    try (simpl; unfold measure; simpl; lia).
  - case_match; rewrite measure_settle; unfold measure; simpl; lia.
  - destruct op; rewrite measure_settle; lia.
  - destruct op; rewrite measure_settle; lia.
Qed.

Lemma measure_tick s : queue s ≠ [] → measure (step op rmv upd s tick) < measure s.
Proof.
  simpl. destruct (queue s) as [|[r o] q] eqn:Hq; [done|]. intros _.
  pose proof (measure_react r o (set_queue (λ _, q) s)) as H.
  unfold measure in *. rewrite Hq. simpl in *. lia.
Qed.

Lemma run_quiescent s n : queue s = [] → run op rmv upd s (replicate n tick) = s.
Proof.
  intros Hq. induction n as [|n IH]; [done|]. simpl. by rewrite Hq.
Qed.

Lemma drain_fuel n s : measure s ≤ n → queue (run op rmv upd s (replicate n tick)) = [].
Proof.
  revert s. induction n as [|n IH]; intros s Hm.
  - simpl. destruct (queue s) as [|[r o] q] eqn:Hq; [done|].
    unfold measure in Hm. rewrite Hq in Hm. simpl in Hm. destruct r; simpl in Hm; lia.
  - destruct (queue s) as [|j q] eqn:Hq.
    + by rewrite run_quiescent.
    + change (replicate (S n) tick) with (tick :: replicate n tick).
      change (run op rmv upd s (tick :: replicate n tick))
        with (run op rmv upd (step op rmv upd s tick) (replicate n tick)).
      apply IH. assert (queue s ≠ []) as Hne by (by rewrite Hq).
      pose proof (measure_tick s Hne). lia.
Qed.

Lemma drain_quiescent s : quiescent (drain op rmv upd s).
Proof. by apply drain_fuel. Qed.

End Drain.

(** ** Runs *)

Section Runs.

Variable c : DatastoreConsistency.
Variable op : operation.
Variable rmv : string → gmap string nat → gmap string nat + value.
Variable upd : DocInfo → gmap string nat → gmap string nat + value.

Lemma run_app s sched1 sched2 :
  run op rmv upd s (sched1 ++ sched2) = run op rmv upd (run op rmv upd s sched1) sched2.
Proof. apply foldl_app. Qed.

Lemma run_snoc s sched a :
  run op rmv upd s (sched ++ [a]) = step op rmv upd (run op rmv upd s sched) a.
Proof. by rewrite run_app. Qed.

Lemma drain_Inv i sched : Inv c (drain op rmv upd (run op rmv upd (init c op i) sched)).
Proof. unfold drain. rewrite <- run_app. apply reachable_Inv. Qed.

(** A settled promise stays settled, a call stays made. *)
Lemma step_pst s a p o : pst s p = Settled o → pst (step op rmv upd s a) p = Settled o.
Proof.
  intros H. destruct a as [|e]; simpl.
  - destruct (queue s) as [|[r0 o0] q]; [done|].
    by apply (ext_pst _ _ (react_ext op rmv upd r0 o0 _)).
  - destruct e; simpl; case_decide; try done; by apply (ext_pst _ _ (settle_ext _ _ s)).
Qed.

Lemma run_pst s sched p o : pst s p = Settled o → pst (run op rmv upd s sched) p = Settled o.
Proof.
  revert s. induction sched as [|a sched IH]; intros s H; [done|].
  simpl. by apply IH, step_pst.
Qed.

Lemma react_store_owned r o s p :
  store_owned p → pst (react op rmv upd r o s) p = pst s p.
Proof.
  intros Hp.
  destruct r, o; simpl; unfold on_then, on_catch, reject, resolve, latch_resolve,
    latch_reject, localSync, catch_, await, seq, log_error; try case_match;
    try destruct op;
    rewrite ?pst_settle_ne, ?pst_register, ?pst_all_resolve_element_ne; try done;
    by destruct p as [[]| | | | | | | | | | | | | | |].
Qed.

Lemma ticks_store_owned s n p :
  store_owned p → pst (run op rmv upd s (replicate n tick)) p = pst s p.
Proof.
  intros Hp. revert s. induction n as [|n IH]; intros s; [done|].
  simpl. rewrite IH. destruct (queue s) as [|[r o] q]; [done|].
  by rewrite react_store_owned.
Qed.

(** In a quiescent state every installed reaction on a settled promise has
    run. *)
Lemma quiescent_fired s r o :
  Inv c s → quiescent s → registered c s r → pst s (source r) = Settled o →
  fired s r o.
Proof.
  intros (_ & _ & F) Q Hr Hp. specialize (F r Hr). unfold wired in F.
  rewrite Hp, Q in F. destruct F as [F|F]; [by apply elem_of_nil in F|done].
Qed.

End Runs.

(** ** What a quiescent state has propagated *)

Section Quiescent.

Variable c : DatastoreConsistency.
Variable s : state.
Hypothesis HI : Inv c s.
Hypothesis HQ : quiescent s.

Lemma settled_cases p : pst s p ≠ Pending → ∃ o, pst s p = Settled o.
Proof. destruct (pst s p) as [|o]; [done|]. by exists o. Qed.

Lemma batch_fulfilled f v0 v1 :
  f = written ∨ c = committed →
  pst s (latch remoteCoordinator f) = Settled (Fulfilled v0) →
  pst s (latch localCoordinator f) = Settled (Fulfilled v1) →
  pst s (batch f) = Settled (Fulfilled (VArray [v0; v1])).
Proof.
  intros Hf H0 H1. destruct HI as (I & B & F).
  assert (registered c s (R_all_elem f remote) ∧ registered c s (R_all_elem f local))
    as [R0 R1] by (destruct f, Hf; simpl; repeat split; done).
  pose proof (quiescent_fired c s _ _ HI HQ R0 H0) as F0.
  pose proof (quiescent_fired c s _ _ HI HQ R1 H1) as F1.
  destruct (settled_cases (batch f) (B f F0 F1)) as [[x|err] Hb];
    pose proof (inv_pst _ _ I _ _ Hb) as J; simpl in J.
  - destruct J as (w0 & w1 & -> & J0 & J1). congruence.
  - destruct J as [[] J]; simpl in J; congruence.
Qed.

Lemma target_fulfilled f v0 v1 :
  f = written ∨ c = committed →
  pst s (latch remoteCoordinator f) = Settled (Fulfilled v0) →
  pst s (latch localCoordinator f) = Settled (Fulfilled v1) →
  pst s (latch datastoreMutation f) = Settled (Fulfilled v0).
Proof.
  intros Hf H0 H1. pose proof (batch_fulfilled f v0 v1 Hf H0 H1) as Hb.
  destruct HI as (I & B & F).
  assert (registered c s (R_batch_then f)) as R
    by (destruct f, Hf; simpl; repeat split; done).
  pose proof (quiescent_fired c s _ _ HI HQ R Hb) as Ft. simpl in Ft.
  destruct (settled_cases _ Ft) as [[v|err] Ht];
    pose proof (inv_pst _ _ I _ _ Ht) as J; simpl in J.
  - destruct J as (x & Hx & ->). rewrite Hb in Hx. by injection Hx as <-.
  - pose proof (inv_pst _ _ I _ _ J) as J'. simpl in J'. congruence.
Qed.

Lemma target_rejected f l err :
  f = written ∨ c = committed →
  pst s (latch (coordinator l) f) = Settled (Rejected err) →
  ∃ err', pst s (latch datastoreMutation f) = Settled (Rejected err').
Proof.
  intros Hf Hl. destruct HI as (I & B & F).
  assert (registered c s (R_all_elem f l) ∧ registered c s (R_batch_then f) ∧
          registered c s (R_batch_catch f)) as (R0 & R1 & R2)
    by (destruct f, l, Hf; simpl; repeat split; done).
  pose proof (quiescent_fired c s _ _ HI HQ R0 Hl) as F0. simpl in F0.
  destruct (settled_cases _ F0) as [[x|e1] Hb];
    pose proof (inv_pst _ _ I _ _ Hb) as J; simpl in J.
  { destruct J as (w0 & w1 & -> & J0 & J1). destruct l; simpl in Hl; congruence. }
  pose proof (quiescent_fired c s _ _ HI HQ R1 Hb) as F1. simpl in F1.
  destruct (settled_cases _ F1) as [[x|e2] Hbt];
    pose proof (inv_pst _ _ I _ _ Hbt) as J'; simpl in J'.
  { destruct J' as [x' J']. congruence. }
  pose proof (quiescent_fired c s _ _ HI HQ R2 Hbt) as F2. simpl in F2.
  destruct (settled_cases _ F2) as [[x|e3] Ht];
    pose proof (inv_pst _ _ I _ _ Ht) as J''; simpl in J''.
  { destruct J'' as (x' & J'' & _). congruence. }
  by exists e3.
Qed.

(** A failed leg reaches [reject]: the promise of [executeBatchedWrite] is
    settled. *)
Lemma leg_failure_settles_exec err :
  pst s (store_op remote) = Settled (Rejected err) ∨
  pst s (latch remoteCoordinator written) = Settled (Rejected err) →
  pst s exec ≠ Pending.
Proof.
  destruct HI as (I & B & F). intros [H|H].
  - pose proof (quiescent_fired c s (R_sync_await remote) _ HI HQ Logic.I H) as F0.
    simpl in F0. destruct (settled_cases _ F0) as [[x|e1] Hs];
      pose proof (inv_pst _ _ I _ _ Hs) as J; simpl in J.
    { destruct J as (_ & x' & J). congruence. }
    apply (quiescent_fired c s (R_sync_catch remote) _ HI HQ Logic.I Hs).
  - pose proof (quiescent_fired c s R_gate_then _ HI HQ Logic.I H) as F0.
    simpl in F0. destruct (settled_cases _ F0) as [[x|e1] Hs];
      pose proof (inv_pst _ _ I _ _ Hs) as J; simpl in J.
    { destruct J as (x' & J). congruence. }
    apply (quiescent_fired c s R_gate_catch _ HI HQ Logic.I Hs).
Qed.

(** A rejection of [executeBatchedWrite]'s promise rejects the operation. *)
Lemma exec_rejected_op_rejected err :
  pst s exec = Settled (Rejected err) → pst s op_result = Settled (Rejected err).
Proof.
  intros He. destruct HI as (I & B & F).
  pose proof (quiescent_fired c s R_exec_adopt _ HI HQ Logic.I He) as F0. simpl in F0.
  destruct (settled_cases _ F0) as [oa Ha].
  pose proof (inv_pst _ _ I _ _ Ha) as J; simpl in J. rewrite He in J.
  injection J as <-.
  pose proof (quiescent_fired c s R_op_return _ HI HQ Logic.I Ha) as F1. simpl in F1.
  destruct (settled_cases _ F1) as [[x|e1] Ho];
    pose proof (inv_pst _ _ I _ _ Ho) as J; simpl in J.
  - destruct J as [x' J]. congruence.
  - congruence.
Qed.

(** A fulfilled [executeBatchedWrite] promise means the local store was
    called, under the 'committed' consistency. *)
Lemma exec_fulfilled_local_called v :
  pst s exec = Settled (Fulfilled v) → c = committed ∧ local ∈ calls s.
Proof.
  intros He. destruct HI as (I & B & F).
  pose proof (inv_pst _ _ I _ _ He) as (Hc & w & Ht). split; [done|].
  pose proof (inv_pst _ _ I _ _ Ht) as (x & Hb & _).
  pose proof (inv_pst _ _ I _ _ Hb) as (w0 & w1 & _ & _ & H1).
  exact (inv_pst _ _ I _ _ H1).
Qed.

(** Whatever rejects the operation is the failure of a store's leg: the
    store's promise or one of the latches it was handed. *)
Lemma op_rejected_by_leg err :
  pst s op_result = Settled (Rejected err) →
  ∃ l, pst s (store_op l) = Settled (Rejected err) ∨
       ∃ f, pst s (latch (coordinator l) f) = Settled (Rejected err).
Proof.
  intros Ho. destruct HI as (I & B & F).
  pose proof (inv_pst _ _ I _ _ Ho) as Ha. simpl in Ha.
  pose proof (inv_pst _ _ I _ _ Ha) as He. simpl in He.
  pose proof (inv_pst _ _ I _ _ He) as [[l Hs]|[Hg|Hd]]; simpl in *.
  - exists l. left. exact (inv_pst _ _ I _ _ Hs).
  - exists remote. right. exists written. exact (inv_pst _ _ I _ _ Hg).
  - pose proof (inv_pst _ _ I _ _ Hd) as Ht. simpl in Ht.
    pose proof (inv_pst _ _ I _ _ Ht) as Hbt. simpl in Hbt.
    pose proof (inv_pst _ _ I _ _ Hbt) as Hb. simpl in Hb.
    pose proof (inv_pst _ _ I _ _ Hb) as [l Hl]. simpl in Hl.
    exists l. right. by exists committed.
Qed.

End Quiescent.

(** ** The claims about executeBatchedWrite, write and delete *)

Section Claims.

Variable c : DatastoreConsistency.
Variable op : operation.
Variable rmv : string → gmap string nat → gmap string nat + value.
Variable upd : DocInfo → gmap string nat → gmap string nat + value.
Variable i : gmap string nat.

Lemma calls_init : calls (init c op i) = [remote].
Proof. unfold init. by destruct c, op. Qed.

Lemma calls_happen e s : calls (happen e s) = calls s.
Proof. destruct e; simpl; case_decide; by rewrite ?calls_settle. Qed.

(** The step that calls the local store is the microtask of the written
    gate, run on a fulfilment. *)
Lemma local_call_step s a :
  Inv c s → local ∉ calls s → local ∈ calls (step op rmv upd s a) →
  ∃ v, pst s (latch remoteCoordinator written) = Settled (Fulfilled v).
Proof.
  intros (I & _ & _) Hn Hc. destruct a as [|e]; simpl in Hc.
  - destruct (queue s) as [|[r o] q] eqn:Hq; [done|].
    destruct (gate_then_cases r o) as [(v & -> & ->)|Hne].
    + exists v. apply (inv_queue _ _ I R_gate_then). rewrite Hq. by left.
    + by rewrite calls_react in Hc.
  - by rewrite calls_happen in Hc.
Qed.

Lemma local_call_has_cause sched :
  local ∈ calls (run op rmv upd (init c op i) sched) →
  ∃ n v, n < length sched ∧
         pst (run op rmv upd (init c op i) (take n sched))
           (latch remoteCoordinator written) = Settled (Fulfilled v) ∧
         local ∉ calls (run op rmv upd (init c op i) (take n sched)).
Proof.
  induction sched as [|a sched IH] using rev_ind.
  - simpl. rewrite calls_init. intros H. inversion H as [|??? H']; inversion H'.
  - rewrite run_snoc, length_app. simpl. intros H.
    destruct (decide (local ∈ calls (run op rmv upd (init c op i) sched))) as [Hc|Hc].
    + destruct (IH Hc) as (n & v & Hn & H1 & H2). exists n, v.
      rewrite take_app_le by lia. split; [lia|done].
    + destruct (local_call_step _ a (reachable_Inv c op rmv upd i sched) Hc H) as [v Hv].
      exists (length sched), v. rewrite take_app_length. split; [lia|done].
Qed.

End Claims.

(** *** The comparison index under [delete] *)

Section Index.

Variable c : DatastoreConsistency.
Variable fp : string.
Variable rmv : string → gmap string nat → gmap string nat + value.
Variable upd : DocInfo → gmap string nat → gmap string nat + value.

Hypothesis remove_spec :
  ∀ j j', rmv fp j = inl j' → j' = DocMetaComparisonIndex_remove fp j.

Lemma react_index_frame r o s :
  r ≠ R_index_then →
  pst (react (op_delete fp) rmv upd r o s) index_then = pst s index_then ∧
  docMetaComparisonIndex (react (op_delete fp) rmv upd r o s) = docMetaComparisonIndex s.
Proof.
  intros Hr.
  destruct r, o; try done; simpl; unfold on_then, on_catch, reject, resolve,
    latch_resolve, latch_reject, localSync, catch_, await, seq, log_error;
    rewrite ?pst_settle_ne, ?pst_register, ?pst_all_resolve_element_ne,
      ?index_settle, ?index_register, ?index_all_resolve_element; done.
Qed.

Lemma step_IInv s a :
  PInv c s → IInv fp rmv s → IInv fp rmv (step (op_delete fp) rmv upd s a).
Proof.
  intros I H. destruct a as [|e]; simpl.
  - destruct (queue s) as [|[r o] q] eqn:Hq; [done|].
    set (s0 := set_queue (λ _, q) s).
    destruct (decide (r = R_index_then)) as [->|Hr].
    + assert (pst s (latch datastoreMutation written) = Settled o) as J.
      { apply (inv_queue _ _ I R_index_then). rewrite Hq. by left. }
      unfold IInv in *. simpl.
      destruct o as [v|err]; [destruct (rmv fp _) as [j'|err] eqn:Hj|];
        unfold settle; simpl; destruct (pst s index_then) as [|[u|e]] eqn:Hp;
        simpl; rewrite ?Hp; try done.
      * rewrite (remove_spec _ _ Hj). apply lookup_delete_eq.
      * rewrite (remove_spec _ _ Hj). apply lookup_delete_eq.
      * right. eauto.
      * by left.
    + destruct (react_index_frame r o s0 Hr) as [H1 H2].
      unfold IInv in *. rewrite H1, H2. simpl.
      destruct (pst s index_then) as [|[u|e]]; try done.
      destruct H as [H|H]; [left|by right].
      by apply (ext_pst _ _ (react_ext (op_delete fp) rmv upd r o s0)).
  - unfold IInv in *.
    assert (pst (happen e s) index_then = pst s index_then) as ->.
    { destruct e; simpl; case_decide; by rewrite ?pst_settle_ne. }
    assert (docMetaComparisonIndex (happen e s) = docMetaComparisonIndex s) as ->.
    { destruct e; simpl; case_decide; by rewrite ?index_settle. }
    destruct (pst s index_then) as [|[u|err]]; try done.
    destruct H as [H|H]; [left|by right].
    destruct e; simpl; case_decide; try done; by apply (ext_pst _ _ (settle_ext _ _ s)).
Qed.

Lemma reachable_IInv i sched :
  IInv fp rmv (run (op_delete fp) rmv upd (init c (op_delete fp) i) sched).
Proof.
  induction sched as [|a sched IH] using rev_ind.
  - unfold IInv. by destruct c.
  - rewrite run_snoc. apply step_IInv; [|done]. apply reachable_Inv.
Qed.

End Index.

(** *** The claims *)

(** C4.  In every execution of [executeBatchedWrite] the local operation is
    started only after the remote leg's written latch has resolved: when the
    local store has been called there is an earlier point of the execution at
    which the latch was resolved and the local store not yet called.  So if
    the latch is resolved at no point of the execution, the local store is
    never called. *)
Theorem localSync_only_after_remote_written c op rmv upd i :
  (∀ sched,
     local ∈ calls (execution c op rmv upd i sched) →
     ∃ n v, n < length sched ∧
       pst (execution c op rmv upd i (take n sched)) (latch remoteCoordinator written)
         = Settled (Fulfilled v) ∧
       local ∉ calls (execution c op rmv upd i (take n sched))) ∧
  (∀ sched,
     (∀ n v, pst (execution c op rmv upd i (take n sched))
               (latch remoteCoordinator written) ≠ Settled (Fulfilled v)) →
     local ∉ calls (execution c op rmv upd i sched)).
Proof.
  split.
  - apply local_call_has_cause.
  - intros sched Hnever Hc.
    destruct (local_call_has_cause c op rmv upd i sched Hc) as (n & v & _ & Hv & _).
    by apply (Hnever n v).
Qed.

(** C5.  The target's written latch resolves exactly when both legs' written
    latches have resolved: it is never resolved before both are, it is
    resolved once both are and the pending microtasks have run, and it is
    rejected once either leg's written latch is rejected. *)
Theorem batched_written_merge c op rmv upd i sched :
  let s := execution c op rmv upd i sched in
  (∀ v, pst s (latch datastoreMutation written) = Settled (Fulfilled v) →
     ∃ v0 v1, pst s (latch remoteCoordinator written) = Settled (Fulfilled v0) ∧
              pst s (latch localCoordinator written) = Settled (Fulfilled v1)) ∧
  (∀ v0 v1, pst s (latch remoteCoordinator written) = Settled (Fulfilled v0) →
            pst s (latch localCoordinator written) = Settled (Fulfilled v1) →
     ∃ v, pst (drain op rmv upd s) (latch datastoreMutation written)
            = Settled (Fulfilled v)) ∧
  (∀ l err, pst s (latch (coordinator l) written) = Settled (Rejected err) →
     ∃ err', pst (drain op rmv upd s) (latch datastoreMutation written)
               = Settled (Rejected err')).
Proof.
  intros s. split; [|split].
  - intros v Hv. destruct (reachable_Inv c op rmv upd i sched) as (I & _ & _).
    destruct (inv_pst _ _ I _ _ Hv) as (x & Hb & _).
    destruct (inv_pst _ _ I _ _ Hb) as (v0 & v1 & _ & H0 & H1). eauto.
  - intros v0 v1 H0 H1. exists v0.
    apply (target_fulfilled c _ (drain_Inv c op rmv upd i sched)
             (drain_quiescent op rmv upd s) written v0 v1); [by left|..];
      by apply run_pst.
  - intros l err Hl.
    apply (target_rejected c _ (drain_Inv c op rmv upd i sched)
             (drain_quiescent op rmv upd s) written l err); [by left|].
    by apply run_pst.
Qed.

(** C8.  When both legs' latches of a phase have resolved, the target's latch
    of that phase resolves with the remote leg's value, whatever the local
    leg's value is: for the written latch always, for the committed latch
    under the 'committed' consistency. *)
Theorem batched_resolves_with_remote_value c op rmv upd i sched f v0 v1 :
  let s := execution c op rmv upd i sched in
  f = written ∨ c = committed →
  pst s (latch remoteCoordinator f) = Settled (Fulfilled v0) →
  pst s (latch localCoordinator f) = Settled (Fulfilled v1) →
  pst (drain op rmv upd s) (latch datastoreMutation f) = Settled (Fulfilled v0).
Proof.
  intros s Hf H0 H1.
  apply (target_fulfilled c _ (drain_Inv c op rmv upd i sched)
           (drain_quiescent op rmv upd s) f v0 v1 Hf); by apply run_pst.
Qed.

(** Under the 'written' consistency nothing ever calls [resolve]: the promise
    of [executeBatchedWrite], and with it the promise of [write] / [delete],
    is never fulfilled. *)
Lemma written_never_fulfilled op rmv upd i sched v :
  let s := execution written op rmv upd i sched in
  pst s exec ≠ Settled (Fulfilled v) ∧ pst s op_result ≠ Settled (Fulfilled v).
Proof.
  intros s. destruct (reachable_Inv written op rmv upd i sched) as (I & _ & _).
  split.
  - intros H. by destruct (inv_pst _ _ I _ _ H) as [? _].
  - intros H. destruct (inv_pst _ _ I _ _ H) as [x Ha].
    pose proof (inv_pst _ _ I _ _ Ha) as He. simpl in He.
    by destruct (inv_pst _ _ I _ _ He) as [? _].
Qed.

(** C1, as the code has it.  Under the 'written' consistency, when the cloud
    store's write leg rejects (the promise of [this.cloud.write(...)], or the
    written latch of the remote coordinator), the promise returned by [write]
    is rejected once the pending microtasks have run, with the error of a
    failed leg: the failure reaches the caller. *)
Theorem write_rejects_when_cloud_write_rejects docInfo rmv upd i sched err :
  let s := execution written (op_write docInfo) rmv upd i sched in
  pst s (store_op remote) = Settled (Rejected err) ∨
  pst s (latch remoteCoordinator written) = Settled (Rejected err) →
  ∃ err', pst (drain (op_write docInfo) rmv upd s) op_result = Settled (Rejected err') ∧
    ∃ l, pst (drain (op_write docInfo) rmv upd s) (store_op l) = Settled (Rejected err') ∨
         ∃ f, pst (drain (op_write docInfo) rmv upd s) (latch (coordinator l) f)
                = Settled (Rejected err').
Proof.
  intros s H.
  pose proof (drain_Inv written (op_write docInfo) rmv upd i sched) as HI.
  pose proof (drain_quiescent (op_write docInfo) rmv upd s) as HQ.
  fold s in HI. set (s' := drain _ _ _ s) in *.
  assert (pst s' exec ≠ Pending) as He.
  { apply (leg_failure_settles_exec written s' HI HQ err).
    destruct H as [H|H]; [left|right]; by apply run_pst. }
  destruct (settled_cases _ _ He) as [[v|err'] Hx].
  - destruct HI as (I & _ & _). by destruct (inv_pst _ _ I _ _ Hx) as [? _].
  - exists err'. pose proof (exec_rejected_op_rejected written s' HI HQ err' Hx) as Ho.
    split; [done|]. by apply (op_rejected_by_leg written s' HI).
Qed.

(** C2, as the code has it.  When the cloud store's delete leg has rejected
    (the promise of [this.cloud.delete(...)], or the written latch of the
    remote coordinator) and its written latch has not resolved, then, once the
    pending microtasks have run, the local store's delete has not been
    started and the promise returned by [delete] is rejected with the error
    of the cloud leg, its promise's or one of its latches', and stays so
    whatever happens afterwards.  The gate on the written latch stays
    installed: afterwards the local delete is started only if the cloud store
    still resolves its written latch, and never when it is that latch that
    was rejected. *)
Theorem delete_rejects_with_the_cloud_error c fp rmv upd i sched err :
  let s := execution c (op_delete fp) rmv upd i sched in
  let s' := drain (op_delete fp) rmv upd s in
  pst s (store_op remote) = Settled (Rejected err) ∨
  pst s (latch remoteCoordinator written) = Settled (Rejected err) →
  (∀ v, pst s (latch remoteCoordinator written) ≠ Settled (Fulfilled v)) →
  (local ∉ calls s') ∧
  ∃ err',
    (pst s' (store_op remote) = Settled (Rejected err') ∨
     ∃ f, pst s' (latch remoteCoordinator f) = Settled (Rejected err')) ∧
    ∀ sched',
      let t := run (op_delete fp) rmv upd s' sched' in
      pst t op_result = Settled (Rejected err') ∧
      (local ∈ calls t →
         ∃ v, pst t (latch remoteCoordinator written) = Settled (Fulfilled v)) ∧
      (pst s (latch remoteCoordinator written) = Settled (Rejected err) →
         local ∉ calls t).
Proof.
  intros s s' H Hnot.
  pose proof (drain_Inv c (op_delete fp) rmv upd i sched) as HI.
  pose proof (drain_quiescent (op_delete fp) rmv upd s) as HQ.
  fold s in HI. fold s' in HI, HQ.
  assert (local ∉ calls s') as Hlocal.
  { intros Hc. destruct HI as (I & _ & _).
    destruct (inv_calls _ _ I Hc) as [v Hv].
    unfold s', drain in Hv. rewrite ticks_store_owned in Hv by done.
    by apply (Hnot v). }
  split; [done|].
  assert (pst s' exec ≠ Pending) as He.
  { apply (leg_failure_settles_exec c s' HI HQ err).
    destruct H as [H|H]; [left|right]; by apply run_pst. }
  destruct (settled_cases _ _ He) as [[v|err'] Hx].
  { by destruct (exec_fulfilled_local_called c s' HI v Hx) as [_ ?]. }
  pose proof (exec_rejected_op_rejected c s' HI HQ err' Hx) as Ho.
  exists err'. split.
  - destruct (op_rejected_by_leg c s' HI err' Ho) as [[|] Hl].
    + destruct Hl as [Hl|Hl]; [by left|by right].
    + exfalso. apply Hlocal. destruct HI as (I & _ & _).
      destruct Hl as [Hl|[f Hl]]; exact (inv_pst _ _ I _ _ Hl).
  - intros sched' t.
    assert (Inv c t) as (It & _ & _).
    { unfold t, s', drain, s, execution. rewrite <- !run_app. apply reachable_Inv. }
    split; [by apply run_pst|]. split; [apply (inv_calls _ _ It)|].
    intros Hr Hc. destruct (inv_calls _ _ It Hc) as [v Hv].
    assert (pst t (latch remoteCoordinator written) = Settled (Rejected err)) as Hr'.
    { unfold t, s', drain. by do 2 apply run_pst. }
    congruence.
Qed.

(** C10.  Once the handle's written latch has resolved and the pending
    microtasks have run, the comparison index has no entry for the
    fingerprint, unless the removal threw, and then the error is logged; and
    whatever rejects the promise of [delete] is the rejection of a store's
    promise or latch, never the failure of the removal. *)
Theorem delete_removes_index_entry c fp rmv upd i sched v :
  (∀ j j', rmv fp j = inl j' → j' = DocMetaComparisonIndex_remove fp j) →
  let s := execution c (op_delete fp) rmv upd i sched in
  pst s (latch datastoreMutation written) = Settled (Fulfilled v) →
  (docMetaComparisonIndex (drain (op_delete fp) rmv upd s) !! fp = None ∨
   ∃ j err, rmv fp j = inr err ∧
     ("Could not handle delete: ", err) ∈ logged (drain (op_delete fp) rmv upd s)) ∧
  (∀ err, pst (drain (op_delete fp) rmv upd s) op_result = Settled (Rejected err) →
     ∃ l, pst (drain (op_delete fp) rmv upd s) (store_op l) = Settled (Rejected err) ∨
          ∃ f, pst (drain (op_delete fp) rmv upd s) (latch (coordinator l) f)
                 = Settled (Rejected err)).
Proof.
  intros Hspec s Hv.
  pose proof (drain_Inv c (op_delete fp) rmv upd i sched) as HI.
  pose proof (drain_quiescent (op_delete fp) rmv upd s) as HQ.
  fold s in HI. set (s' := drain _ _ _ s) in *.
  split; [|intros err; by apply (op_rejected_by_leg c s' HI)].
  assert (pst s' (latch datastoreMutation written) = Settled (Fulfilled v)) as Hv'
    by (by apply run_pst).
  pose proof (quiescent_fired c s' R_index_then _ HI HQ Logic.I Hv') as Hf.
  assert (IInv fp rmv s') as HX.
  { unfold s', drain, s, execution. rewrite <- run_app. by apply (reachable_IInv c). }
  unfold IInv in HX. simpl in Hf.
  destruct (pst s' index_then) as [|[u|err]] eqn:Hp; [done|by left|].
  right. destruct HX as [HX|[j Hj]]; [congruence|]. exists j, err. split; [done|].
  apply (quiescent_fired c s' R_index_catch _ HI HQ Logic.I Hp).
Qed.

(** C3.  Under the 'written' consistency, when both stores have applied a
    delete and the target's written latch has resolved, the promise of
    [executeBatchedWrite] is still pending with nothing left to run, and so
    is the promise of [delete]: it resolves only under 'committed'. *)
Theorem executeBatchedWrite_written_stays_pending :
  let s := execution written (op_delete "0x001") remove_ok update_ok {["0x001" := 7]}
             sched_both_written in
  pst s (latch datastoreMutation written) = Settled (Fulfilled (VBool true)) ∧
  queue s = [] ∧
  pst s exec = Pending ∧
  pst s exec_async = Pending ∧
  pst s op_result = Pending.
Proof. by vm_compute. Qed.

(** *** Witnesses and counterexamples *)

(** C1, as stated, fails: under the 'written' consistency the cloud write
    rejects, and the promise returned by [write] is rejected with the cloud's
    error, while nothing is logged and the handle's written latch is still
    pending. *)
Lemma write_cloud_failure_reaches_caller :
  let s := execution written (op_write doc) remove_ok update_ok ∅ sched_cloud_fails in
  pst s (store_op remote) = Settled (Rejected (VError "cloud is down")) ∧
  queue s = [] ∧
  pst s op_result = Settled (Rejected (VError "cloud is down")) ∧
  pst s (latch datastoreMutation written) = Pending ∧
  logged s = [].
Proof. by vm_compute. Qed.

Lemma write_rejects_when_cloud_write_rejects_witness :
  let s := execution written (op_write doc) remove_ok update_ok ∅ sched_cloud_fails in
  ∃ err', pst (drain (op_write doc) remove_ok update_ok s) op_result
            = Settled (Rejected err') ∧
    ∃ l, pst (drain (op_write doc) remove_ok update_ok s) (store_op l)
           = Settled (Rejected err') ∨
         ∃ f, pst (drain (op_write doc) remove_ok update_ok s) (latch (coordinator l) f)
                = Settled (Rejected err').
Proof.
  apply (write_rejects_when_cloud_write_rejects doc remove_ok update_ok ∅
           sched_cloud_fails (VError "cloud is down")).
  left. by vm_compute.
Defined.

(** C2, as stated, fails: the promise of the cloud delete rejects while the
    written latch of the remote coordinator is pending, and the promise of
    [delete] is rejected with the cloud's error; the cloud store then
    resolves the written latch, and the local delete is started. *)
Lemma delete_starts_local_after_cloud_rejection :
  let s := execution committed (op_delete "0x001") remove_ok update_ok {["0x001" := 7]}
             sched_cloud_fails in
  let t := execution committed (op_delete "0x001") remove_ok update_ok {["0x001" := 7]}
             sched_cloud_fails_then_written in
  (pst s (store_op remote) = Settled (Rejected (VError "cloud is down")) ∧
   pst s (latch remoteCoordinator written) = Pending ∧
   pst s op_result = Settled (Rejected (VError "cloud is down")) ∧
   calls s = [remote]) ∧
  (pst t op_result = Settled (Rejected (VError "cloud is down")) ∧
   calls t = [remote; local]).
Proof. by vm_compute. Qed.

Lemma delete_rejects_with_the_cloud_error_witness :
  let s := execution written (op_delete "0x001") remove_ok update_ok {["0x001" := 7]}
             sched_cloud_fails in
  let s' := drain (op_delete "0x001") remove_ok update_ok s in
  (local ∉ calls s') ∧
  ∃ err',
    (pst s' (store_op remote) = Settled (Rejected err') ∨
     ∃ f, pst s' (latch remoteCoordinator f) = Settled (Rejected err')) ∧
    ∀ sched',
      let t := run (op_delete "0x001") remove_ok update_ok s' sched' in
      pst t op_result = Settled (Rejected err') ∧
      (local ∈ calls t →
         ∃ v, pst t (latch remoteCoordinator written) = Settled (Fulfilled v)) ∧
      (pst s (latch remoteCoordinator written) = Settled (Rejected (VError "cloud is down")) →
         local ∉ calls t).
Proof.
  apply (delete_rejects_with_the_cloud_error written "0x001" remove_ok update_ok
           {["0x001" := 7]} sched_cloud_fails (VError "cloud is down")).
  - left. by vm_compute.
  - intros v. by vm_compute.
Defined.

Lemma localSync_only_after_remote_written_witness :
  (∃ n v, n < length sched_both_written ∧
     pst (execution written (op_write doc) remove_ok update_ok ∅
            (take n sched_both_written)) (latch remoteCoordinator written)
       = Settled (Fulfilled v) ∧
     local ∉ calls (execution written (op_write doc) remove_ok update_ok ∅
                      (take n sched_both_written))) ∧
  local ∉ calls (execution written (op_write doc) remove_ok update_ok ∅
                   sched_cloud_fails).
Proof.
  split.
  - apply (proj1 (localSync_only_after_remote_written written (op_write doc)
                    remove_ok update_ok ∅) sched_both_written).
    vm_compute. repeat constructor.
  - apply (proj2 (localSync_only_after_remote_written written (op_write doc)
                    remove_ok update_ok ∅) sched_cloud_fails).
    intros n v. do 9 (destruct n as [|n]; [vm_compute; discriminate|]).
    destruct n; vm_compute; discriminate.
Defined.

Lemma batched_written_merge_witness :
  let s := execution written (op_write doc) remove_ok update_ok ∅ sched_both_written in
  let s' := execution written (op_write doc) remove_ok update_ok ∅
              sched_local_latch_fails in
  (∃ v0 v1, pst s (latch remoteCoordinator written) = Settled (Fulfilled v0) ∧
            pst s (latch localCoordinator written) = Settled (Fulfilled v1)) ∧
  (∃ v, pst (drain (op_write doc) remove_ok update_ok s) (latch datastoreMutation written)
          = Settled (Fulfilled v)) ∧
  (∃ err', pst (drain (op_write doc) remove_ok update_ok s')
             (latch datastoreMutation written) = Settled (Rejected err')).
Proof.
  intros s s'.
  pose proof (batched_written_merge written (op_write doc) remove_ok update_ok ∅
                sched_both_written) as (H1 & H2 & _).
  pose proof (batched_written_merge written (op_write doc) remove_ok update_ok ∅
                sched_local_latch_fails) as (_ & _ & H3).
  split; [|split].
  - apply (H1 (VBool true)). by vm_compute.
  - apply (H2 (VBool true) (VBool false)); by vm_compute.
  - apply (H3 local (VError "disk is full")). by vm_compute.
Defined.

Lemma batched_resolves_with_remote_value_witness :
  let s := execution committed (op_write doc) remove_ok update_ok ∅
             sched_both_committed in
  pst (drain (op_write doc) remove_ok update_ok s) (latch datastoreMutation written)
    = Settled (Fulfilled (VBool true)) ∧
  pst (drain (op_write doc) remove_ok update_ok s) (latch datastoreMutation committed)
    = Settled (Fulfilled (VBool true)).
Proof.
  split.
  - apply (batched_resolves_with_remote_value committed (op_write doc) remove_ok
             update_ok ∅ sched_both_committed written (VBool true) (VBool false));
      [by left|by vm_compute..].
  - apply (batched_resolves_with_remote_value committed (op_write doc) remove_ok
             update_ok ∅ sched_both_committed committed (VBool true) (VBool false));
      [by right|by vm_compute..].
Defined.

Lemma delete_removes_index_entry_witness :
  let s := execution committed (op_delete "0x001") remove_ok update_ok {["0x001" := 7]}
             sched_both_committed in
  (docMetaComparisonIndex (drain (op_delete "0x001") remove_ok update_ok s) !! "0x001"
     = None ∨
   ∃ j err, remove_ok "0x001" j = inr err ∧
     ("Could not handle delete: ", err)
       ∈ logged (drain (op_delete "0x001") remove_ok update_ok s)) ∧
  (∀ err, pst (drain (op_delete "0x001") remove_ok update_ok s) op_result
            = Settled (Rejected err) →
     ∃ l, pst (drain (op_delete "0x001") remove_ok update_ok s) (store_op l)
            = Settled (Rejected err) ∨
          ∃ f, pst (drain (op_delete "0x001") remove_ok update_ok s)
                 (latch (coordinator l) f) = Settled (Rejected err)).
Proof.
  apply (delete_removes_index_entry committed "0x001" remove_ok update_ok
           {["0x001" := 7]} sched_both_committed (VBool true)).
  - intros j j' H. injection H as <-. reflexivity.
  - by vm_compute.
Defined.

(** When the cloud store rejects the written latch it was handed, the
    handle's written latch is rejected too, the error is logged, and the
    promise of [write] is rejected. *)
Example write_cloud_latch_failure_is_logged :
  let s := execution written (op_write doc) remove_ok update_ok ∅
             sched_cloud_latch_fails in
  pst s (latch datastoreMutation written) = Settled (Rejected (VError "cloud is down")) ∧
  logged s = [("Could not handle delete: ", VError "cloud is down")] ∧
  pst s op_result = Settled (Rejected (VError "cloud is down")) ∧
  calls s = [remote].
Proof. by vm_compute. Qed.

(** A removal that throws is logged, and the delete resolves all the same. *)
Example delete_logs_failed_removal :
  let s := execution committed (op_delete "0x001") remove_throws update_ok {["0x001" := 7]}
             sched_both_committed in
  logged s = [("Could not handle delete: ", VError "index is broken")] ∧
  docMetaComparisonIndex s !! "0x001" = Some 7 ∧
  pst s op_result = Settled (Fulfilled VObject).
Proof. by vm_compute. Qed.

(** * Further properties of the mutation coordinator *)

Import Tally.

Section Totals.

Variable w : reaction → nat.

Lemma total_sum_insert_notin (g : pid → list reaction) p x (l : list pid) :
  p ∉ l →
  sum_list_with (λ q, sum_list_with w (<[p := x]> g q)) l =
  sum_list_with (λ q, sum_list_with w (g q)) l.
Proof.
  induction l as [|a l IH]; [done|]. intros [Ha Hl]%not_elem_of_cons. simpl.
  rewrite IH by done. by rewrite fn_lookup_insert_ne.
Qed.

Lemma total_sum_insert (g : pid → list reaction) p x (l : list pid) :
  NoDup l → p ∈ l →
  sum_list_with (λ q, sum_list_with w (<[p := x]> g q)) l + sum_list_with w (g p) =
  sum_list_with (λ q, sum_list_with w (g q)) l + sum_list_with w x.
Proof.
  induction l as [|a l IH]; [by intros _ ?%elem_of_nil|].
  intros [Ha Hl]%list.NoDup_cons [->|Hp]%elem_of_cons; simpl.
  - rewrite total_sum_insert_notin by done. rewrite fn_lookup_insert. lia.
  - specialize (IH Hl Hp). destruct (decide (p = a)) as [->|Hne]; [done|].
    rewrite fn_lookup_insert_ne by done. lia.
Qed.

Lemma total_jobs (o : outcome) (l : list reaction) :
  sum_list_with (λ j, w j.1) ((λ r, (r, o)) <$> l) = sum_list_with w l.
Proof. induction l as [|r l IH]; [done|]. simpl. f_equal. exact IH. Qed.

Lemma total_settle p o s : total w (settle p o s) = total w s.
Proof.
  unfold settle. destruct (pst s p); [|done]. unfold total. simpl.
  rewrite sum_list_with_app, total_jobs.
  pose proof (total_sum_insert (rx s) p [] pids pids_NoDup (pids_all p)) as H.
  simpl in H. lia.
Qed.

Lemma total_register p r s : total w (register p r s) = total w s + w r.
Proof.
  unfold register. destruct (pst s p); unfold total; simpl.
  - pose proof (total_sum_insert (rx s) p (rx s p ++ [r]) pids pids_NoDup (pids_all p)) as H.
    rewrite sum_list_with_app in H. simpl in H. lia.
  - rewrite sum_list_with_app. simpl. lia.
Qed.

Lemma total_all_resolve_element f l v s :
  total w (all_resolve_element f l v s) = total w s.
Proof.
  unfold all_resolve_element. repeat case_match; by rewrite ?total_settle.
Qed.

Lemma total_pop r o q s :
  queue s = (r, o) :: q → total w (set_queue (λ _, q) s) + w r = total w s.
Proof. intros H. unfold total. rewrite H. simpl. lia. Qed.

Section React.

Variable op : operation.
Variable rmv : string → gmap string nat → gmap string nat + value.
Variable upd : DocInfo → gmap string nat → gmap string nat + value.

Hypothesis Hquiet : quiet w.

Lemma total_react r o s : total w (react op rmv upd r o s) = total w s.
Proof.
  destruct Hquiet as [H1 H2].
  destruct r, o; simpl; unfold on_then, on_catch, reject, resolve, latch_resolve,
    latch_reject, localSync, catch_, await, seq, log_error;
    rewrite ?total_settle, ?total_register, ?total_all_resolve_element,
      ?total_settle, ?total_register;
    try (unfold total; simpl; lia).
  - case_match; rewrite total_settle; unfold total; simpl; lia.
  - destruct op; by rewrite total_settle.
  - destruct op; by rewrite total_settle.
Qed.

Lemma total_happen e s : total w (happen e s) = total w s.
Proof. destruct e; simpl; case_decide; by rewrite ?total_settle. Qed.

Lemma total_step s a : total w (step op rmv upd s a) ≤ total w s.
Proof.
  destruct a as [|e]; simpl.
  - destruct (queue s) as [|[r o] q] eqn:Hq; [done|].
    rewrite total_react. pose proof (total_pop r o q s Hq). lia.
  - by rewrite total_happen.
Qed.

End React.

End Totals.

(** ** Each store is called at most once *)

Section Once.

Variable c : DatastoreConsistency.
Variable op : operation.
Variable rmv : string → gmap string nat → gmap string nat + value.
Variable upd : DocInfo → gmap string nat → gmap string nat + value.
Variable i : gmap string nat.

Lemma gate_quiet : quiet gate.
Proof. done. Qed.

Lemma calls_gate v s :
  calls (react op rmv upd R_gate_then (Fulfilled v) s) = calls s ++ [local].
Proof.
  simpl. unfold on_then, localSync, catch_, await, seq.
  by rewrite calls_settle, !calls_register.
Qed.

Lemma step_CallsInv s a : CallsInv s → CallsInv (step op rmv upd s a).
Proof.
  intros (n & Hc & Hn). destruct a as [|e]; simpl.
  - destruct (queue s) as [|[r o] q] eqn:Hq; [by exists n|].
    pose proof (total_pop gate r o q s Hq) as Hp.
    pose proof (total_react gate op rmv upd gate_quiet r o (set_queue (λ _, q) s)) as Hr.
    destruct (gate_then_cases r o) as [(v & -> & ->)|Hne].
    + simpl in Hp. exists 1. rewrite calls_gate, Hr. simpl. rewrite Hc.
      assert (n = 0) as -> by lia. split; [done|lia].
    + exists n. rewrite calls_react, Hr by done. simpl. split; [done|lia].
  - exists n. rewrite calls_happen, (total_happen gate). done.
Qed.

Lemma init_CallsInv : CallsInv (init c op i).
Proof. exists 0. rewrite calls_init. split; [done|]. by destruct c, op. Qed.

Lemma reachable_CallsInv sched : CallsInv (run op rmv upd (init c op i) sched).
Proof.
  induction sched as [|a sched IH] using rev_ind; [apply init_CallsInv|].
  rewrite run_snoc. by apply step_CallsInv.
Qed.

End Once.

(** X1.  The cloud store is called once, when the operation starts, and the
    local store at most once, after it: whatever the stores do and however
    often their latches and promises settle, no store is asked to apply the
    operation twice. *)
Theorem each_store_called_at_most_once c op rmv upd i sched :
  calls (execution c op rmv upd i sched) = [remote] ∨
  calls (execution c op rmv upd i sched) = [remote; local].
Proof.
  destruct (reachable_CallsInv c op rmv upd i sched) as (n & Hc & Hn).
  unfold execution. rewrite Hc.
  destruct n as [|[|n]]; [by left|by right|lia].
Qed.



Section Committed.

Variable op : operation.
Variable rmv : string → gmap string nat → gmap string nat + value.
Variable upd : DocInfo → gmap string nat → gmap string nat + value.

Lemma committed_plumbing_quiet : quiet committed_plumbing.
Proof. done. Qed.

Lemma react_committed_frame r o s :
  committed_plumbing r = 0 →
  pst (react op rmv upd r o s) (latch datastoreMutation committed) =
  pst s (latch datastoreMutation committed).
Proof.
  intros Hr.
  destruct r as [| | | |f ?|f|f| | | | | |], o; try destruct f; try done; simpl;
    unfold on_then, on_catch, reject, resolve, latch_resolve, latch_reject,
      localSync, catch_, await, seq, log_error; try case_match; try destruct op;
    rewrite ?pst_settle_ne, ?pst_register, ?pst_all_resolve_element_ne; done.
Qed.

Lemma step_WrittenOnly s a : WrittenOnly s → WrittenOnly (step op rmv upd s a).
Proof.
  intros [Ht Hp]. split.
  - pose proof (total_step committed_plumbing op rmv upd committed_plumbing_quiet s a).
    lia.
  - destruct a as [|e]; simpl.
    + destruct (queue s) as [|[r o] q] eqn:Hq; [done|].
      pose proof (total_pop committed_plumbing r o q s Hq) as H.
      rewrite react_committed_frame by lia. done.
    + destruct e; simpl; case_decide; try done; rewrite pst_settle_ne; try done.
      by destruct l.
Qed.

Lemma reachable_WrittenOnly i sched :
  WrittenOnly (run op rmv upd (init written op i) sched).
Proof.
  induction sched as [|a sched IH] using rev_ind.
  - by destruct op.
  - rewrite run_snoc. by apply step_WrittenOnly.
Qed.

Variable c : DatastoreConsistency.

Lemma react_done_frame r o s :
  r ≠ R_done_then →
  pst (react op rmv upd r o s) done_then = pst s done_then.
Proof.
  intros Hr.
  destruct r, o; try done; simpl;
    unfold on_then, on_catch, reject, resolve, latch_resolve, latch_reject,
      localSync, catch_, await, seq, log_error; try case_match; try destruct op;
    rewrite ?pst_settle_ne, ?pst_register, ?pst_all_resolve_element_ne; done.
Qed.

Lemma step_DoneInv s a : PInv c s → DoneInv s → DoneInv (step op rmv upd s a).
Proof.
  intros I D. destruct a as [|e]; simpl.
  - destruct (queue s) as [|[r o] q] eqn:Hq; [done|].
    set (s0 := set_queue (λ _, q) s).
    pose proof (react_ext op rmv upd r o s0) as E.
    destruct (decide (r = R_done_then)) as [->|Hr].
    + assert (pst s (latch datastoreMutation committed) = Settled o) as J.
      { apply (inv_queue _ _ I R_done_then). rewrite Hq. by left. }
      intros v Hv. destruct (pst s done_then) as [|o'] eqn:Hd.
      * destruct o as [x|err].
        -- exists x. by apply (ext_pst _ _ E).
        -- revert Hv. simpl. unfold settle. simpl. rewrite Hd. simpl.
           rewrite fn_lookup_insert. done.
      * rewrite (ext_pst _ _ E done_then o' Hd) in Hv. injection Hv as ->.
        destruct (D v Hd) as [x Hx]. exists x. by apply (ext_pst _ _ E).
    + intros v. rewrite react_done_frame by done. intros Hv.
      destruct (D v Hv) as [x Hx]. exists x. by apply (ext_pst _ _ E).
  - intros v Hv.
    assert (pst (happen e s) done_then = pst s done_then) as Hf.
    { destruct e; simpl; case_decide; by rewrite ?pst_settle_ne. }
    rewrite Hf in Hv. destruct (D v Hv) as [x Hx]. exists x.
    destruct e; simpl; case_decide; try done; by apply (ext_pst _ _ (settle_ext _ _ s)).
Qed.

Lemma reachable_DoneInv i sched : DoneInv (run op rmv upd (init c op i) sched).
Proof.
  induction sched as [|a sched IH] using rev_ind.
  - intros v. by destruct c, op.
  - rewrite run_snoc. apply (step_DoneInv _ _ (proj1 (reachable_Inv c op rmv upd i sched)) IH).
Qed.

End Committed.

Section IndexOnce.

Variable c : DatastoreConsistency.
Variable op : operation.
Variable rmv : string → gmap string nat → gmap string nat + value.
Variable upd : DocInfo → gmap string nat → gmap string nat + value.
Variable i : gmap string nat.

Lemma index_update_quiet : quiet index_update.
Proof. done. Qed.

Lemma pst_settle_pending p o s : pst s p = Pending → pst (settle p o s) p = Settled o.
Proof. intros H. unfold settle. rewrite H. simpl. by rewrite fn_lookup_insert. Qed.

Lemma react_index_untouched r o s :
  r ≠ R_index_then →
  pst (react op rmv upd r o s) index_then = pst s index_then ∧
  docMetaComparisonIndex (react op rmv upd r o s) = docMetaComparisonIndex s.
Proof.
  intros Hr.
  destruct r, o; try done; simpl; unfold on_then, on_catch, reject, resolve,
    latch_resolve, latch_reject, localSync, catch_, await, seq, log_error;
    try destruct op;
    rewrite ?pst_settle_ne, ?pst_register, ?pst_all_resolve_element_ne,
      ?index_settle, ?index_register, ?index_all_resolve_element; done.
Qed.

Lemma step_IndexInv s a :
  PInv c s → IndexInv op rmv upd i s → IndexInv op rmv upd i (step op rmv upd s a).
Proof.
  intros I H. destruct a as [|e]; simpl.
  - destruct (queue s) as [|[r o] q] eqn:Hq; [done|].
    set (s0 := set_queue (λ _, q) s).
    pose proof (total_pop index_update r o q s Hq) as Hp. fold s0 in Hp.
    pose proof (total_react index_update op rmv upd index_update_quiet r o s0) as Hr.
    pose proof (react_ext op rmv upd r o s0) as E.
    destruct (decide (r = R_index_then)) as [->|Hne].
    + assert (pst s (latch datastoreMutation written) = Settled o) as J.
      { apply (inv_queue _ _ I R_index_then). rewrite Hq. by left. }
      simpl in Hp. unfold IndexInv in H.
      destruct (pst s index_then) as [|[u|e]] eqn:Hd; [|lia..].
      destruct H as [Hi Ht]. unfold IndexInv.
      assert (pst s0 index_then = Pending) as Hd0 by done.
      assert (total index_update s0 = 0) as Ht0 by lia.
      destruct o as [v|err]; simpl.
      * change (docMetaComparisonIndex s0) with (docMetaComparisonIndex s).
        rewrite Hi. destruct (index_call op rmv upd i) as [j|err] eqn:Hj.
        -- rewrite pst_settle_pending by done.
           rewrite total_settle, pst_settle_ne, index_settle by done. simpl.
           rewrite J. done.
        -- rewrite pst_settle_pending by done.
           rewrite total_settle, pst_settle_ne, index_settle by done. simpl.
           rewrite J. split; [done|]. split; [done|]. split; [done|]. right. eauto.
      * rewrite pst_settle_pending by done.
        rewrite total_settle, pst_settle_ne, index_settle by done. simpl.
        rewrite J. split; [done|]. split; [done|]. split; [done|]. by left.
    + destruct (react_index_untouched r o s0 Hne) as [H1 H2].
      assert (index_update r = 0) as Hw by (by destruct r).
      unfold IndexInv in *. rewrite H1, H2, Hr. simpl.
      destruct (pst s index_then) as [|[u|err]].
      * split; [tauto|lia].
      * destruct H as (Ht & Hn & Hj). split; [lia|]. split; [|done].
        by apply (ext_not_pending _ _ _ E).
      * destruct H as (Ht & Hn & Hj & Hc). split; [lia|]. split; [|split; [done|]].
        -- by apply (ext_not_pending _ _ _ E).
        -- destruct Hc as [Hc|[Hc [v Hv]]]; [left|right].
           ++ by apply (ext_pst _ _ E).
           ++ split; [done|]. exists v. by apply (ext_pst _ _ E).
  - assert (ext s (happen e s)) as E.
    { destruct e; simpl; case_decide; auto using ext_refl, settle_ext. }
    assert (pst (happen e s) index_then = pst s index_then) as H1.
    { destruct e; simpl; case_decide; by rewrite ?pst_settle_ne. }
    assert (docMetaComparisonIndex (happen e s) = docMetaComparisonIndex s) as H2.
    { destruct e; simpl; case_decide; by rewrite ?index_settle. }
    unfold IndexInv in *. rewrite H1, H2, (total_happen index_update).
    destruct (pst s index_then) as [|[u|err]]; [done| |].
    + destruct H as (Ht & Hn & Hj). split; [done|]. split; [|done].
      by apply (ext_not_pending _ _ _ E).
    + destruct H as (Ht & Hn & Hj & Hc). split; [done|]. split; [|split; [done|]].
      * by apply (ext_not_pending _ _ _ E).
      * destruct Hc as [Hc|[Hc [v Hv]]]; [left|right].
        -- by apply (ext_pst _ _ E).
        -- split; [done|]. exists v. by apply (ext_pst _ _ E).
Qed.

Lemma init_IndexInv : IndexInv op rmv upd i (init c op i).
Proof. destruct c, op; vm_compute; (split; [reflexivity|lia]). Qed.

Lemma reachable_IndexInv sched :
  IndexInv op rmv upd i (run op rmv upd (init c op i) sched).
Proof.
  induction sched as [|a sched IH] using rev_ind; [apply init_IndexInv|].
  rewrite run_snoc. apply step_IndexInv; [|done]. apply reachable_Inv.
Qed.

End IndexOnce.

(** ** Further properties of executeBatchedWrite, write and delete *)

(** X2.  The promise returned by [write] / [delete] resolves only after both
    stores have committed: in every execution in which it is fulfilled, the
    consistency is 'committed', both stores have been called, once each, and
    both coordinators' committed latches are resolved. *)
Theorem operation_resolves_only_after_both_committed c op rmv upd i sched v :
  let s := execution c op rmv upd i sched in
  pst s op_result = Settled (Fulfilled v) →
  c = committed ∧ calls s = [remote; local] ∧
  ∃ v0 v1, pst s (latch remoteCoordinator committed) = Settled (Fulfilled v0) ∧
           pst s (latch localCoordinator committed) = Settled (Fulfilled v1).
Proof.
  intros s Ho.
  destruct (reachable_Inv c op rmv upd i sched) as (I & _ & _).
  fold (execution c op rmv upd i sched) in I.
  fold s in I.
  pose proof (inv_pst _ _ I _ _ Ho) as (x & Ha).
  pose proof (inv_pst _ _ I _ _ Ha) as He. simpl in He.
  pose proof (inv_pst _ _ I _ _ He) as (Hc & w & Ht).
  pose proof (inv_pst _ _ I _ _ Ht) as (y & Hb & _).
  pose proof (inv_pst _ _ I _ _ Hb) as (v0 & v1 & _ & H0 & H1).
  pose proof (inv_pst _ _ I _ _ H1) as Hl. simpl in Hl.
  split; [done|]. split; [|by exists v0, v1].
  destruct (reachable_CallsInv c op rmv upd i sched) as (n & Hn & Hle).
  fold (execution c op rmv upd i sched) in Hn. fold s in Hn. rewrite Hn in Hl |- *.
  destruct n as [|[|n]]; [|done|lia].
  apply elem_of_cons in Hl as [Hl|Hl]; [done|by apply elem_of_nil in Hl].
Qed.

(** X3.  Under the 'committed' consistency the promise returned by [write] /
    [delete] does resolve: once both coordinators' committed latches are
    resolved and neither store's own promise has rejected, it is fulfilled
    as soon as the pending microtasks have run. *)
Theorem operation_resolves_once_both_committed op rmv upd i sched v0 v1 :
  let s := execution committed op rmv upd i sched in
  pst s (latch remoteCoordinator committed) = Settled (Fulfilled v0) →
  pst s (latch localCoordinator committed) = Settled (Fulfilled v1) →
  (∀ l err, pst s (store_op l) ≠ Settled (Rejected err)) →
  ∃ v, pst (drain op rmv upd s) op_result = Settled (Fulfilled v).
Proof.
  intros s H0 H1 Hs. set (s' := drain op rmv upd s).
  assert (Inv committed s') as HI by apply drain_Inv.
  assert (quiescent s') as HQ by apply drain_quiescent.
  assert (∀ p o, pst s p = Settled o → pst s' p = Settled o) as Hk.
  { intros p o. apply run_pst. }
  assert (∀ l err, pst s' (store_op l) ≠ Settled (Rejected err)) as Hs'.
  { intros l err. unfold s', drain. rewrite ticks_store_owned by done. apply Hs. }
  destruct HI as (I & B & F).
  pose proof (target_fulfilled committed s' (conj I (conj B F)) HQ committed v0 v1
                (or_intror eq_refl) (Hk _ _ H0) (Hk _ _ H1)) as Ht.
  pose proof (quiescent_fired committed s' R_done_then _ (conj I (conj B F)) HQ eq_refl Ht)
    as Fd. simpl in Fd.
  destruct (pst s' exec) as [|[u|err]] eqn:He; [done| |].
  - pose proof (quiescent_fired committed s' R_exec_adopt _ (conj I (conj B F)) HQ
                  Logic.I He) as Fa. simpl in Fa.
    destruct (pst s' exec_async) as [|oa] eqn:Ha; [done|].
    pose proof (inv_pst _ _ I _ _ Ha) as J. simpl in J. rewrite He in J.
    injection J as <-.
    pose proof (quiescent_fired committed s' R_op_return _ (conj I (conj B F)) HQ
                  Logic.I Ha) as Fo. simpl in Fo.
    destruct (pst s' op_result) as [|[x|e]] eqn:Ho; [done|by exists x|].
    pose proof (inv_pst _ _ I _ _ Ho) as J. simpl in J. congruence.
  - exfalso. pose proof (inv_pst _ _ I _ _ He) as [[l Hl]|[Hg|Hd]]; simpl in *.
    + pose proof (inv_pst _ _ I _ _ Hl) as J. simpl in J. by apply (Hs' l err).
    + pose proof (inv_pst _ _ I _ _ Hg) as J. simpl in J.
      pose proof (inv_pst _ _ I _ _ (Hk _ _ H1)) as Hl. simpl in Hl.
      destruct (inv_calls _ _ I Hl) as [x Hx]. congruence.
    + pose proof (inv_pst _ _ I _ _ Hd) as J. simpl in J. congruence.
Qed.

(** X4.  Under the 'written' consistency [batched] merges the written
    latches only: the committed latch of the caller's handle is never
    settled, whatever the stores report on their committed latches. *)
Theorem committed_latch_untouched_under_written op rmv upd i sched :
  pst (execution written op rmv upd i sched) (latch datastoreMutation committed) = Pending.
Proof. apply reachable_WrittenOnly. Qed.

(** X5.  Under the 'committed' consistency a store that rejects its
    committed latch fails the operation: once the pending microtasks have
    run, the committed latch of the caller's handle is rejected and so is
    the promise returned by [write] / [delete]. *)
Theorem committed_rejection_rejects_operation op rmv upd i sched l err :
  let s := execution committed op rmv upd i sched in
  pst s (latch (coordinator l) committed) = Settled (Rejected err) →
  (∃ err', pst (drain op rmv upd s) (latch datastoreMutation committed) =
             Settled (Rejected err')) ∧
  (∃ err', pst (drain op rmv upd s) op_result = Settled (Rejected err')).
Proof.
  intros s Hl. set (s' := drain op rmv upd s).
  assert (Inv committed s') as HI by apply drain_Inv.
  assert (quiescent s') as HQ by apply drain_quiescent.
  assert (DoneInv s') as HD.
  { unfold s', drain, s, execution. rewrite <- run_app. apply reachable_DoneInv. }
  assert (pst s' (latch (coordinator l) committed) = Settled (Rejected err)) as Hl'
    by (by apply run_pst).
  destruct (target_rejected committed s' HI HQ committed l err (or_intror eq_refl) Hl')
    as [e1 Ht].
  split; [by exists e1|].
  pose proof (quiescent_fired committed s' R_done_then _ HI HQ eq_refl Ht) as Fd.
  simpl in Fd. destruct HI as (I & B & F).
  destruct (pst s' done_then) as [|[u|e2]] eqn:Hd; [done| |].
  { destruct (HD u Hd) as [x Hx]. congruence. }
  pose proof (quiescent_fired committed s' R_done_catch _ (conj I (conj B F)) HQ
                eq_refl Hd) as Fe. simpl in Fe.
  destruct (pst s' exec) as [|[u|e3]] eqn:He; [done| |].
  { pose proof (inv_pst _ _ I _ _ He) as (_ & x & Hx). congruence. }
  exists e3. by apply (exec_rejected_op_rejected committed s' (conj I (conj B F)) HQ).
Qed.

(** X6.  [write] updates the comparison index once, when the written latch of
    the caller's handle resolves: as long as the latch is pending the index
    is as it was; once the latch is resolved and the pending microtasks have
    run, the index is what [updateUsingDocInfo(docInfo)] made of the index as
    it was, or, when the update threw, the index is as it was and the error
    is logged. *)
Theorem write_updates_index_once c docInfo rmv upd i sched :
  let s := execution c (op_write docInfo) rmv upd i sched in
  let s' := drain (op_write docInfo) rmv upd s in
  (pst s (latch datastoreMutation written) = Pending → docMetaComparisonIndex s = i) ∧
  (∀ v, pst s (latch datastoreMutation written) = Settled (Fulfilled v) →
     match upd docInfo i with
     | inl j => docMetaComparisonIndex s' = j
     | inr err => docMetaComparisonIndex s' = i ∧
                  ("Could not handle delete: ", err) ∈ logged s'
     end).
Proof.
  intros s s'. split.
  - intros Hp.
    pose proof (reachable_IndexInv c (op_write docInfo) rmv upd i sched) as W.
    fold (execution c (op_write docInfo) rmv upd i sched) in W. fold s in W.
    unfold IndexInv in W. destruct (pst s index_then) as [|[u|e]].
    + tauto.
    + destruct W as (_ & W & _). done.
    + destruct W as (_ & W & _). done.
  - intros v Hv.
    assert (Inv c s') as HI by apply drain_Inv.
    assert (quiescent s') as HQ by apply drain_quiescent.
    assert (IndexInv (op_write docInfo) rmv upd i s') as W.
    { unfold s', drain, s, execution. rewrite <- run_app. apply reachable_IndexInv. }
    assert (pst s' (latch datastoreMutation written) = Settled (Fulfilled v)) as Hv'
      by (by apply run_pst).
    pose proof (quiescent_fired c s' R_index_then _ HI HQ Logic.I Hv') as Fi. simpl in Fi.
    unfold IndexInv in W. simpl in W.
    destruct (pst s' index_then) as [|[u|e]] eqn:Hd; [done| |].
    + destruct W as (_ & _ & W). rewrite W. done.
    + destruct W as (_ & _ & Wi & [W|[W _]]); [congruence|]. rewrite W. split; [done|].
      apply (quiescent_fired c s' R_index_catch _ HI HQ Logic.I Hd).
Qed.

(** X7.  When the written latch of the caller's handle is rejected, [write]
    and [delete] leave the comparison index as it was, and the rejection is
    logged, by both under the message of [delete]. *)
Theorem rejected_written_latch_is_logged c op rmv upd i sched err :
  let s := execution c op rmv upd i sched in
  let s' := drain op rmv upd s in
  pst s (latch datastoreMutation written) = Settled (Rejected err) →
  docMetaComparisonIndex s' = i ∧ ("Could not handle delete: ", err) ∈ logged s'.
Proof.
  intros s s' Hr.
  assert (Inv c s') as HI by apply drain_Inv.
  assert (quiescent s') as HQ by apply drain_quiescent.
  assert (IndexInv op rmv upd i s') as W.
  { unfold s', drain, s, execution. rewrite <- run_app. apply reachable_IndexInv. }
  assert (pst s' (latch datastoreMutation written) = Settled (Rejected err)) as Hr'
    by (by apply run_pst).
  pose proof (quiescent_fired c s' R_index_then _ HI HQ Logic.I Hr') as Fi. simpl in Fi.
  unfold IndexInv in W.
  destruct (pst s' index_then) as [|[u|e]] eqn:Hd; [done| |].
  - destruct HI as (I & _ & _). pose proof (inv_pst _ _ I _ _ Hd) as [x Hx]. congruence.
  - destruct W as (_ & _ & Wi & [W|[_ [x W]]]); [|congruence].
    assert (e = err) as -> by congruence. split; [done|].
    apply (quiescent_fired c s' R_index_catch _ HI HQ Logic.I Hd).
Qed.

(** *** Witnesses *)

Lemma operation_resolves_only_after_both_committed_witness :
  let s := execution committed (op_delete "0x001") remove_ok update_ok {["0x001" := 7]}
             sched_both_committed in
  committed = committed ∧ calls s = [remote; local] ∧
  ∃ v0 v1, pst s (latch remoteCoordinator committed) = Settled (Fulfilled v0) ∧
           pst s (latch localCoordinator committed) = Settled (Fulfilled v1).
Proof.
  apply (operation_resolves_only_after_both_committed committed (op_delete "0x001")
           remove_ok update_ok {["0x001" := 7]} sched_both_committed VObject).
  by vm_compute.
Defined.

Lemma operation_resolves_once_both_committed_witness :
  let s := execution committed (op_write doc) remove_ok update_ok ∅
             (sched_both_written ++
              [env (latch_settles remote committed (Fulfilled (VBool true)));
               env (latch_settles local committed (Fulfilled (VBool false)))]) in
  ∃ v, pst (drain (op_write doc) remove_ok update_ok s) op_result = Settled (Fulfilled v).
Proof.
  apply (operation_resolves_once_both_committed (op_write doc) remove_ok update_ok ∅
           (sched_both_written ++
              [env (latch_settles remote committed (Fulfilled (VBool true)));
               env (latch_settles local committed (Fulfilled (VBool false)))])
           (VBool true) (VBool false)).
  - by vm_compute.
  - by vm_compute.
  - intros [] err; vm_compute; discriminate.
Defined.

Lemma committed_rejection_rejects_operation_witness :
  let s := execution committed (op_write doc) remove_ok update_ok ∅
             (sched_both_written ++
              [env (latch_settles local committed (Rejected (VError "disk is full")))]) in
  (∃ err', pst (drain (op_write doc) remove_ok update_ok s)
             (latch datastoreMutation committed) = Settled (Rejected err')) ∧
  (∃ err', pst (drain (op_write doc) remove_ok update_ok s) op_result =
             Settled (Rejected err')).
Proof.
  apply (committed_rejection_rejects_operation (op_write doc) remove_ok update_ok ∅
           (sched_both_written ++
              [env (latch_settles local committed (Rejected (VError "disk is full")))])
           local (VError "disk is full")).
  by vm_compute.
Defined.

Lemma write_updates_index_once_witness :
  let s := execution written (op_write doc) remove_ok update_ok ∅ sched_both_written in
  docMetaComparisonIndex (drain (op_write doc) remove_ok update_ok s) =
    DocMetaComparisonIndex_updateUsingDocInfo doc ∅.
Proof.
  apply (proj2 (write_updates_index_once written doc remove_ok update_ok ∅
                  sched_both_written) (VBool true)).
  by vm_compute.
Defined.

Lemma rejected_written_latch_is_logged_witness :
  let s := execution written (op_delete "0x001") remove_ok update_ok {["0x001" := 7]}
             sched_cloud_latch_fails in
  docMetaComparisonIndex (drain (op_delete "0x001") remove_ok update_ok s) =
    {["0x001" := 7]} ∧
  ("Could not handle delete: ", VError "cloud is down") ∈
    logged (drain (op_delete "0x001") remove_ok update_ok s).
Proof.
  apply (rejected_written_latch_is_logged written (op_delete "0x001") remove_ok update_ok
           {["0x001" := 7]} sched_cloud_latch_fails (VError "cloud is down")).
  by vm_compute.
Defined.

(** * Verification of the snapshot session *)

Import Snapshot.

(** ** Async functions *)



Lemma Forall_prefix_of {A} (P : A → Prop) (l1 l2 : list A) :
  l1 `prefix_of` l2 → Forall P l2 → Forall P l1.
Proof. intros [k ->] H. by apply Forall_app in H as [H _]. Qed.


Lemma handleSnapshotSynchronization_unfold a e :
  handleSnapshotSynchronization a e =
    if decide (consistency e ≠ committed) then ret
    else for_of 0 (docMetaMutations e) (synchronize_mutation a e) ⟫
         call (dispatch_synchronization e local).
Proof. reflexivity. Qed.

(** The body of the loop: what it calls is the start of what it calls when
    nothing rejects, all of it when it does not throw; and it throws what an
    awaited call of its mutation rejects with. *)
Lemma synchronize_mutation_calls a e j m :
  (synchronize_mutation a e j m).1 `prefix_of` calls_for e m ∧
  ((synchronize_mutation a e j m).2 = None →
     (synchronize_mutation a e j m).1 = calls_for e m) ∧
  (∀ err, (synchronize_mutation a e j m).2 = Some err →
     ∃ c, c ∈ awaited_for j ∧ a c = rejects err) ∧
  ((∀ c, c ∈ awaited_for j → a c = resolves) →
     synchronize_mutation a e j m = (calls_for e m, None)).
Proof.
  unfold synchronize_mutation, calls_for, awaited_for.
  destruct m as [fp [] mk]; simpl;
    destruct (a (toCloudSyncOrigin_call j)) as [|e1] eqn:H1;
    destruct (a (toLocalSyncOrigin_call j)) as [|e2] eqn:H2;
    destruct (a (transfer_call j)) as [|e3] eqn:H3;
    destruct (a (docMetaFileRefProvider_call j)) as [|e4] eqn:H4;
    destruct (a (local_delete_call j)) as [|e5] eqn:H5; simpl;
    (split; [by eexists|]); (split; [done|]);
    (split;
     [ intros err Herr;
       first [ done
             | injection Herr as <-; eexists; split; [|eassumption]; set_solver ]
     | intros H;
       first [ reflexivity
             | by rewrite H in H1 by set_solver
             | by rewrite H in H2 by set_solver
             | by rewrite H in H3 by set_solver
             | by rewrite H in H4 by set_solver
             | by rewrite H in H5 by set_solver ] ]).
Qed.

(** The loop, from place [j] on. *)
Lemma for_of_synchronize_mutation a e ms j :
  let done := for_of j ms (synchronize_mutation a e) in
  done.1 `prefix_of` ms ≫= calls_for e ∧
  (done.2 = None → done.1 = ms ≫= calls_for e) ∧
  (∀ err, done.2 = Some err → ∃ c, a c = rejects err) ∧
  (∀ n, (∀ i c, i < n → c ∈ awaited_for (j + i) → a c = resolves) →
     take n ms ≫= calls_for e `prefix_of` done.1).
Proof.
  revert j. induction ms as [|m ms IH]; intros j; simpl.
  { split; [done|]. split; [done|]. split; [done|]. intros n _. by destruct n. }
  destruct (IH (S j)) as (I1 & I2 & I3 & I4). clear IH.
  destruct (synchronize_mutation_calls a e j m) as (B1 & B2 & B3 & B4).
  unfold andthen. destruct (synchronize_mutation a e j m) as [es [err|]] eqn:Hb; simpl in *.
  - split; [destruct B1 as [k ->]; rewrite <- app_assoc; by eexists|].
    split; [done|]. split.
    { intros err' [= <-]. destruct (B3 err eq_refl) as (c & _ & Hc). eauto. }
    intros [|n] Hn; [by apply prefix_nil|]. exfalso.
    destruct (B3 err eq_refl) as (c & Hin & Hc).
    specialize (Hn 0 c ltac:(lia)). rewrite Nat.add_0_r in Hn.
    rewrite Hn in Hc by done. done.
  - rewrite (B2 eq_refl). split; [by apply prefix_app|].
    split; [intros H; by rewrite (I2 H)|]. split; [done|].
    intros [|n] Hn; [by apply prefix_nil|]. simpl. apply prefix_app, I4.
    intros i c Hi Hc. apply (Hn (S i)); [lia|]. by rewrite Nat.add_succ_r.
Qed.


Lemma calls_for_no_reconciliation e ms :
  Forall (λ x, is_synchronizeOrigins x = false) (ms ≫= calls_for e).
Proof.
  induction ms as [|m ms IH]; [constructor|].
  rewrite bind_cons. apply Forall_app. split; [|done].
  unfold calls_for. apply Forall_app. split; case_decide; by repeat constructor.
Qed.

(** What [handleSnapshotSynchronization] does with a committed event. *)
Lemma handleSnapshotSynchronization_calls a e :
  consistency e = committed →
  let done := handleSnapshotSynchronization a e in
  let calls := docMetaMutations e ≫= calls_for e in
  done.1 `prefix_of` calls ++ [dispatch_synchronization e local] ∧
  (done.2 = None → done.1 = calls ++ [dispatch_synchronization e local]) ∧
  (∀ err, done.2 = Some err → done.1 `prefix_of` calls ∧ ∃ c, a c = rejects err) ∧
  (∀ n, resolve_before a n → take n (docMetaMutations e) ≫= calls_for e `prefix_of` done.1).
Proof.
  intros Hc. rewrite handleSnapshotSynchronization_unfold.
  rewrite decide_False by (by intros []).
  destruct (for_of_synchronize_mutation a e (docMetaMutations e) 0) as (L1 & L2 & L3 & L4).
  unfold andthen.
  destruct (for_of 0 (docMetaMutations e) (synchronize_mutation a e)) as [es [err|]];
    simpl in *.
  - split; [by apply prefix_app_r|]. split; [done|].
    split; [intros err' [= <-]; split; [done|by apply L3]|]. apply L4.
  - rewrite (L2 eq_refl). split; [done|]. split; [done|]. split; [done|].
    intros n Hn. apply prefix_app_r. rewrite <- (L2 eq_refl). by apply L4.
Qed.

Lemma handleSnapshotSynchronization_no_reconciliation a e :
  Forall (λ x, is_synchronizeOrigins x = false) (handleSnapshotSynchronization a e).1.
Proof.
  destruct (decide (consistency e = committed)) as [Hc|Hc].
  - destruct (handleSnapshotSynchronization_calls a e Hc) as (H1 & _).
    apply (Forall_prefix_of _ _ _ H1), Forall_app.
    split; [apply calls_for_no_reconciliation|by repeat constructor].
  - rewrite handleSnapshotSynchronization_unfold, decide_True by done. constructor.
Qed.

(** ** The session *)

Section SessionFacts.

Variable deduplicate :
  gmap string nat → DocMetaSnapshotEvent → gmap string nat * option DocMetaSnapshotEvent.

(** [handleEvent] adds to the calls of the listener, to the effects and to
    the errors, and to nothing else. *)
Lemma handleEvent_fields a e σ :
  let σ' := handleEvent a e σ in
  isPrimarySnapshot σ' = isPrimarySnapshot σ ∧
  initialSyncCompleted σ' = initialSyncCompleted σ ∧
  initialSnapshotLatch σ' = initialSnapshotLatch σ ∧
  docMetaComparisonIndex σ' = docMetaComparisonIndex σ ∧
  main σ' = main σ ∧ feed σ' = feed σ ∧ snapshotResult σ' = snapshotResult σ ∧
  tasks σ' = tasks σ ∧
  forwarded σ' = forwarded σ ++ [e] ∧
  effects σ' = effects σ ++
    (if initialSyncCompleted σ && isPrimarySnapshot σ
     then (handleSnapshotSynchronization a e).1 else []).
Proof.
  unfold handleEvent.
  destruct (initialSyncCompleted σ && isPrimarySnapshot σ);
    destruct (a docMetaSnapshotEventListener_call);
    try destruct (handleSnapshotSynchronization a e) as [es [err|]]; simpl;
    by rewrite ?app_nil_r.
Qed.

Lemma synchronizingListener_fields a e σ :
  let σ' := synchronizingListener deduplicate a e σ in
  isPrimarySnapshot σ' = isPrimarySnapshot σ ∧
  initialSyncCompleted σ' = initialSyncCompleted σ ∧
  initialSnapshotLatch σ' = initialSnapshotLatch σ ∧
  main σ' = main σ ∧ feed σ' = feed σ ∧ snapshotResult σ' = snapshotResult σ ∧
  tasks σ' = tasks σ ∧
  forwarded σ' = forwarded σ ++ option_list (deduplicate (docMetaComparisonIndex σ) e).2 ∧
  effects σ' = effects σ ++
    (if initialSyncCompleted σ && isPrimarySnapshot σ
     then match (deduplicate (docMetaComparisonIndex σ) e).2 with
          | Some e' => (handleSnapshotSynchronization a e').1
          | None => []
          end
     else []).
Proof.
  unfold synchronizingListener. destruct (deduplicate _ e) as [i [e'|]]; simpl.
  - destruct (handleEvent_fields a e' (set_index i σ))
      as (F1 & F2 & F3 & F4 & F5 & F6 & F7 & F8 & F9 & F10).
    by rewrite F1, F2, F3, F5, F6, F7, F8, F9, F10.
  - destruct (initialSyncCompleted σ && isPrimarySnapshot σ); by rewrite ?app_nil_r.
Qed.

Lemma synchronizingListener_frame a e σ :
  let σ' := synchronizingListener deduplicate a e σ in
  feed σ' = feed σ ∧ snapshotResult σ' = snapshotResult σ ∧ main σ' = main σ.
Proof.
  destruct (synchronizingListener_fields a e σ) as (_ & _ & _ & F4 & F5 & F6 & _).
  done.
Qed.

Lemma sstep_SInv σ l : SInv σ → SInv (sstep deduplicate σ l).
Proof.
  intros HS. pose proof HS as [H1 H2 H3]. destruct l as [x e a|k a|x b| |]; simpl.
  - destruct (feed σ x); try done. unfold listener.
    destruct (initialSyncCompleted σ).
    + destruct (synchronizingListener_frame a e σ) as (F1 & F2 & F3).
      split; by rewrite ?F1, ?F2, ?F3.
    + destruct (handleSnapshot_enter e _) as [l s]. by split.
  - destruct (tasks σ !! k) as [t|]; [|done]. unfold continue.
    destruct (t_pc t); [destruct (a toSyncDocs_call); by split|].
    destruct (synchronizingListener_frame a (t_event t) (set_tasks (delete k (tasks σ)) σ))
      as (F1 & F2 & F3).
    split; by rewrite ?F1, ?F2, ?F3.
  - assert (SInv (set_snapshotResult x
                    (mkSnapshotResult (if b then Some (cancel x) else None)) σ) ∨
            is_Some (snapshotResult σ x)) as [H|[r Hr]].
    { destruct (snapshotResult σ x) as [r|] eqn:Hr; [right; eauto|left].
      split; simpl; [done| |].
      - intros y r. unfold insert, fn_insert. case_decide; [|apply H2].
        intros [= <-]. subst. destruct b; auto.
      - intros r Hm. destruct (H3 r Hm) as (r' & Hc & ->). exists r'. split; [|done].
        unfold insert, fn_insert. case_decide; [congruence|done]. }
    + destruct (feed σ x), (snapshotResult σ x); done.
    + rewrite Hr. by destruct (feed σ x).
  - by destruct (main σ) eqn:Hm.
  - unfold advance. destruct (main σ) eqn:Hm; try done.
    + destruct (latch _); [|done]. split; simpl; [|done..].
      unfold insert, fn_insert. by case_decide.
    + destruct (latch _); [|done]. destruct (isPrimarySnapshot σ); by split.
    + destruct (snapshotResult σ local); [|done]. by split.
    + destruct (snapshotResult σ cloud) as [r'|] eqn:Hr; [|done].
      split; simpl; [done..|]. intros r [= <-]. eauto.
Qed.

Lemma srun_SInv σ ls : SInv σ → SInv (srun deduplicate σ ls).
Proof.
  revert σ. induction ls as [|l ls IH]; intros σ H; [done|].
  simpl. by apply IH, sstep_SInv.
Qed.

Lemma snapshot_SInv primary i : SInv (snapshot primary i).
Proof. by split. Qed.




End SessionFacts.



(** C9.  When [snapshot] has returned, the [unsubscribe] of its result is the
    [unsubscribe] of the cloud store's snapshot result; calling it leaves the
    local store's feed active; and [stop], which calls the primary
    snapshot's [unsubscribe], leaves the local store's feed active. *)
Theorem snapshot_unsubscribe_is_the_cloud_one deduplicate primary i ls r :
  let σ := srun deduplicate (snapshot primary i) ls in
  main σ = returned r →
  (∃ cloudSnapshotResult,
     snapshotResult σ cloud = Some cloudSnapshotResult ∧
     unsubscribe r = unsubscribe cloudSnapshotResult) ∧
  (∀ u, unsubscribe r = Some u → feed (call_unsubscribe u σ) local = active) ∧
  feed (stop (Some r) σ) local = active.
Proof.
  intros σ Hm.
  destruct (srun_SInv deduplicate _ ls (snapshot_SInv primary i)) as [H1 H2 H3].
  fold σ in H1, H2, H3. destruct (H3 r Hm) as (r' & Hr & ->). simpl.
  assert (∀ u, unsubscribe r' = Some u → feed (call_unsubscribe u σ) local = active) as Hu.
  { intros u Hu. destruct (H2 cloud r' Hr) as [H|H]; [congruence|].
    rewrite Hu in H. injection H as ->. simpl. by destruct (feed σ cloud). }
  split; [eauto|]. split; [done|].
  unfold stop. simpl. destruct (unsubscribe r') as [u|]; [by apply Hu|done].
Qed.

(** *** Witnesses and counterexamples *)



(** The call of the listener for such an event may go on only after the
    initial sync has been completed: the event is then synchronized, with a
    transfer and a dispatch, before it is forwarded. *)
Example awaiting_event_is_synchronized_later :
  let σ3 := srun deduplicate_spec (snapshot true ∅)
              ([deliver local initial_event all_resolve; resume 0 all_resolve] ++
               labels_meanwhile) in
  let σ4 := sstep deduplicate_spec σ3 (resume 0 all_resolve) in
  initialSyncCompleted σ3 = true ∧
  forwarded σ4 = forwarded σ3 ++ [initial_event] ∧
  effects σ4 = effects σ3 ++
    [the_transfer initial_event; dispatch_synchronization initial_event local].
Proof. by vm_compute. Qed.



(** A rejected transfer ends the synchronization of the event: the second
    document gets no transfer, the event is not dispatched to the
    synchronization listeners, the error goes to the error listener, and the
    event is forwarded all the same. *)
Example rejected_transfer_ends_the_synchronization :
  let σ := srun deduplicate_spec (snapshot true ∅) labels_initial_sync in
  let σ' := sstep deduplicate_spec σ (deliver local later_event (transfer_fails 0)) in
  effects σ' = effects σ ++ [the_transfer later_event] ∧
  errors σ' = errors σ ++ ["transfer failed"] ∧
  forwarded σ' = forwarded σ ++ [later_event].
Proof. by vm_compute. Qed.

Lemma snapshot_unsubscribe_is_the_cloud_one_witness :
  let σ := srun deduplicate_spec (snapshot true ∅) labels_initial_sync in
  (∃ cloudSnapshotResult,
     snapshotResult σ cloud = Some cloudSnapshotResult ∧
     unsubscribe (mkSnapshotResult (Some (cancel cloud))) = unsubscribe cloudSnapshotResult) ∧
  (∀ u, unsubscribe (mkSnapshotResult (Some (cancel cloud))) = Some u →
        feed (call_unsubscribe u σ) local = active) ∧
  feed (stop (Some (mkSnapshotResult (Some (cancel cloud)))) σ) local = active.
Proof.
  apply (snapshot_unsubscribe_is_the_cloud_one deduplicate_spec true ∅ labels_initial_sync).
  by vm_compute.
Defined.

(** * Further properties of the snapshot session *)

Import Phases.
Import Replay.

Section PhaseFacts.

Variable deduplicate :
  gmap string nat → DocMetaSnapshotEvent → gmap string nat * option DocMetaSnapshotEvent.

Lemma finally_latch l :
  (latch l = true → hasInitialTerminatedBatch l = true) →
  (latch (handleSnapshot_finally l) = true →
   hasInitialTerminatedBatch (handleSnapshot_finally l) = true) ∧
  (latch l = true → latch (handleSnapshot_finally l) = true).
Proof.
  intros H. unfold handleSnapshot_finally. simpl. split.
  - destruct (latch l), (hasInitialTerminatedBatch l); simpl; auto.
  - by intros ->.
Qed.

Lemma enter_latch e l :
  (latch l = true → hasInitialTerminatedBatch l = true) →
  (latch (handleSnapshot_enter e l).1 = true →
   hasInitialTerminatedBatch (handleSnapshot_enter e l).1 = true) ∧
  (latch l = true → latch (handleSnapshot_enter e l).1 = true).
Proof.
  intros H. pose proof (finally_latch l H) as HF. unfold handleSnapshot_enter.
  destruct (hasInitialTerminatedBatch l) eqn:Hh; [exact HF|].
  destruct (not_batch_0 e); [exact HF|]. simpl. split; [|done].
  intros Hl. specialize (H Hl). congruence.
Qed.

Lemma resume_latch e l :
  (latch l = true → hasInitialTerminatedBatch l = true) →
  (latch (handleSnapshot_resume e l) = true →
   hasInitialTerminatedBatch (handleSnapshot_resume e l) = true) ∧
  (latch l = true → latch (handleSnapshot_resume e l) = true).
Proof.
  intros H. unfold handleSnapshot_resume, handleSnapshot_finally. simpl. split.
  - destruct (latch l), (hasInitialTerminatedBatch l), (committed_terminated e);
      simpl; auto.
  - by intros ->.
Qed.

Lemma synchronizingListener_effects a e σ :
  let σ' := synchronizingListener deduplicate a e σ in
  isPrimarySnapshot σ' = isPrimarySnapshot σ ∧
  initialSyncCompleted σ' = initialSyncCompleted σ ∧
  initialSnapshotLatch σ' = initialSnapshotLatch σ ∧
  main σ' = main σ ∧ feed σ' = feed σ ∧ snapshotResult σ' = snapshotResult σ ∧
  tasks σ' = tasks σ ∧
  ∃ es, effects σ' = effects σ ++ es ∧
        Forall (λ x, is_synchronizeOrigins x = false) es ∧
        (initialSyncCompleted σ && isPrimarySnapshot σ = false → es = []).
Proof.
  destruct (synchronizingListener_fields deduplicate a e σ)
    as (F1 & F2 & F3 & F4 & F5 & F6 & F7 & _ & F9).
  repeat (split; [done|]). eexists. split; [exact F9|].
  destruct (initialSyncCompleted σ && isPrimarySnapshot σ); [|by split].
  split; [|done]. destruct (deduplicate _ e).2; [|constructor].
  apply handleSnapshotSynchronization_no_reconciliation.
Qed.

Lemma initial_sync_first_app es es' :
  initial_sync_first es → Forall (λ x, is_synchronizeOrigins x = false) es' →
  initial_sync_first (es ++ es').
Proof.
  intros (ml & mc & rest & -> & Hr) H. exists ml, mc, (rest ++ es').
  split; [done|]. by apply Forall_app.
Qed.

Lemma synchronizingListener_PhaseInv a e σ :
  PhaseInv σ → PhaseInv (synchronizingListener deduplicate a e σ).
Proof.
  intros [H1 H2 H3].
  destruct (synchronizingListener_effects a e σ)
    as (F1 & F2 & F3 & F4 & F5 & F6 & F7 & es & F8 & Hes & Hnil).
  split; rewrite ?F1, ?F2, ?F3, ?F4, ?F5, ?F6, ?F8; [done| |done].
  destruct (main σ).
  - destruct H2 as (? & Hc & ->). rewrite Hc in Hnil. by rewrite (Hnil eq_refl).
  - destruct H2 as (? & Hc & ->). rewrite Hc in Hnil. by rewrite (Hnil eq_refl).
  - destruct H2 as (? & ? & Hc & ? & ml & mc & ->). rewrite Hc in Hnil.
    rewrite (Hnil eq_refl). repeat (split; [done|]). by exists ml, mc.
  - destruct H2 as (? & ? & Hc & H2). repeat (split; [done|]).
    destruct (isPrimarySnapshot σ).
    + by apply initial_sync_first_app.
    + rewrite H2, Hnil; [done|]. by rewrite andb_false_r.
  - destruct H2 as (? & ? & Hc & H2). repeat (split; [done|]).
    destruct (isPrimarySnapshot σ).
    + by apply initial_sync_first_app.
    + rewrite H2, Hnil; [done|]. by rewrite andb_false_r.
  - destruct H2 as (? & ? & Hc & H2). repeat (split; [done|]).
    destruct (isPrimarySnapshot σ).
    + by apply initial_sync_first_app.
    + rewrite H2, Hnil; [done|]. by rewrite andb_false_r.
Qed.

Lemma set_tasks_PhaseInv ts σ : PhaseInv σ → PhaseInv (set_tasks ts σ).
Proof. by intros [H1 H2 H3]. Qed.

Lemma set_latch_PhaseInv x l σ :
  PhaseInv σ →
  (latch l = true → hasInitialTerminatedBatch l = true) →
  (latch (initialSnapshotLatch σ x) = true → latch l = true) →
  PhaseInv (set_latch x l σ).
Proof.
  intros [H1 H2 H3] Hl Hm.
  assert (∀ y, latch (initialSnapshotLatch σ y) = true →
               latch ((<[x := l]> (initialSnapshotLatch σ)) y) = true) as Hmono.
  { intros y. unfold insert, fn_insert. case_decide; [subst; apply Hm|done]. }
  split; simpl; [| |done].
  - intros y. unfold insert, fn_insert. case_decide; [done|apply H1].
  - destruct (main σ); repeat split; try tauto; try (apply Hmono; tauto).
Qed.

Lemma sstep_PhaseInv σ l : PhaseInv σ → PhaseInv (sstep deduplicate σ l).
Proof.
  intros HP. destruct l as [x e a|k a|x b| |]; simpl.
  - destruct (feed σ x); try done. unfold listener.
    destruct (initialSyncCompleted σ); [by apply synchronizingListener_PhaseInv|].
    pose proof (enter_latch e (initialSnapshotLatch σ x) (ph_latch _ HP x)) as [E1 E2].
    destruct (handleSnapshot_enter e _) as [l s].
    by apply set_tasks_PhaseInv, set_latch_PhaseInv.
  - destruct (tasks σ !! k) as [t|]; [|done]. unfold continue.
    pose proof (set_tasks_PhaseInv (delete k (tasks σ)) σ HP) as HP0.
    destruct (t_pc t); [|by apply synchronizingListener_PhaseInv].
    destruct (a toSyncDocs_call).
    + apply set_tasks_PhaseInv, set_latch_PhaseInv; [done|..];
        apply resume_latch, (ph_latch _ HP).
    + apply set_latch_PhaseInv; [done|..]; apply finally_latch, (ph_latch _ HP).
  - destruct HP as [H1 H2 H3].
    destruct (feed σ x), (snapshotResult σ x) eqn:Hr; try done.
    + split; simpl; [done..|]. destruct (main σ); try done.
      * unfold insert, fn_insert. case_decide; [by eexists|done].
      * unfold insert, fn_insert. split; case_decide; try (by eexists); tauto.
    + split; simpl; [done..|]. destruct (main σ); try done.
      * unfold insert, fn_insert. case_decide; [by eexists|done].
      * unfold insert, fn_insert. split; case_decide; try (by eexists); tauto.
  - destruct HP as [H1 H2 H3]. destruct (main σ) eqn:Hm; try (by split; rewrite ?Hm).
    destruct H2 as (? & ? & ? & Hp & ml & mc & He).
    split; simpl; [done| |done]. repeat (split; [done|]). rewrite Hp, He.
    exists ml, mc, []. by split.
  - destruct HP as [H1 H2 H3]. unfold advance.
    destruct (main σ) eqn:Hm; try (by split; rewrite ?Hm).
    + destruct (latch (initialSnapshotLatch σ local)) eqn:Hl; [|by split; rewrite ?Hm].
      split; simpl; [done| |done]. tauto.
    + destruct (latch (initialSnapshotLatch σ cloud)) eqn:Hl; [|by split; rewrite ?Hm].
      destruct H2 as (? & ? & He).
      destruct (isPrimarySnapshot σ) eqn:Hp; split; simpl; try done.
      * repeat (split; [done|]). rewrite He. simpl. eauto.
      * repeat (split; [done|]). by rewrite Hp.
    + destruct (snapshotResult σ local) eqn:Hr; [|by split; rewrite ?Hm].
      split; simpl; [done..|]. by eexists.
    + destruct (snapshotResult σ cloud) eqn:Hr; [|by split; rewrite ?Hm].
      split; simpl; [done..|]. split; [done|by eexists].
Qed.

Lemma srun_PhaseInv σ ls : PhaseInv σ → PhaseInv (srun deduplicate σ ls).
Proof.
  revert σ. induction ls as [|l ls IH]; intros σ H; [done|].
  simpl. by apply IH, sstep_PhaseInv.
Qed.

Lemma snapshot_PhaseInv primary i : PhaseInv (snapshot primary i).
Proof. by split. Qed.

Lemma sstep_isPrimarySnapshot σ l :
  isPrimarySnapshot (sstep deduplicate σ l) = isPrimarySnapshot σ.
Proof.
  destruct l as [x e a|k a|x b| |]; simpl.
  - destruct (feed σ x); try done. unfold listener.
    destruct (initialSyncCompleted σ); [apply synchronizingListener_effects|].
    by destruct (handleSnapshot_enter e _).
  - destruct (tasks σ !! k) as [t|]; [|done]. unfold continue.
    destruct (t_pc t); [by destruct (a toSyncDocs_call)|].
    by rewrite (proj1 (synchronizingListener_effects _ _ _)).
  - by destruct (feed σ x), (snapshotResult σ x).
  - by destruct (main σ).
  - unfold advance. destruct (main σ); try done.
    + by destruct (latch _).
    + destruct (latch _); [|done]. by destruct (isPrimarySnapshot σ) eqn:Hp.
    + by destruct (snapshotResult σ local).
    + by destruct (snapshotResult σ cloud).
Qed.

Lemma srun_isPrimarySnapshot σ ls :
  isPrimarySnapshot (srun deduplicate σ ls) = isPrimarySnapshot σ.
Proof.
  revert σ. induction ls as [|l ls IH]; intros σ; [done|].
  simpl. by rewrite IH, sstep_isPrimarySnapshot.
Qed.

End PhaseFacts.



(** ** The initial snapshot latch *)

Lemma putAll_app m xs ys : putAll (putAll m xs) ys = putAll m (xs ++ ys).
Proof. unfold putAll. by rewrite foldl_app. Qed.

Lemma replay_snoc es e : replay (es ++ [e]) = handleSnapshot (replay es) e.
Proof. unfold replay. by rewrite foldl_app. Qed.

Lemma replay_accumulates es :
  Forall (λ e, not_batch_0 e = false ∧ committed_terminated e = false) es →
  replay es = mkInitialSnapshotLatch (putAll ∅ (es ≫= toSyncDocs)) false false 0.
Proof.
  induction es as [|e es IH] using rev_ind; [done|].
  intros [Hes [[Hb Ht] _]%Forall_cons_1]%Forall_app.
  rewrite replay_snoc, IH by done.
  unfold handleSnapshot, handleSnapshot_enter. simpl. rewrite Hb.
  unfold handleSnapshot_resume, handleSnapshot_finally. simpl. rewrite Ht. simpl.
  rewrite putAll_app, bind_app. simpl. by rewrite app_nil_r.
Qed.

Lemma handleSnapshot_after_terminated l e :
  hasInitialTerminatedBatch l = true → latch l = true →
  hasInitialTerminatedBatch (handleSnapshot l e) = true ∧
  latch (handleSnapshot l e) = true ∧
  syncDocMap (handleSnapshot l e) = syncDocMap l.
Proof.
  intros Hh Hl. unfold handleSnapshot, handleSnapshot_enter. rewrite Hh.
  unfold handleSnapshot_finally. simpl. by rewrite Hh, Hl.
Qed.

Lemma foldl_after_terminated l es :
  hasInitialTerminatedBatch l = true → latch l = true →
  hasInitialTerminatedBatch (foldl handleSnapshot l es) = true ∧
  latch (foldl handleSnapshot l es) = true ∧
  syncDocMap (foldl handleSnapshot l es) = syncDocMap l.
Proof.
  revert l. induction es as [|e es IH]; intros l Hh Hl; [done|]. simpl.
  destruct (handleSnapshot_after_terminated l e Hh Hl) as (H1 & H2 & H3).
  destruct (IH _ H1 H2) as (H4 & H5 & H6). by rewrite H6.
Qed.

Lemma handleSnapshot_pending_negative l e :
  (pending l < 0)%Z → latch l = false →
  (pending (handleSnapshot l e) < 0)%Z ∧ latch (handleSnapshot l e) = false.
Proof.
  intros Hp Hl. unfold handleSnapshot, handleSnapshot_enter.
  destruct (hasInitialTerminatedBatch l) eqn:Hh.
  { unfold handleSnapshot_finally. simpl. rewrite Hl, Hh. simpl. split; [lia|].
    apply bool_decide_eq_false. lia. }
  destruct (not_batch_0 e).
  { unfold handleSnapshot_finally. simpl. rewrite Hl, Hh. simpl. split; [lia|done]. }
  unfold handleSnapshot_resume, handleSnapshot_finally. simpl. rewrite Hl. simpl.
  split; [lia|]. apply andb_false_iff. right. apply bool_decide_eq_false. lia.
Qed.

Lemma foldl_pending_negative l es :
  (pending l < 0)%Z → latch l = false → latch (foldl handleSnapshot l es) = false.
Proof.
  revert l. induction es as [|e es IH]; intros l Hp Hl; [done|]. simpl.
  destruct (handleSnapshot_pending_negative l e Hp Hl) as [H1 H2]. by apply IH.
Qed.

Lemma replay_before_terminated es :
  Forall (λ e, not_batch_0 e = true ∨ committed_terminated e = false) es →
  hasInitialTerminatedBatch (replay es) = false ∧ latch (replay es) = false ∧
  (pending (replay es) ≤ 0)%Z.
Proof.
  induction es as [|e es IH] using rev_ind; [done|].
  intros [Hes [He _]%Forall_cons_1]%Forall_app.
  destruct (IH Hes) as (Hh & Hl & Hp). rewrite replay_snoc.
  unfold handleSnapshot, handleSnapshot_enter. rewrite Hh.
  destruct (not_batch_0 e) eqn:Hb.
  - unfold handleSnapshot_finally. simpl. rewrite Hh, Hl. simpl. split; [done|].
    split; [done|lia].
  - destruct He as [He|He]; [congruence|].
    unfold handleSnapshot_resume, handleSnapshot_finally. simpl.
    rewrite Hl, He. simpl. split; [done|]. split; [done|lia].
Qed.

(** X17.  Handled one at a time, the batch-0 events of a store's initial
    replay are accumulated, and the store's latch resolves at the committed
    terminated batch-0 event, not before: the SyncDocMap then holds the
    documents of all the events up to it, and whatever the store delivers
    afterwards neither changes the SyncDocMap nor the latch. *)
Theorem initial_latch_resolves_at_terminated_batch es e es' :
  Forall (λ e, not_batch_0 e = false ∧ committed_terminated e = false) es →
  not_batch_0 e = false →
  committed_terminated e = true →
  latch (replay es) = false ∧
  latch (replay (es ++ [e])) = true ∧
  syncDocMap (replay (es ++ [e])) = putAll ∅ ((es ++ [e]) ≫= toSyncDocs) ∧
  latch (replay ((es ++ [e]) ++ es')) = true ∧
  syncDocMap (replay ((es ++ [e]) ++ es')) = syncDocMap (replay (es ++ [e])).
Proof.
  intros Hes Hb Ht. pose proof (replay_accumulates es Hes) as Hr.
  assert (replay (es ++ [e]) =
          mkInitialSnapshotLatch (putAll ∅ ((es ++ [e]) ≫= toSyncDocs)) true true 0) as He.
  { rewrite replay_snoc, Hr. unfold handleSnapshot, handleSnapshot_enter. simpl.
    rewrite Hb. unfold handleSnapshot_resume, handleSnapshot_finally. simpl.
    rewrite Ht. simpl. rewrite putAll_app, bind_app. simpl. by rewrite app_nil_r. }
  split; [by rewrite Hr|]. split; [by rewrite He|]. split; [by rewrite He|].
  assert (replay ((es ++ [e]) ++ es') = foldl handleSnapshot (replay (es ++ [e])) es')
    as -> by apply foldl_app.
  destruct (foldl_after_terminated (replay (es ++ [e])) es') as (_ & H2 & H3);
    [by rewrite He..|done].
Qed.

(** X18.  An event that [handleSnapshot] ignores still runs its [finally]
    block: when a store delivers an event without a batch, or of a batch
    other than 0, before the committed terminated batch-0 event, the counter
    of pending calls drops below zero and, with the events handled one at a
    time, the store's latch is never resolved, whatever the store delivers
    afterwards. *)
Theorem initial_latch_never_resolves_after_stray_event es e0 es' :
  Forall (λ e, not_batch_0 e = true ∨ committed_terminated e = false) es →
  not_batch_0 e0 = true →
  latch (replay (es ++ e0 :: es')) = false.
Proof.
  intros Hes Hb. destruct (replay_before_terminated es Hes) as (Hh & Hl & Hp).
  unfold replay. rewrite foldl_app. fold (replay es). simpl.
  apply foldl_pending_negative.
  - unfold handleSnapshot, handleSnapshot_enter. rewrite Hh, Hb.
    unfold handleSnapshot_finally. simpl. lia.
  - unfold handleSnapshot, handleSnapshot_enter. rewrite Hh, Hb.
    unfold handleSnapshot_finally. simpl. by rewrite Hh, Hl.
Qed.

(** ** The phases of a snapshot session *)

(** X13.  A snapshot that is not the primary one never synchronizes: whatever
    the stores deliver, it asks for no reconciliation of the origins, no
    transfer and no deletion. *)
Theorem secondary_snapshot_never_synchronizes deduplicate i ls :
  effects (srun deduplicate (snapshot false i) ls) = [].
Proof.
  pose proof (srun_PhaseInv deduplicate _ ls (snapshot_PhaseInv false i)) as [_ H _].
  pose proof (srun_isPrimarySnapshot deduplicate (snapshot false i) ls) as Hp.
  simpl in Hp. rewrite Hp in H.
  destruct (main _); try tauto. destruct H as (_ & _ & _ & H & _). done.
Qed.


(** X15.  [snapshot] returns only when the initial synchronization is over:
    both stores' latches are resolved, both stores' snapshot promises have
    resolved, the initial sync is marked completed and, on the primary
    snapshot, the reconciliation of the two origins has been asked for. *)
Theorem snapshot_returns_after_initial_sync deduplicate primary i ls r :
  let σ := srun deduplicate (snapshot primary i) ls in
  main σ = returned r →
  initialSyncCompleted σ = true ∧
  (∀ x, hasInitialTerminatedBatch (initialSnapshotLatch σ x) = true) ∧
  (∀ x, is_Some (snapshotResult σ x)) ∧
  (primary = true → initial_sync_first (effects σ)).
Proof.
  intros σ Hm.
  pose proof (srun_PhaseInv deduplicate _ ls (snapshot_PhaseInv primary i)) as [H1 H2 H3].
  pose proof (srun_isPrimarySnapshot deduplicate (snapshot primary i) ls) as Hp.
  simpl in Hp. fold σ in H1, H2, H3, Hp. rewrite Hm in H2, H3. rewrite Hp in H2.
  destruct H2 as (Hl & Hc & Hs & He). split; [done|].
  split; [intros []; by apply H1|]. split; [intros []; tauto|].
  intros ->. done.
Qed.

(** X16.  On the primary snapshot the reconciliation of the two origins comes
    first and is asked for once, with the local origin first: until the
    initial sync is completed nothing else is asked for, and whatever is
    asked for afterwards is no reconciliation. *)
Theorem reconciliation_comes_first_and_once deduplicate i ls :
  let σ := srun deduplicate (snapshot true i) ls in
  (effects σ = [] ∨ initial_sync_first (effects σ)) ∧
  (initialSyncCompleted σ = false → length (effects σ) ≤ 1).
Proof.
  intros σ.
  pose proof (srun_PhaseInv deduplicate _ ls (snapshot_PhaseInv true i)) as [_ H _].
  pose proof (srun_isPrimarySnapshot deduplicate (snapshot true i) ls) as Hp.
  simpl in Hp. fold σ in H, Hp. rewrite Hp in H.
  destruct (main σ).
  - destruct H as (_ & _ & ->). split; [by left|simpl; lia].
  - destruct H as (_ & _ & ->). split; [by left|simpl; lia].
  - destruct H as (_ & _ & _ & _ & ml & mc & ->). split; [|simpl; lia].
    right. exists ml, mc, []. by split.
  - destruct H as (_ & _ & -> & H). split; [by right|done].
  - destruct H as (_ & _ & -> & H). split; [by right|done].
  - destruct H as (_ & _ & -> & H). split; [by right|done].
Qed.

(** ** handleSnapshotSynchronization *)




(** *** Witnesses *)

Lemma initial_latch_resolves_at_terminated_batch_witness :
  latch (replay [initial_event]) = false ∧
  latch (replay ([initial_event] ++ [terminated_event])) = true ∧
  syncDocMap (replay ([initial_event] ++ [terminated_event])) =
    putAll ∅ (([initial_event] ++ [terminated_event]) ≫= toSyncDocs) ∧
  latch (replay (([initial_event] ++ [terminated_event]) ++ [later_event])) = true ∧
  syncDocMap (replay (([initial_event] ++ [terminated_event]) ++ [later_event])) =
    syncDocMap (replay ([initial_event] ++ [terminated_event])).
Proof.
  apply (initial_latch_resolves_at_terminated_batch [initial_event] terminated_event
           [later_event]).
  - by repeat constructor.
  - reflexivity.
  - reflexivity.
Defined.

Lemma initial_latch_never_resolves_after_stray_event_witness :
  latch (replay ([initial_event] ++ later_event :: [terminated_event])) = false.
Proof.
  apply (initial_latch_never_resolves_after_stray_event [initial_event] later_event
           [terminated_event]).
  - constructor; [by right|constructor].
  - reflexivity.
Defined.


Lemma snapshot_returns_after_initial_sync_witness :
  let σ := srun deduplicate_spec (snapshot true ∅) labels_initial_sync in
  initialSyncCompleted σ = true ∧
  (∀ x, hasInitialTerminatedBatch (initialSnapshotLatch σ x) = true) ∧
  (∀ x, is_Some (snapshotResult σ x)) ∧
  (true = true → initial_sync_first (effects σ)).
Proof.
  apply (snapshot_returns_after_initial_sync deduplicate_spec true ∅ labels_initial_sync
           (mkSnapshotResult (Some (cancel cloud)))).
  by vm_compute.
Defined.


Import Promises.
Import Mutations(value(..), outcome(..), pstate(..)).

(** * Facts about the promise plumbing *)

Section PromiseFacts.

Context {pid reaction call : Type} `{!EqDecision pid}.
Implicit Types w : @world pid reaction call.
Implicit Types p q : pid.

Lemma world_grows_refl w : grows w w.
Proof. by split. Qed.

Lemma world_grows_trans w1 w2 w3 : grows w1 w2 → grows w2 w3 → grows w1 w3.
Proof. intros [A B C] [A' B' C']. split; eauto. Qed.

Lemma world_grows_not_pending w w' p : grows w w' → pst w p ≠ Pending → pst w' p ≠ Pending.
Proof.
  intros [G _ _] Hp. destruct (pst w p) as [|o] eqn:E; [done|]. by rewrite (G p o E).
Qed.

Lemma world_ext_refl w : ext w w.
Proof. split; [apply world_grows_refl|done|]. intros p r Hp H. by rewrite Hp. Qed.

Lemma world_ext_trans w1 w2 w3 : ext w1 w2 → ext w2 w3 → ext w1 w3.
Proof.
  intros [G Q R] [G' Q' R']. split; [by eapply world_grows_trans|eauto|].
  intros p r Hp H. specialize (R p r Hp H).
  destruct (pst w2 p) as [|o2] eqn:Hp2; [by apply R'|].
  rewrite (grows_pst _ _ G' p o2 Hp2). by apply Q'.
Qed.

Lemma world_ext_not_pending w w' p : ext w w' → pst w p ≠ Pending → pst w' p ≠ Pending.
Proof.
  intros [G _ _] Hp. destruct (pst w p) as [|o] eqn:E; [done|].
  by rewrite (grows_pst _ _ G p o E).
Qed.

Lemma world_pst_settle_eq p o w : pst w p = Pending → pst (settle p o w) p = Settled o.
Proof. intros H. unfold settle. rewrite H. simpl. by rewrite fn_lookup_insert. Qed.

Lemma world_pst_settle_ne p o w q : q ≠ p → pst (settle p o w) q = pst w q.
Proof.
  intros H. unfold settle. destruct (pst w p); [|done]. simpl.
  by rewrite fn_lookup_insert_ne.
Qed.

Lemma world_settle_not_pending p o w : pst (settle p o w) p ≠ Pending.
Proof.
  destruct (pst w p) eqn:H; [by rewrite world_pst_settle_eq|].
  unfold settle. by rewrite H, H.
Qed.

Lemma world_pst_register p r w : pst (register p r w) = pst w.
Proof. unfold register. by destruct (pst w p). Qed.

Lemma world_calls_settle p o w : calls (settle p o w) = calls w.
Proof. unfold settle. by destruct (pst w p). Qed.

Lemma world_calls_register p r w : calls (register p r w) = calls w.
Proof. unfold register. by destruct (pst w p). Qed.

Lemma world_logged_settle p o w : logged (settle p o w) = logged w.
Proof. unfold settle. by destruct (pst w p). Qed.

Lemma world_logged_register p r w : logged (register p r w) = logged w.
Proof. unfold register. by destruct (pst w p). Qed.

Lemma world_settle_ext p o w : ext w (settle p o w).
Proof.
  unfold settle. destruct (pst w p) eqn:Hp; [|apply world_ext_refl].
  split; [split|..]; simpl; auto.
  - intros q o' Hq. rewrite fn_lookup_insert_ne; [done|]. congruence.
  - intros j Hj. apply elem_of_app. by left.
  - intros q r Hq Hr. destruct (decide (q = p)) as [->|Hne].
    + rewrite fn_lookup_insert.
      apply elem_of_app. right. apply (list_elem_of_fmap_2 (λ x, (x.2, o)) _ (p, r)).
      by apply list_elem_of_filter.
    + rewrite fn_lookup_insert_ne, Hq by done. by apply list_elem_of_filter.
Qed.

Lemma world_register_ext p r w : ext w (register p r w).
Proof.
  unfold register. destruct (pst w p) eqn:Hp; (split; [by split|..]); simpl; auto.
  - intros q r' Hq H. rewrite Hq. apply elem_of_app. by left.
  - intros j H. apply elem_of_app. by left.
  - intros q r' Hq H. by rewrite Hq.
Qed.

Lemma world_call_ext (c : call) w : ext w (call_ c w).
Proof.
  split; [split|..]; simpl; auto.
  - intros c' H. apply elem_of_app. by left.
  - intros q r Hq H. by rewrite Hq.
Qed.

Lemma world_log_error_ext msg err w : ext w (log_error msg err w).
Proof.
  split; [split|..]; simpl; auto.
  - intros x H. apply elem_of_app. by left.
  - intros q r Hq H. by rewrite Hq.
Qed.

Lemma world_pop_grows (rest : list (reaction * outcome)) w : grows w (pop rest w).
Proof. by split. Qed.

Lemma world_seq_ext (m1 m2 : M) w :
  (∀ w, ext w (m1 w)) → (∀ w, ext w (m2 w)) → ext w ((m1 ⨾ m2) w).
Proof. intros H1 H2. eapply world_ext_trans; [apply H1|apply H2]. Qed.

(** ** The work left never grows *)

Lemma world_sum_filter {A} (f : A → nat) (P : A → Prop) `{!∀ x, Decision (P x)} (l : list A) :
  sum_list_with f (filter P l) + sum_list_with f (filter (λ x, ¬ P x) l) =
  sum_list_with f l.
Proof.
  induction l as [|a l IH]; [done|]. destruct (decide (P a)).
  - rewrite filter_cons_True, (filter_cons_False (λ x, ¬ P x)) by tauto. simpl. lia.
  - rewrite filter_cons_False, (filter_cons_True (λ x, ¬ P x)) by tauto. simpl. lia.
Qed.

Section WorldTotals.

Variable weight : reaction → nat.

Lemma world_total_settle p o w : total weight (settle p o w) = total weight w.
Proof.
  unfold settle. destruct (pst w p); [|done]. unfold total. simpl.
  rewrite sum_list_with_app.
  assert (sum_list_with (λ j : reaction * outcome, weight j.1)
            ((λ x : pid * reaction, (x.2, o)) <$> filter (λ x, x.1 = p) (rx w)) =
          sum_list_with (λ x : pid * reaction, weight x.2) (filter (λ x, x.1 = p) (rx w)))
    as ->.
  { induction (filter _ (rx w)) as [|a l IH]; [done|]. simpl. f_equal. exact IH. }
  pose proof (world_sum_filter (λ x : pid * reaction, weight x.2) (λ x, x.1 = p) (rx w)) as H.
  simpl in H. lia.
Qed.

Lemma world_total_register p r w : total weight (register p r w) = total weight w + weight r.
Proof.
  unfold register. destruct (pst w p); unfold total; simpl;
    rewrite sum_list_with_app; simpl; lia.
Qed.

Lemma world_total_call (c : call) w : total weight (call_ c w) = total weight w.
Proof. done. Qed.

Lemma world_total_log_error msg err w : total weight (log_error msg err w) = total weight w.
Proof. done. Qed.

Lemma world_total_pop r o (rest : list (reaction * outcome)) w :
  queue w = (r, o) :: rest → total weight (pop rest w) + weight r = total weight w.
Proof. intros H. unfold total. rewrite H. simpl. lia. Qed.

Variable react : reaction → outcome → @M pid reaction call.
Variable owned : @world pid reaction call → pid → bool.

Lemma world_run_app w sched1 sched2 :
  run react owned w (sched1 ++ sched2) = run react owned (run react owned w sched1) sched2.
Proof. apply foldl_app. Qed.

Lemma world_run_snoc w sched a :
  run react owned w (sched ++ [a]) = step react owned (run react owned w sched) a.
Proof. by rewrite world_run_app. Qed.

Lemma world_run_quiescent w n : queue w = [] → run react owned w (replicate n tick) = w.
Proof. intros Hq. induction n as [|n IH]; [done|]. simpl. by rewrite Hq. Qed.

Hypothesis weight_pos : ∀ r, 1 ≤ weight r.
Hypothesis total_react : ∀ r o w, total weight (react r o w) + 1 ≤ total weight w + weight r.

Lemma world_total_tick w :
  queue w ≠ [] → total weight (step react owned w tick) < total weight w.
Proof.
  simpl. destruct (queue w) as [|[r o] rest] eqn:Hq; [done|]. intros _.
  pose proof (total_react r o (pop rest w)). pose proof (world_total_pop r o rest w Hq). lia.
Qed.

Lemma world_drain_fuel n w :
  total weight w ≤ n → queue (run react owned w (replicate n tick)) = [].
Proof.
  revert w. induction n as [|n IH]; intros w Hm.
  - simpl. destruct (queue w) as [|[r o] rest] eqn:Hq; [done|].
    pose proof (world_total_pop r o rest w Hq). pose proof (weight_pos r). lia.
  - destruct (queue w) as [|j rest] eqn:Hq.
    + by rewrite world_run_quiescent.
    + change (replicate (S n) tick) with (@tick pid :: replicate n tick).
      change (run react owned w (tick :: replicate n tick))
        with (run react owned (step react owned w tick) (replicate n tick)).
      apply IH. assert (queue w ≠ []) as Hne by (by rewrite Hq).
      pose proof (world_total_tick w Hne). lia.
Qed.

Lemma world_drain_quiescent w : quiescent (drain react owned weight w).
Proof. by apply world_drain_fuel. Qed.

End WorldTotals.

(** ** The invariant *)

Section InvFacts.

Variable source : reaction → pid.
Variable allowed : reaction → Prop.
Variable justified : @world pid reaction call → @fact pid call → Prop.

Hypothesis justified_mono : ∀ w w' f, grows w w' → justified w f → justified w' f.

Lemma world_empty_PInv : PInv source allowed justified empty.
Proof.
  split; simpl; try (by intros ?? ?%elem_of_nil).
  intros [p o|c|msg err]; simpl; [done|by intros ?%elem_of_nil..].
Qed.

Lemma world_settle_PInv p o w :
  PInv source allowed justified w →
  (pst w p = Pending → justified (settle p o w) (settled p o)) →
  PInv source allowed justified (settle p o w).
Proof.
  intros I J. destruct (pst w p) as [|o'] eqn:Hp; cycle 1.
  { unfold settle. by rewrite Hp. }
  specialize (J eq_refl). pose proof (world_settle_ext p o w) as E.
  destruct I as [I1 I2 I3]. split.
  - intros q r. unfold settle. rewrite Hp. simpl.
    intros [Hne Hr]%list_elem_of_filter. simpl in Hne.
    rewrite fn_lookup_insert_ne by done. by apply I1.
  - intros r o0. unfold settle at 1. rewrite Hp. simpl.
    intros [Hq|Hn]%elem_of_app.
    + destruct (I2 r o0 Hq) as [H1 H2]. split; [|done].
      by apply (grows_pst _ _ (ext_grows _ _ E)).
    + apply list_elem_of_fmap in Hn as ([q r'] & [= -> ->] & [Hq Hr]%list_elem_of_filter).
      simpl in Hq. subst q. destruct (I1 p r' Hr) as (-> & _ & Ha). split; [|done].
      by apply world_pst_settle_eq.
  - intros [q o0|c|msg err]; simpl.
    + destruct (decide (q = p)) as [->|Hne].
      * rewrite world_pst_settle_eq by done. by intros [= <-].
      * rewrite world_pst_settle_ne by done. intros H.
        apply (justified_mono w); [apply E|]. by apply (I3 (settled q o0)).
    + rewrite world_calls_settle. intros H.
      apply (justified_mono w); [apply E|]. by apply (I3 (called c)).
    + rewrite world_logged_settle. intros H.
      apply (justified_mono w); [apply E|]. by apply (I3 (logged_error msg err)).
Qed.

Lemma world_register_PInv p r w :
  PInv source allowed justified w → source r = p → allowed r →
  PInv source allowed justified (register p r w).
Proof.
  intros [I1 I2 I3] Hs Ha. pose proof (world_register_ext p r w) as E. split.
  - intros q r'. rewrite world_pst_register. unfold register.
    destruct (pst w p) eqn:Hp; simpl; [|apply I1].
    intros [H|H%list_elem_of_singleton]%elem_of_app; [by apply I1|].
    injection H as -> ->. done.
  - intros r' o. rewrite world_pst_register. unfold register.
    destruct (pst w p) eqn:Hp; simpl; [apply I2|].
    intros [H|H%list_elem_of_singleton]%elem_of_app; [by apply I2|].
    injection H as -> ->. by subst.
  - intros f H. apply (justified_mono w); [apply E|]. apply I3.
    destruct f; simpl in *;
      by rewrite ?world_pst_register, ?world_calls_register, ?world_logged_register in H.
Qed.

Lemma world_call_PInv (c : call) w :
  PInv source allowed justified w → justified (call_ c w) (called c) →
  PInv source allowed justified (call_ c w).
Proof.
  intros [I1 I2 I3] J. split; [done..|].
  intros [q o|c'|msg err]; simpl.
  - intros H. apply (justified_mono w); [apply world_call_ext|]. by apply (I3 (settled q o)).
  - intros [H|H%list_elem_of_singleton]%elem_of_app; [|by subst].
    apply (justified_mono w); [apply world_call_ext|]. by apply (I3 (called c')).
  - intros H. apply (justified_mono w); [apply world_call_ext|].
    by apply (I3 (logged_error msg err)).
Qed.

Lemma world_log_error_PInv msg err w :
  PInv source allowed justified w → justified (log_error msg err w) (logged_error msg err) →
  PInv source allowed justified (log_error msg err w).
Proof.
  intros [I1 I2 I3] J. split; [done..|].
  intros [q o|c'|msg' err']; simpl.
  - intros H. apply (justified_mono w); [apply world_log_error_ext|]. by apply (I3 (settled q o)).
  - intros H. apply (justified_mono w); [apply world_log_error_ext|]. by apply (I3 (called c')).
  - intros [H|H%list_elem_of_singleton]%elem_of_app; [|by injection H as -> ->].
    apply (justified_mono w); [apply world_log_error_ext|].
    by apply (I3 (logged_error msg' err')).
Qed.

Lemma world_pop_PInv j (rest : list (reaction * outcome)) w :
  queue w = j :: rest → PInv source allowed justified w →
  PInv source allowed justified (pop rest w).
Proof.
  intros Hq [I1 I2 I3]. split; simpl; [done| |].
  - intros r o H. apply I2. rewrite Hq. by right.
  - intros f H. apply (justified_mono w); [apply world_pop_grows|]. apply I3. by destruct f.
Qed.

End InvFacts.

Section StepFacts.

Variable source : reaction → pid.
Variable allowed : reaction → Prop.
Variable justified : @world pid reaction call → @fact pid call → Prop.
Variable registered : @world pid reaction call → reaction → Prop.
Variable fired : @world pid reaction call → reaction → outcome → Prop.
Variable react : reaction → outcome → @M pid reaction call.
Variable owned : @world pid reaction call → pid → bool.

Hypothesis Hsound : sound source allowed justified registered fired react owned.

Lemma world_wired_ext w w' r :
  ext w w' → wired source fired w r → wired source fired w' r.
Proof.
  intros E. unfold wired. destruct (pst w (source r)) as [|o] eqn:Hp.
  - intros H. pose proof (ext_rx _ _ E _ _ Hp H) as H'.
    destruct (pst w' (source r)); [done|by left].
  - rewrite (grows_pst _ _ (ext_grows _ _ E) _ _ Hp). intros [H|H].
    + left. by apply E.
    + right. eapply (sound_fired _ _ _ _ _ _ _ Hsound); [apply E|done].
Qed.

Lemma world_step_Inv w a :
  Inv source allowed justified registered fired w →
  Inv source allowed justified registered fired (step react owned w a).
Proof.
  intros [I F]. destruct a as [|p o]; simpl.
  - destruct (queue w) as [|[r0 o0] rest] eqn:Hq; [done|].
    set (w0 := pop rest w).
    assert (pst w0 (source r0) = Settled o0 ∧ allowed r0) as [J A].
    { apply (inv_queue _ _ _ _ I). rewrite Hq. by left. }
    assert (PInv source allowed justified w0) as I0.
    { apply (world_pop_PInv _ _ _ (sound_justified _ _ _ _ _ _ _ Hsound) (r0, o0)); done. }
    pose proof (sound_ext _ _ _ _ _ _ _ Hsound r0 o0 w0) as E.
    split; [by apply (sound_PInv _ _ _ _ _ _ _ Hsound)|].
    intros r Hr.
    destruct (sound_react_registered _ _ _ _ _ _ _ Hsound r0 o0 w0 r I0 J A Hr) as [Hr0|Hw];
      [|done].
    assert (wired source fired w r) as Hw.
    { apply F. by apply (sound_registered _ _ _ _ _ _ _ Hsound w w0). }
    revert Hw. unfold wired at 1. destruct (pst w (source r)) as [|o] eqn:Hp.
    + intros H. apply (world_wired_ext w0); [done|]. unfold wired. simpl. by rewrite Hp.
    + rewrite Hq. intros [[H|H]%elem_of_cons|H].
      * injection H as -> ->. unfold wired.
        rewrite (grows_pst _ _ (ext_grows _ _ E) (source r0) o0 J). right.
        by apply (sound_react_fired _ _ _ _ _ _ _ Hsound).
      * apply (world_wired_ext w0); [done|]. unfold wired. simpl. rewrite Hp. by left.
      * apply (world_wired_ext w0); [done|]. unfold wired. simpl. rewrite Hp. right.
        eapply (sound_fired _ _ _ _ _ _ _ Hsound); [apply world_pop_grows|done].
  - destruct (owned w p) eqn:Ho; [|done]. split.
    + apply world_settle_PInv; [apply Hsound|done|].
      intros Hp. by apply (sound_owned _ _ _ _ _ _ _ Hsound).
    + intros r Hr. apply (world_wired_ext w); [apply world_settle_ext|]. apply F.
      apply (sound_registered _ _ _ _ _ _ _ Hsound w (settle p o w)); [|done].
      apply world_calls_settle.
Qed.

Lemma world_run_Inv w sched :
  Inv source allowed justified registered fired w →
  Inv source allowed justified registered fired (run react owned w sched).
Proof.
  revert w. induction sched as [|a sched IH]; intros w I; [done|].
  simpl. by apply IH, world_step_Inv.
Qed.

Lemma world_step_grows w a : grows w (step react owned w a).
Proof.
  destruct a as [|p o]; simpl.
  - destruct (queue w) as [|[r o] rest]; [apply world_grows_refl|].
    eapply world_grows_trans; [apply world_pop_grows|]. apply (sound_ext _ _ _ _ _ _ _ Hsound).
  - destruct (owned w p); [apply world_settle_ext|apply world_grows_refl].
Qed.

Lemma world_run_grows w sched : grows w (run react owned w sched).
Proof.
  revert w. induction sched as [|a sched IH]; intros w; [apply world_grows_refl|].
  simpl. eapply world_grows_trans; [apply world_step_grows|apply IH].
Qed.

(** In a quiescent state every installed reaction on a settled promise has
    run. *)
Lemma world_quiescent_fired w r o :
  Inv source allowed justified registered fired w → quiescent w → registered w r →
  pst w (source r) = Settled o → fired w r o.
Proof.
  intros [_ F] Q Hr Hp. specialize (F r Hr). unfold wired in F.
  rewrite Hp, Q in F. destruct F as [F|F]; [by apply elem_of_nil in F|done].
Qed.

End StepFacts.

End PromiseFacts.

Import Promises.
Import Files.
Import Mutations(value(..), outcome(..), pstate(..)).
Import Snapshot(CloudDatastoreID(..)).

(** * Verification of the file and read operations *)

Section FileFacts.

Variable op : operation.

Lemma files_justified_grows w w' f : grows w w' → justified op w f → justified op w' f.
Proof.
  intros [G1 G2 G3]. destruct f as [[x| |] o|[x op']|msg err]; simpl.
  - intros H. apply list_elem_of_fmap in H as ([y o'] & -> & H).
    apply list_elem_of_fmap. exists (y, o'). split; [done|by apply G2].
  - done.
  - intros [H|(Hd & err & -> & H)]; [left|right]; eauto 6.
  - intros [-> H]. split; [done|]. destruct x; [|done].
    intros Hd. destruct (H Hd) as [v Hv]. eauto.
  - intros [-> H]. eauto.
Qed.

Lemma files_fired_grows w w' r o : grows w w' → fired op w r o → fired op w' r o.
Proof.
  intros [G1 G2 G3]. destruct r, o; simpl; try done; try (by apply G2); try (by apply G3).
  - intros H. destruct (pst w op_result) as [|o'] eqn:E; [done|]. by rewrite (G1 _ _ E).
  - intros H. destruct (pst w op_result) as [|o'] eqn:E; [done|]. by rewrite (G1 _ _ E).
  - intros H. destruct (pst w op_result) as [|o'] eqn:E; [done|]. by rewrite (G1 _ _ E).
Qed.

Lemma files_react_ext r o w : ext w (react op r o w).
Proof.
  destruct r, o; simpl; unfold call_store;
    repeat first
      [ apply world_settle_ext | apply world_register_ext | apply world_call_ext
      | apply world_log_error_ext
      | match goal with |- ext _ ((_ ⨾ _) _) => apply world_seq_ext; intros end ].
Qed.

Lemma files_react_PInv r o w :
  PInv source (allowed op) (justified op) w → pst w (source r) = Settled o →
  allowed op r → PInv source (allowed op) (justified op) (react op r o w).
Proof.
  intros I J A. destruct r, o; simpl in *; unfold call_store, seq.
  - apply world_settle_PInv; [apply files_justified_grows|done|]. intros _. simpl. left.
    by rewrite world_pst_settle_ne.
  - apply world_settle_PInv; [apply files_justified_grows|done|]. intros _. simpl. left.
    by rewrite world_pst_settle_ne.
  - by apply world_settle_PInv; [apply files_justified_grows|..].
  - apply world_settle_PInv; [apply files_justified_grows| |done].
    apply world_log_error_PInv; [apply files_justified_grows|done|]. done.
  - apply world_register_PInv; [apply files_justified_grows| |done|].
    + apply world_call_PInv; [apply files_justified_grows|done|]. simpl. eauto.
    + simpl. destruct op; simpl in *; tauto.
  - apply world_settle_PInv; [apply files_justified_grows|done|]. intros _. simpl. right.
    split; [done|]. exists err. split; [done|]. by rewrite world_pst_settle_ne.
Qed.

Lemma files_react_fired r o w :
  PInv source (allowed op) (justified op) w → pst w (source r) = Settled o →
  allowed op r → fired op (react op r o w) r o.
Proof.
  intros _ _ _. destruct r, o; simpl; unfold call_store, seq; try done;
    try apply world_settle_not_pending.
  - rewrite world_logged_settle. simpl. apply elem_of_app. right. by apply list_elem_of_singleton.
  - rewrite world_calls_register. simpl. apply elem_of_app. right. by apply list_elem_of_singleton.
Qed.

Lemma files_register_wired r w :
  wired source (fired op) (register (source r) r w) r.
Proof.
  unfold wired. rewrite world_pst_register. unfold register.
  destruct (pst w (source r)); simpl.
  - apply elem_of_app. right. by apply list_elem_of_singleton.
  - left. apply elem_of_app. right. by apply list_elem_of_singleton.
Qed.

Lemma files_react_registered r o w r' :
  PInv source (allowed op) (justified op) w → pst w (source r) = Settled o →
  allowed op r → registered op (react op r o w) r' →
  registered op w r' ∨ wired source (fired op) (react op r o w) r'.
Proof.
  intros _ _ A. destruct r, o; simpl; unfold call_store, seq;
    try (destruct r'; simpl; rewrite ?world_calls_settle; by left).
  destruct r'; simpl; [|by left..]. intros _. right.
  apply (files_register_wired R_return).
Qed.

Lemma files_sound :
  sound source (allowed op) (justified op) (registered op) (fired op) (react op) owned.
Proof.
  split.
  - apply files_justified_grows.
  - apply files_fired_grows.
  - intros w w' r Hc. destruct r; simpl; by rewrite ?Hc.
  - apply files_react_ext.
  - apply files_react_PInv.
  - apply files_react_fired.
  - apply files_react_registered.
  - intros w [x| |] o I Ho Hp; simpl in *; [|done..].
    rewrite world_calls_settle. by apply bool_decide_eq_true in Ho.
Qed.

End FileFacts.

Lemma files_init_Inv op : Inv op (init op).
Proof.
  split.
  - unfold init, start, call_store, seq.
    pose proof (world_empty_PInv source (allowed op) (justified op)
                  (pid := pid) (reaction := reaction) (call := call)) as I0.
    destruct op; simpl;
      repeat first
        [ apply world_register_PInv; [apply files_justified_grows| |done|simpl; by auto]
        | apply world_call_PInv; [apply files_justified_grows| |simpl; by auto] ];
      done.
  - intros r Hr. destruct op, r; simpl in Hr; try tauto; unfold wired; simpl;
      first [ by repeat constructor
            | exfalso; destruct Hr as [_ Hr]; specialize (Hr Logic.I);
              by apply list_elem_of_singleton in Hr ].
Qed.

Lemma files_reachable_Inv op sched : Inv op (execution op sched).
Proof. apply (world_run_Inv _ _ _ _ _ _ _ (files_sound op)), files_init_Inv. Qed.

Section FileRuns.

Variable op : operation.

Lemma files_weight_pos r : 1 ≤ weight r.
Proof. destruct r; simpl; lia. Qed.

Lemma files_total_weight_react r o w :
  total weight (react op r o w) + 1 ≤ total weight w + weight r.
Proof.
  destruct r, o; simpl; unfold call_store, seq;
    rewrite ?world_total_settle, ?world_total_register, ?world_total_call,
      ?world_total_log_error; simpl; lia.
Qed.

Lemma files_drain_quiescent w : quiescent (drain op w).
Proof. apply world_drain_quiescent; [apply files_weight_pos|apply files_total_weight_react]. Qed.

Lemma files_drain_Inv sched : Inv op (drain op (execution op sched)).
Proof.
  unfold drain, Promises.drain, execution, run. rewrite <- world_run_app. apply files_reachable_Inv.
Qed.

(** Microtasks never settle a store's promise. *)
Lemma files_react_store r o w x :
  pst (react op r o w) (store_promise x) = pst w (store_promise x).
Proof.
  destruct r, o; simpl; unfold call_store, seq;
    rewrite ?world_pst_register, ?world_pst_settle_ne; done.
Qed.

Lemma files_drain_store w x : pst (drain op w) (store_promise x) = pst w (store_promise x).
Proof.
  unfold drain, Promises.drain. generalize (total weight w). intros n. revert w.
  induction n as [|n IH]; intros w; [done|]. simpl. rewrite IH.
  destruct (queue w) as [|[r o] rest]; [done|]. by rewrite files_react_store.
Qed.

Lemma files_total_awaits_react r o w : total awaits (react op r o w) = total awaits w.
Proof.
  destruct r, o; simpl; unfold call_store, seq;
    rewrite ?world_total_settle, ?world_total_register, ?world_total_call,
      ?world_total_log_error; simpl; lia.
Qed.

Lemma files_total_catches_react r o w : total catches (react op r o w) = total catches w.
Proof.
  destruct r, o; simpl; unfold call_store, seq;
    rewrite ?world_total_settle, ?world_total_register, ?world_total_call,
      ?world_total_log_error; simpl; lia.
Qed.

Lemma files_step_CountInv w a : CountInv op w → CountInv op (step op w a).
Proof.
  intros [(n & Hc & Hn) Hl]. destruct a as [|p o]; simpl.
  - destruct (queue w) as [|[r o] rest] eqn:Hq; [by split; [exists n|]|].
    pose proof (world_total_pop awaits r o rest w Hq) as Ha.
    pose proof (world_total_pop catches r o rest w Hq) as Hk.
    split.
    + rewrite files_total_awaits_react.
      assert ((r = R_await_cloud ∧ ∃ v, o = Fulfilled v) ∨
              ¬ (r = R_await_cloud ∧ ∃ v, o = Fulfilled v)) as [[-> [v ->]]|Hne].
      { destruct r, o; try (right; by intros [? [? ?]]). left. eauto. }
      * exists (S n). simpl in *. unfold call_store, seq.
        rewrite world_calls_register. simpl. rewrite Hc, <- app_assoc.
        split; [|lia]. f_equal. clear. induction n as [|n IH]; [done|].
        simpl. by rewrite IH.
      * exists n. split; [|destruct r; simpl in *; lia]. rewrite <- Hc.
        destruct r, o; simpl; unfold call_store, seq;
          rewrite ?world_calls_settle, ?world_calls_register; try done.
        destruct Hne. eauto.
    + rewrite files_total_catches_react.
      destruct r, o; simpl in *; unfold call_store, seq;
        rewrite ?world_logged_settle, ?world_logged_register; simpl;
          rewrite ?length_app; simpl; lia.
  - destruct (owned w p); [|by split; [exists n|]].
    split; [exists n|]; by rewrite ?world_calls_settle, ?world_logged_settle, world_total_settle.
Qed.

End FileRuns.

Lemma files_init_CountInv op : CountInv op (init op).
Proof.
  split; [exists 0; split; [by rewrite app_nil_r|]|]; by destruct op.
Qed.

Lemma files_reachable_CountInv op sched : CountInv op (execution op sched).
Proof.
  unfold execution, run.
  induction sched as [|a sched IH] using rev_ind; [apply files_init_CountInv|].
  rewrite world_run_snoc. by apply files_step_CountInv.
Qed.

Lemma files_drain_CountInv op sched : CountInv op (drain op (execution op sched)).
Proof.
  unfold drain, Promises.drain, execution, run. rewrite <- world_run_app.
  apply files_reachable_CountInv.
Qed.

(** The promise of an async method that returns the local store's promise
    settles as that promise does. *)
Lemma files_op_result_follows_local op w :
  Inv op w → quiescent w → registered op w R_return →
  (is_deleteFile op → ∀ err, pst w (store_promise cloud) ≠ Settled (Rejected err)) →
  pst w op_result = pst w (store_promise local).
Proof.
  intros HI HQ Hr Hc. pose proof HI as [I F].
  destruct (pst w (store_promise local)) as [|o] eqn:Hl.
  - destruct (pst w op_result) as [|o'] eqn:Ho; [done|].
    destruct (inv_facts _ _ _ _ I (settled op_result o') Ho) as [H|(Hd & err & -> & H)].
    + congruence.
    + by destruct (Hc Hd err).
  - pose proof (world_quiescent_fired _ _ _ _ _ w R_return o HI HQ Hr Hl) as Hf. simpl in Hf.
    destruct (pst w op_result) as [|o'] eqn:Ho; [done|].
    destruct (inv_facts _ _ _ _ I (settled op_result o') Ho) as [H|(Hd & err & -> & H)].
    + congruence.
    + by destruct (Hc Hd err).
Qed.

(** X10.  Reads are resolved by the local store alone: [contains],
    [getDocMeta], [getFile], [containsFile] and [getDocMetaFiles] call the
    local store's method of the same name with the same arguments, once, the
    cloud store never, and the promise they return settles as the local
    store's promise does. *)
Theorem reads_are_served_by_the_local_store op sched :
  is_read op →
  let w := execution op sched in
  calls w = [(local, op)] ∧
  pst (drain op w) (result op) = pst w (store_promise local).
Proof.
  intros Hr w.
  destruct (files_reachable_CountInv op sched) as [(n & Hc & Hn) _]. fold w in Hc, Hn.
  assert (n = 0) as -> by (destruct op; simpl in *; lia).
  split; [rewrite Hc; by destruct op|].
  assert (is_containsFile op ∨ ¬ is_containsFile op) as [Hcf|Hcf]
    by (destruct op; simpl; tauto).
  { assert (result op = store_promise local) as -> by (by destruct op).
    apply files_drain_store. }
  assert (result op = op_result) as -> by (by destruct op).
  rewrite <- (files_drain_store op w local).
  apply (files_op_result_follows_local op).
  - apply files_drain_Inv.
  - apply files_drain_quiescent.
  - split; [done|]. by destruct op.
  - by destruct op.
Qed.

(** X11.  [writeFile] writes to both stores but answers for the local one:
    both stores are called, once each, the local one first; the returned
    promise settles as the local store's promise does, whatever becomes of
    the cloud write; a failure of the cloud write is logged, once, and
    nothing else is. *)
Theorem writeFile_answers_for_the_local_write backend ref data meta sched :
  let op := writeFile backend ref data meta in
  let w := execution op sched in
  calls w = [(local, op); (cloud, op)] ∧
  pst (drain op w) op_result = pst w (store_promise local) ∧
  logged (drain op w) =
    match pst w (store_promise cloud) with
    | Settled (Rejected err) => [("Unable to write file to cloud: ", err)]
    | _ => []
    end.
Proof.
  intros op w.
  destruct (files_reachable_CountInv op sched) as [(n & Hc & Hn) _]. fold w in Hc, Hn.
  assert (n = 0) as -> by (simpl in *; lia).
  split; [by rewrite Hc|].
  pose proof (files_drain_Inv op sched) as HI. fold w in HI.
  pose proof (files_drain_quiescent op w) as HQ.
  split.
  { rewrite <- (files_drain_store op w local).
    apply (files_op_result_follows_local op); [done..| |by intros []].
    split; [by intros []|by intros []]. }
  destruct (files_drain_CountInv op sched) as [_ Hl]. fold w in Hl. simpl in Hl.
  pose proof HI as [I F].
  assert (∀ msg err, (msg, err) ∈ logged (drain op w) →
            msg = "Unable to write file to cloud: " ∧
            pst w (store_promise cloud) = Settled (Rejected err)) as Hj.
  { intros msg err H.
    destruct (inv_facts _ _ _ _ I (logged_error msg err) H) as [-> H'].
    by rewrite files_drain_store in H'. }
  destruct (pst w (store_promise cloud)) as [|[v|err]] eqn:Hp.
  - destruct (logged (drain op w)) as [|[msg e] l]; [done|].
    destruct (Hj msg e) as [_ [=]]. by left.
  - destruct (logged (drain op w)) as [|[msg e] l]; [done|].
    destruct (Hj msg e) as [_ [=]]. by left.
  - assert (pst (drain op w) (source R_cloud_catch) = Settled (Rejected err)) as Hp'.
    { simpl. by rewrite files_drain_store. }
    pose proof (world_quiescent_fired _ _ _ _ _ _ R_cloud_catch _ HI HQ Logic.I Hp') as Hf.
    simpl in Hf.
    destruct (logged (drain op w)) as [|x [|y l]]; simpl in Hl; [|..|lia].
    + by apply elem_of_nil in Hf.
    + by apply list_elem_of_singleton in Hf as ->.
Qed.

(** X12.  [deleteFile] deletes from the cloud store first: the local store is
    only called once the cloud store's promise has resolved, and once.  When
    the cloud deletion fails the local store is never called and the
    returned promise is rejected with the cloud store's error; when it
    succeeds the returned promise settles as the local store's promise
    does. *)
Theorem deleteFile_deletes_from_the_cloud_first backend ref sched :
  let op := deleteFile backend ref in
  let w := execution op sched in
  ((local, op) ∈ calls w → ∃ v, pst w (store_promise cloud) = Settled (Fulfilled v)) ∧
  match pst w (store_promise cloud) with
  | Pending =>
      calls (drain op w) = [(cloud, op)] ∧ pst (drain op w) op_result = Pending
  | Settled (Rejected err) =>
      calls (drain op w) = [(cloud, op)] ∧
      pst (drain op w) op_result = Settled (Rejected err)
  | Settled (Fulfilled _) =>
      calls (drain op w) = [(cloud, op); (local, op)] ∧
      pst (drain op w) op_result = pst w (store_promise local)
  end.
Proof.
  intros op w.
  assert (∀ w', Inv op w' → (local, op) ∈ calls w' →
            ∃ v, pst w' (store_promise cloud) = Settled (Fulfilled v)) as Hcall.
  { intros w' [I _] H.
    destruct (inv_facts _ _ _ _ I (called (local, op)) H) as [_ H']. by apply H'. }
  split; [apply Hcall, files_reachable_Inv|].
  pose proof (files_drain_Inv op sched) as HI. fold w in HI.
  pose proof (files_drain_quiescent op w) as HQ.
  destruct (files_drain_CountInv op sched) as [(n & Hc & Hn) _]. fold w in Hc, Hn.
  simpl in Hc, Hn.
  pose proof (files_drain_store op w cloud) as Hcloud.
  pose proof (files_drain_store op w local) as Hlocal.
  pose proof HI as [I F].
  assert (pst (drain op w) (store_promise local) ≠ Pending →
          (local, op) ∈ calls (drain op w)) as Hsettled.
  { intros H. destruct (pst (drain op w) (store_promise local)) as [|o] eqn:Ho; [done|].
    pose proof (inv_facts _ _ _ _ I (settled (store_promise local) o) Ho) as Hx.
    simpl in Hx. rewrite Hc in Hx |- *. destruct n as [|n]; simpl in *.
    - by apply list_elem_of_singleton in Hx.
    - right. by left. }
  assert (n = 0 ∨ n = 1) as [->| ->] by lia; simpl in Hc.
  - (* the local store has not been called *)
    assert ((local, op) ∉ calls (drain op w)) as Hno.
    { rewrite Hc. by intros ?%list_elem_of_singleton. }
    assert (pst (drain op w) (store_promise local) = Pending) as Hl.
    { destruct (pst (drain op w) (store_promise local)) eqn:E; [done|].
      destruct Hno. apply Hsettled. congruence. }
    destruct (pst w (store_promise cloud)) as [|[v|err]] eqn:Hp.
    + split; [done|]. destruct (pst (drain op w) op_result) as [|o] eqn:Ho; [done|].
      destruct (inv_facts _ _ _ _ I (settled op_result o) Ho)
        as [H|(_ & err & -> & H)]; congruence.
    + assert (pst (drain op w) (source R_await_cloud) = Settled (Fulfilled v)) as Hp'.
      { simpl. congruence. }
      by pose proof (world_quiescent_fired _ _ _ _ _ _ R_await_cloud _ HI HQ Logic.I Hp').
    + split; [done|].
      assert (pst (drain op w) (source R_await_cloud) = Settled (Rejected err)) as Hp'.
      { simpl. congruence. }
      pose proof (world_quiescent_fired _ _ _ _ _ _ R_await_cloud _ HI HQ Logic.I Hp') as Hf.
      simpl in Hf. destruct (pst (drain op w) op_result) as [|o] eqn:Ho; [done|].
      destruct (inv_facts _ _ _ _ I (settled op_result o) Ho)
        as [H|(_ & err' & -> & H)]; congruence.
  - (* the local store has been called *)
    destruct (Hcall _ HI) as [v Hv]; [rewrite Hc; right; by left|].
    rewrite Hcloud in Hv. rewrite Hv. split; [done|]. rewrite <- Hlocal.
    apply (files_op_result_follows_local op); [done..| |].
    + split; [by intros []|]. intros _. rewrite Hc. simpl. right. by left.
    + intros _ err. congruence.
Qed.

(** *** Witnesses *)

Lemma reads_are_served_by_the_local_store_witness :
  let w := execution (getDocMeta "0x001")
             [env (store_promise cloud) (Fulfilled VObject);
              env (store_promise local) (Fulfilled (VBool true))] in
  calls w = [(local, getDocMeta "0x001")] ∧
  pst (drain (getDocMeta "0x001") w) (result (getDocMeta "0x001")) =
    pst w (store_promise local).
Proof.
  by apply (reads_are_served_by_the_local_store (getDocMeta "0x001")
              [env (store_promise cloud) (Fulfilled VObject);
               env (store_promise local) (Fulfilled (VBool true))]).
Defined.

Import Promises.
Import Pipes.
Import Mutations(value(..), outcome(..), pstate(..), DatastoreConsistency(..)).

(** * Verification of handle and pipe *)

Section PipeFacts.

Variable c : DatastoreConsistency.
Variable converter : value → value + value.
Variable m : method.

Lemma pipes_justified_grows w w' f :
  grows w w' → justified c converter m w f → justified c converter m w' f.
Proof.
  intros [G1 G2 G3]. destruct f as [[|f'| | |f'|f'|f'] o|[]|msg err]; simpl; try done.
  - destruct o as [u|e]; [intros [v0 H]; eauto|eauto].
  - destruct o as [u|e].
    + intros (v0 & x & H & Hx). eauto.
    + intros [H|(v0 & H & Hx)]; eauto.
  - intros [Hk H]. split; [done|]. destruct m, o as [u|e]; try (by apply G1).
    + destruct H as (v0 & H & Hx). eauto.
    + destruct H as (v0 & H & Hx). eauto.
  - intros (-> & v0 & H & Hx). eauto.
Qed.

Lemma pipes_fired_grows w w' r o :
  grows w w' → fired c converter w r o → fired c converter w' r o.
Proof.
  intros G. pose proof (world_grows_not_pending w w') as N. specialize (λ p, N p G).
  destruct r, o; simpl; try done; try (by apply N).
  - intros [H1 H2]. split; [by apply N|].
    destruct (converter v); [|by apply (grows_logged _ _ G)].
    intros f Hf. apply N. by apply H2.
  - intros H f Hf. apply N. by apply H.
  - intros [H1 H2]. split; [by apply N|]. intros x Hx. apply N. by apply (H2 x).
Qed.

Lemma pipes_settle_target_ext o w : ext w (settle_target c o w).
Proof.
  unfold settle_target. apply world_seq_ext; intros; [apply world_settle_ext|].
  case_decide; [apply world_settle_ext|apply world_ext_refl].
Qed.

Lemma pipes_react_ext r o w : ext w (react c converter r o w).
Proof.
  destruct r, o; simpl; try destruct (converter _);
    repeat first
      [ apply world_settle_ext | apply world_log_error_ext | apply pipes_settle_target_ext
      | match goal with |- ext _ ((_ ⨾ _) _) => apply world_seq_ext; intros end ].
Qed.

Lemma pipes_settle_target_PInv o w :
  PInv source (allowed c m) (justified c converter m) w →
  (∀ f w', grows w w' → wired_kind c f →
     justified c converter m w' (settled (target_latch f) o)) →
  PInv source (allowed c m) (justified c converter m) (settle_target c o w).
Proof.
  intros I J. unfold settle_target, seq, skip.
  assert (PInv source (allowed c m) (justified c converter m)
            (settle (target_latch written) o w)) as I1.
  { apply world_settle_PInv; [apply pipes_justified_grows|done|]. intros _.
    apply J; [apply world_settle_ext|done]. }
  case_decide; [|exact I1].
  apply world_settle_PInv; [apply pipes_justified_grows|done|]. intros _.
  apply J; [|by intros _]. eapply world_grows_trans; apply world_settle_ext.
Qed.

Lemma pipes_react_PInv r o w :
  PInv source (allowed c m) (justified c converter m) w → pst w (source r) = Settled o →
  allowed c m r → PInv source (allowed c m) (justified c converter m) (react c converter r o w).
Proof.
  intros I J A. destruct r, o; simpl in *; unfold seq.
  - (* R_handle_then, fulfilled *)
    destruct (converter v) as [x|err] eqn:Hx.
    + apply world_settle_PInv; [apply pipes_justified_grows| |].
      * apply pipes_settle_target_PInv; [done|]. intros f w' G Hf. split; [done|].
        rewrite A. exists v. split; [by apply G|done].
      * intros _. simpl. exists v.
        apply (grows_pst w); [|done].
        eapply world_grows_trans; [apply pipes_settle_target_ext|apply world_settle_ext].
    + apply world_settle_PInv; [apply pipes_justified_grows| |].
      * apply world_log_error_PInv; [apply pipes_justified_grows|done|]. simpl. eauto.
      * intros _. simpl. exists v.
        apply (grows_pst w); [|done].
        eapply world_grows_trans; [apply world_log_error_ext|apply world_settle_ext].
  - (* R_handle_then, rejected *)
    apply world_settle_PInv; [apply pipes_justified_grows|done|]. intros _. simpl.
    apply (grows_pst w); [apply world_settle_ext|done].
  - by apply world_settle_PInv; [apply pipes_justified_grows|..].
  - (* R_handle_catch, rejected *)
    apply world_settle_PInv; [apply pipes_justified_grows| |done].
    apply pipes_settle_target_PInv; [done|]. intros f w' G Hf. split; [done|].
    rewrite A. by apply G.
  - (* R_pipe_then, fulfilled *)
    destruct A as [Hm Hf]. destruct (converter v) as [x|err] eqn:Hx.
    + apply world_settle_PInv; [apply pipes_justified_grows| |].
      * apply world_settle_PInv; [apply pipes_justified_grows|done|]. intros _.
        split; [done|]. rewrite Hm. exists v. split; [|done].
        apply (grows_pst w); [apply world_settle_ext|done].
      * intros _. simpl. exists v, x. split; [|done].
        apply (grows_pst w); [|done].
        eapply world_grows_trans; apply world_settle_ext.
    + apply world_settle_PInv; [apply pipes_justified_grows|done|]. intros _. simpl.
      right. exists v. split; [|done]. apply (grows_pst w); [apply world_settle_ext|done].
  - (* R_pipe_then, rejected *)
    apply world_settle_PInv; [apply pipes_justified_grows|done|]. intros _. simpl. left.
    apply (grows_pst w); [apply world_settle_ext|done].
  - by apply world_settle_PInv; [apply pipes_justified_grows|..].
  - (* R_pipe_catch, rejected *)
    destruct A as [Hm Hf].
    apply world_settle_PInv; [apply pipes_justified_grows| |done].
    apply world_settle_PInv; [apply pipes_justified_grows|done|]. intros _.
    split; [done|]. rewrite Hm. apply (grows_pst w); [apply world_settle_ext|done].
Qed.

Lemma pipes_settle_target_not_pending o w f :
  wired_kind c f → pst (settle_target c o w) (target_latch f) ≠ Pending.
Proof.
  intros Hf. unfold settle_target, seq, skip. destruct f.
  - case_decide.
    + eapply world_ext_not_pending; [apply world_settle_ext|apply world_settle_not_pending].
    + apply world_settle_not_pending.
  - rewrite decide_True by (by apply Hf). apply world_settle_not_pending.
Qed.

Lemma pipes_react_fired r o w :
  PInv source (allowed c m) (justified c converter m) w → pst w (source r) = Settled o →
  allowed c m r → fired c converter (react c converter r o w) r o.
Proof.
  intros _ _ _. destruct r, o; simpl; unfold seq; try done;
    try apply world_settle_not_pending.
  - split; [apply world_settle_not_pending|].
    destruct (converter v) as [x|err].
    + intros f Hf. eapply world_ext_not_pending; [apply world_settle_ext|].
      by apply pipes_settle_target_not_pending.
    + rewrite world_logged_settle. simpl. apply elem_of_app. right.
      by apply list_elem_of_singleton.
  - intros f Hf. eapply world_ext_not_pending; [apply world_settle_ext|].
    by apply pipes_settle_target_not_pending.
  - destruct (converter v) as [x|err].
    + split; [apply world_settle_not_pending|]. intros _ _.
      eapply world_ext_not_pending; [apply world_settle_ext|apply world_settle_not_pending].
    + split; [apply world_settle_not_pending|]. by intros x [=].
  - eapply world_ext_not_pending; [apply world_settle_ext|apply world_settle_not_pending].
Qed.

Lemma pipes_sound :
  sound source (allowed c m) (justified c converter m) (registered c m)
    (fired c converter) (react c converter) owned.
Proof.
  split.
  - apply pipes_justified_grows.
  - apply pipes_fired_grows.
  - done.
  - apply pipes_react_ext.
  - apply pipes_react_PInv.
  - apply pipes_react_fired.
  - intros r o w r' _ _ _ H. by left.
  - by intros w [] o I Ho Hp.
Qed.

Lemma pipes_total_react (wt : reaction → nat) r o w :
  total wt (react c converter r o w) = total wt w.
Proof.
  destruct r, o; simpl; try destruct (converter _); unfold settle_target, seq, skip;
    try case_decide; by rewrite ?world_total_settle, ?world_total_log_error.
Qed.

Lemma pipes_drain_quiescent w : quiescent (drain c converter w).
Proof.
  apply world_drain_quiescent; [done|]. intros r o w'. rewrite pipes_total_react.
  unfold weight. lia.
Qed.

(** Microtasks never settle what the caller settles. *)
Lemma pipes_react_owned r o w p :
  owned w p = true → pst (react c converter r o w) p = pst w p.
Proof.
  intros Hp. destruct r, o; simpl; try destruct (converter _);
    unfold settle_target, seq, skip; try case_decide;
    rewrite ?world_pst_settle_ne; try done; by destruct p.
Qed.

Lemma pipes_drain_owned w p :
  owned w p = true → pst (drain c converter w) p = pst w p.
Proof.
  intros Hp. unfold drain, Promises.drain. generalize (total weight w). intros n.
  revert w Hp. induction n as [|n IH]; intros w Hp; [done|]. simpl.
  destruct (queue w) as [|[r o] rest]; [by apply IH|].
  rewrite IH by (by destruct p). by rewrite pipes_react_owned.
Qed.

Lemma pipes_step_LogInv w a : LogInv w → LogInv (step c converter w a).
Proof.
  unfold LogInv. intros H. destruct a as [|p o]; simpl.
  - destruct (queue w) as [|[r o] rest] eqn:Hq; [done|].
    pose proof (world_total_pop resolves r o rest w Hq) as Hp.
    rewrite pipes_total_react.
    destruct r, o; simpl in *; try destruct (converter _); unfold settle_target, seq, skip;
      try case_decide; rewrite ?world_logged_settle; simpl; rewrite ?length_app;
      simpl; lia.
  - destruct (owned w p); [|done]. by rewrite world_logged_settle, world_total_settle.
Qed.

End PipeFacts.

Lemma pipes_init_Inv c converter m : Inv c converter m (init c m).
Proof.
  split.
  - unfold init, start, pipeLatch, seq, skip.
    pose proof (world_empty_PInv source (allowed c m) (justified c converter m)
                  (pid := pid) (reaction := reaction) (call := unit)) as I0.
    destruct m; [|case_decide];
      repeat (apply world_register_PInv; [apply pipes_justified_grows| |done|]);
      try done; simpl; split; try done; by intros [=].
  - intros r Hr. unfold registered in Hr.
    destruct r as [| |f|f]; simpl in Hr.
    + subst m. unfold wired. simpl. by repeat constructor.
    + subst m. unfold wired. simpl. by repeat constructor.
    + destruct Hr as [-> Hr].
      destruct c, f; try (by specialize (Hr eq_refl)); unfold wired; simpl;
        by repeat constructor.
    + destruct Hr as [-> Hr].
      destruct c, f; try (by specialize (Hr eq_refl)); unfold wired; simpl;
        by repeat constructor.
Qed.

Lemma pipes_reachable_Inv c converter m sched :
  Inv c converter m (execution c converter m sched).
Proof. apply (world_run_Inv _ _ _ _ _ _ _ (pipes_sound c converter m)), pipes_init_Inv. Qed.

Lemma pipes_drain_Inv c converter m sched :
  Inv c converter m (drain c converter (execution c converter m sched)).
Proof.
  unfold drain, Promises.drain, execution, run. rewrite <- world_run_app.
  apply pipes_reachable_Inv.
Qed.

Lemma pipes_reachable_LogInv c converter m sched : LogInv (execution c converter m sched).
Proof.
  unfold execution, run.
  induction sched as [|a sched IH] using rev_ind.
  - unfold LogInv, init, start, pipeLatch, seq. destruct m; [|case_decide];
      vm_compute; lia.
  - rewrite world_run_snoc. by apply pipes_step_LogInv.
Qed.

Lemma pipes_drain_LogInv c converter m sched :
  LogInv (drain c converter (execution c converter m sched)).
Proof.
  unfold drain, Promises.drain, execution, run. rewrite <- world_run_app.
  apply pipes_reachable_LogInv.
Qed.

Section PipeOutcomes.

Variable c : DatastoreConsistency.
Variable converter : value → value + value.

Lemma pipes_unwired_latch_pending m w f :
  Inv c converter m w → ¬ wired_kind c f → pst w (target_latch f) = Pending.
Proof.
  intros [I _] Hf. destruct (pst w (target_latch f)) as [|o] eqn:Ho; [done|].
  by destruct (inv_facts _ _ _ _ I (settled (target_latch f) o) Ho) as [Hk _].
Qed.

Lemma pipes_handle_target w f :
  Inv c converter handle w → quiescent w → wired_kind c f →
  pst w (target_latch f) =
    match pst w promise with
    | Pending => Pending
    | Settled (Fulfilled v) =>
        match converter v with
        | inl x => Settled (Fulfilled x)
        | inr _ => Pending
        end
    | Settled (Rejected err) => Settled (Rejected err)
    end.
Proof.
  intros HI HQ Hf. pose proof HI as [I F].
  assert (∀ o, pst w (target_latch f) = Settled o →
            match o with
            | Fulfilled x => ∃ v, pst w promise = Settled (Fulfilled v) ∧ converter v = inl x
            | Rejected err => pst w promise = Settled (Rejected err)
            end) as Hback.
  { intros o Ho.
    destruct (inv_facts _ _ _ _ I (settled (target_latch f) o) Ho) as [_ H].
    destruct o as [x|err]; [done|].
    exact (inv_facts _ _ _ _ I (settled handle_then (Rejected err)) H). }
  destruct (pst w promise) as [|[v|err]] eqn:Hp.
  - destruct (pst w (target_latch f)) as [|[x|e]] eqn:Ho; [done|..].
    + by destruct (Hback _ eq_refl) as (v & [=] & _).
    + by pose proof (Hback _ eq_refl).
  - pose proof (world_quiescent_fired _ _ _ _ _ w R_handle_then _ HI HQ eq_refl Hp)
      as [Hf1 Hf2].
    destruct (converter v) as [x|err] eqn:Hx.
    + specialize (Hf2 f Hf).
      destruct (pst w (target_latch f)) as [|[x'|e]] eqn:Ho; [done|..].
      * destruct (Hback _ eq_refl) as (v' & [= <-] & Hx'). congruence.
      * by pose proof (Hback _ eq_refl).
    + destruct (pst w (target_latch f)) as [|[x'|e]] eqn:Ho; [done|..].
      * destruct (Hback _ eq_refl) as (v' & [= <-] & Hx'). congruence.
      * by pose proof (Hback _ eq_refl).
  - pose proof (world_quiescent_fired _ _ _ _ _ w R_handle_then _ HI HQ eq_refl Hp)
      as Hf1. simpl in Hf1.
    destruct (pst w handle_then) as [|[u|e]] eqn:Hh; [done|..].
    { destruct (inv_facts _ _ _ _ I (settled handle_then (Fulfilled u)) Hh) as [v Hv].
      congruence. }
    pose proof (inv_facts _ _ _ _ I (settled handle_then (Rejected e)) Hh) as He.
    simpl in He. rewrite Hp in He. injection He as <-.
    pose proof (world_quiescent_fired _ _ _ _ _ w R_handle_catch _ HI HQ eq_refl Hh)
      as Hf2. specialize (Hf2 f Hf).
    destruct (pst w (target_latch f)) as [|[x'|e]] eqn:Ho; [done|..].
    + by destruct (Hback _ eq_refl) as (v' & [=] & _).
    + pose proof (Hback _ eq_refl) as He. simpl in He. congruence.
Qed.

Lemma pipes_pipe_target w f :
  Inv c converter pipe w → quiescent w → wired_kind c f →
  pst w (target_latch f) =
    match pst w (source_latch f) with
    | Pending => Pending
    | Settled (Fulfilled v) =>
        match converter v with
        | inl x => Settled (Fulfilled x)
        | inr err => Settled (Rejected err)
        end
    | Settled (Rejected err) => Settled (Rejected err)
    end.
Proof.
  intros HI HQ Hf. pose proof HI as [I F].
  assert (∀ o, pst w (target_latch f) = Settled o →
            match o with
            | Fulfilled x =>
                ∃ v, pst w (source_latch f) = Settled (Fulfilled v) ∧ converter v = inl x
            | Rejected err =>
                pst w (source_latch f) = Settled (Rejected err) ∨
                ∃ v, pst w (source_latch f) = Settled (Fulfilled v) ∧ converter v = inr err
            end) as Hback.
  { intros o Ho.
    destruct (inv_facts _ _ _ _ I (settled (target_latch f) o) Ho) as [_ H].
    destruct o as [x|err]; [done|].
    exact (inv_facts _ _ _ _ I (settled (pipe_then f) (Rejected err)) H). }
  assert (registered c pipe w (R_pipe_then f) ∧ registered c pipe w (R_pipe_catch f))
    as [R1 R2] by done.
  destruct (pst w (source_latch f)) as [|[v|err]] eqn:Hp.
  - destruct (pst w (target_latch f)) as [|[x|e]] eqn:Ho; [done|..].
    + by destruct (Hback _ eq_refl) as (v & [=] & _).
    + by destruct (Hback _ eq_refl) as [[=]|(v & [=] & _)].
  - pose proof (world_quiescent_fired _ _ _ _ _ w (R_pipe_then f) _ HI HQ R1 Hp)
      as [Hf1 Hf2].
    destruct (converter v) as [x|err] eqn:Hx.
    + specialize (Hf2 x eq_refl).
      destruct (pst w (target_latch f)) as [|[x'|e]] eqn:Ho; [done|..].
      * destruct (Hback _ eq_refl) as (v' & [= <-] & Hx'). congruence.
      * destruct (Hback _ eq_refl) as [[=]|(v' & [= <-] & Hx')]. congruence.
    + destruct (pst w (pipe_then f)) as [|[u|e]] eqn:Hh; [done|..].
      { destruct (inv_facts _ _ _ _ I (settled (pipe_then f) (Fulfilled u)) Hh)
          as (v' & x & Hv & Hx'). simpl in Hv. congruence. }
      pose proof (world_quiescent_fired _ _ _ _ _ w (R_pipe_catch f) _ HI HQ R2 Hh)
        as Hf3. simpl in Hf3.
      destruct (pst w (target_latch f)) as [|[x'|e']] eqn:Ho; [done|..].
      * destruct (Hback _ eq_refl) as (v' & [= <-] & Hx'). congruence.
      * destruct (Hback _ eq_refl) as [[=]|(v' & [= <-] & Hx')]. congruence.
  - pose proof (world_quiescent_fired _ _ _ _ _ w (R_pipe_then f) _ HI HQ R1 Hp)
      as Hf1. simpl in Hf1.
    destruct (pst w (pipe_then f)) as [|[u|e]] eqn:Hh; [done|..].
    { destruct (inv_facts _ _ _ _ I (settled (pipe_then f) (Fulfilled u)) Hh)
        as (v' & x & Hv & Hx'). simpl in Hv. congruence. }
    pose proof (world_quiescent_fired _ _ _ _ _ w (R_pipe_catch f) _ HI HQ R2 Hh)
      as Hf3. simpl in Hf3.
    destruct (pst w (target_latch f)) as [|[x'|e']] eqn:Ho; [done|..].
    + by destruct (Hback _ eq_refl) as (v' & [=] & _).
    + destruct (Hback _ eq_refl) as [[= <-]|(v' & [=] & _)]. done.
Qed.

End PipeOutcomes.

(** X8.  [handle] passes the outcome of the promise on to the target: once
    the pending microtasks have run, the target's written latch, and under
    the 'committed' consistency its committed latch too, is resolved with the
    converted value when the promise has resolved, rejected with the
    promise's error when it has rejected, and pending as long as the promise
    is.  When the converter throws, the error is logged and the target's
    latches stay pending.  Under the 'written' consistency the committed
    latch is never settled. *)
Theorem handle_settles_target c converter sched :
  let w := execution c converter handle sched in
  let w' := drain c converter w in
  (∀ f, f = written ∨ c = committed →
     pst w' (target_latch f) =
       match pst w promise with
       | Pending => Pending
       | Settled (Fulfilled v) =>
           match converter v with
           | inl x => Settled (Fulfilled x)
           | inr _ => Pending
           end
       | Settled (Rejected err) => Settled (Rejected err)
       end) ∧
  (c = written → pst w' (target_latch committed) = Pending) ∧
  logged w' =
    match pst w promise with
    | Settled (Fulfilled v) =>
        match converter v with
        | inl _ => []
        | inr err => [("Unable to resolve: ", err)]
        end
    | _ => []
    end.
Proof.
  intros w w'.
  pose proof (pipes_drain_Inv c converter handle sched) as HI. fold w in HI. fold w' in HI.
  pose proof (pipes_drain_quiescent c converter w) as HQ. fold w' in HQ.
  pose proof (pipes_drain_owned c converter w promise eq_refl) as Hp. fold w' in Hp.
  split; [|split].
  - intros f Hf. rewrite <- Hp. apply (pipes_handle_target c); [done..|].
    intros ->. by destruct Hf.
  - intros Hc. apply (pipes_unwired_latch_pending c converter handle); [done|].
    intros H. specialize (H eq_refl). congruence.
  - pose proof (pipes_drain_LogInv c converter handle sched) as Hl.
    fold w in Hl. fold w' in Hl. unfold LogInv in Hl.
    pose proof HI as [I F]. rewrite <- Hp.
    assert (∀ msg err, (msg, err) ∈ logged w' →
              msg = "Unable to resolve: " ∧
              ∃ v, pst w' promise = Settled (Fulfilled v) ∧ converter v = inr err) as Hj.
    { intros msg err H. exact (inv_facts _ _ _ _ I (logged_error msg err) H). }
    assert (match pst w' promise with
            | Settled (Fulfilled v) =>
                match converter v with
                | inl _ => True
                | inr err => ("Unable to resolve: ", err) ∈ logged w'
                end
            | _ => True
            end) as Hfw.
    { destruct (pst w' promise) as [|[v|err]] eqn:Hv; try done.
      pose proof (world_quiescent_fired _ _ _ _ _ w' R_handle_then _ HI HQ eq_refl Hv)
        as [_ Hf2]. by destruct (converter v). }
    destruct (logged w') as [|[msg e] [|y l]] eqn:Hlog; simpl in Hl; [| |lia].
    + destruct (pst w' promise) as [|[v|err]]; try done.
      destruct (converter v); [done|]. by apply elem_of_nil in Hfw.
    + destruct (Hj msg e) as (-> & v & Hv & Hx); [by left|].
      rewrite Hv, Hx in Hfw |- *. apply list_elem_of_singleton in Hfw. congruence.
Qed.

(** X9.  [pipe] forwards the outcome of each latch of the source to the same
    latch of the target, the committed latch only under the 'committed'
    consistency: once the pending microtasks have run, the target's latch
    is resolved with the converted value when the source's latch has
    resolved, rejected with the same error when it has rejected, and
    pending as long as it is pending.  When the converter throws, the
    target's latch is rejected with what the converter threw. *)
Theorem pipe_settles_target c converter sched :
  let w := execution c converter pipe sched in
  let w' := drain c converter w in
  (∀ f, f = written ∨ c = committed →
     pst w' (target_latch f) =
       match pst w (source_latch f) with
       | Pending => Pending
       | Settled (Fulfilled v) =>
           match converter v with
           | inl x => Settled (Fulfilled x)
           | inr err => Settled (Rejected err)
           end
       | Settled (Rejected err) => Settled (Rejected err)
       end) ∧
  (c = written → pst w' (target_latch committed) = Pending).
Proof.
  intros w w'.
  pose proof (pipes_drain_Inv c converter pipe sched) as HI. fold w in HI. fold w' in HI.
  pose proof (pipes_drain_quiescent c converter w) as HQ. fold w' in HQ.
  split.
  - intros f Hf.
    pose proof (pipes_drain_owned c converter w (source_latch f) eq_refl) as Hp.
    fold w' in Hp. rewrite <- Hp. apply (pipes_pipe_target c); [done..|].
    intros ->. by destruct Hf.
  - intros Hc. apply (pipes_unwired_latch_pending c converter pipe); [done|].
    intros H. specialize (H eq_refl). congruence.
Qed.

Import DocMetas.

(** * Verification of DocMetas *)

(** The loop runs its body once for each index from [first] to [last], in
    order. *)
Lemma for_loop_seqZ {T : Type} (body : Z → T → T) (last : Z) fuel idx s :
  fuel = Z.to_nat (last - idx + 1) →
  for_loop fuel idx last body s =
    foldl (λ s idx, body idx s) s (seqZ idx (last - idx + 1)).
Proof.
  revert idx s. induction fuel as [|fuel IH]; intros idx s Hf; simpl.
  - rewrite seqZ_nil by lia. done.
  - rewrite bool_decide_eq_true_2 by lia.
    rewrite (seqZ_cons idx) by lia. simpl.
    rewrite IH by lia. do 2 f_equal; lia.
Qed.

Lemma for_upto_seqZ {T : Type} (body : Z → T → T) first last s :
  for_upto first last body s =
    foldl (λ s idx, body idx s) s (seqZ first (last - first + 1)).
Proof. by apply for_loop_seqZ. Qed.

Lemma foldl_insert_lookup {A : Type} (f : Z → A) (l : list Z) (m : gmap Z A) k :
  foldl (λ m idx, <[idx := f idx]> m) m l !! k =
    if decide (k ∈ l) then Some (f k) else m !! k.
Proof.
  revert m. induction l as [|a l IH]; intros m; cbn [foldl].
  - rewrite decide_False; [done|]. by intros ?%elem_of_nil.
  - rewrite IH. destruct (decide (k ∈ l)) as [Hl|Hl].
    + rewrite decide_True; [done|]. by right.
    + destruct (decide (k = a)) as [->|Hne].
      * rewrite decide_True by (by left). by rewrite lookup_insert_eq.
      * rewrite decide_False; [by rewrite lookup_insert_ne|].
        by intros [?|?]%elem_of_cons.
Qed.

Lemma foldl_snoc_calls {A B : Type} (f : A → B) (l : list A) (acc : list B) :
  foldl (λ calls x, calls ++ [f x]) acc l = acc ++ (f <$> l).
Proof.
  revert acc. induction l as [|a l IH]; intros acc; simpl; [by rewrite app_nil_r|].
  by rewrite IH, <- app_assoc.
Qed.

Lemma or_default_Some x d : x ≠ 0%Z → or_default (Some x) d = x.
Proof. intros H. unfold or_default. simpl. by rewrite bool_decide_eq_false_2. Qed.

Lemma or_default_nonzero x d : d ≠ 0%Z → or_default x d ≠ 0%Z.
Proof.
  intros H. unfold or_default. destruct x as [n|]; simpl; [|done].
  case_bool_decide; done.
Qed.

Section DocMetaFacts.

Variables PageInfo PageMeta : Type.
Variable new_PageInfo : Z → PageInfo.
Variable new_PageMeta : PageInfo → PageMeta.
Variable DocInfos_create : string → Z → option string → DocInfo.
Variable new_DocMeta : DocInfo → gmap Z PageMeta → DocMeta PageMeta.

Lemma pagemark_calls first last :
  for_upto first last (λ pageNum calls, calls ++ [(pageNum, full_page)]) [] =
    (λ pageNum, (pageNum, full_page)) <$> seqZ first (last - first + 1).
Proof.
  rewrite for_upto_seqZ.
  by rewrite (foldl_snoc_calls (λ pageNum, (pageNum, full_page))).
Qed.

End DocMetaFacts.

(** X20.  [DocMetas.create] gives the document one page meta for each page
    from 1 to [nrPages], the page meta of page [idx] made from the page info
    of number [idx], and none for any other key; so none at all when
    [nrPages] is zero or negative. *)
Theorem create_has_a_page_meta_per_page (PageInfo PageMeta : Type)
    (new_PageInfo : Z → PageInfo) (new_PageMeta : PageInfo → PageMeta)
    (DocInfos_create : string → Z → option string → DocInfo)
    (new_DocMeta : DocInfo → gmap Z PageMeta → DocMeta PageMeta)
    (fingerprint : string) (nrPages : Z) (filename : option string) :
  ∃ pageMetas,
    create PageInfo PageMeta new_PageInfo new_PageMeta DocInfos_create new_DocMeta
      fingerprint nrPages filename =
      new_DocMeta (DocInfos_create fingerprint nrPages filename) pageMetas ∧
    ∀ idx, pageMetas !! idx =
      if bool_decide (1 ≤ idx ≤ nrPages)%Z
      then Some (new_PageMeta (new_PageInfo idx))
      else None.
Proof.
  eexists. split; [reflexivity|]. intros idx.
  rewrite for_upto_seqZ.
  rewrite (foldl_insert_lookup (λ idx, new_PageMeta (new_PageInfo idx))).
  rewrite lookup_empty.
  destruct (decide (idx ∈ seqZ 1 (nrPages - 1 + 1))) as [H|H];
    rewrite elem_of_seqZ in H.
  - by rewrite bool_decide_eq_true_2 by lia.
  - by rewrite bool_decide_eq_false_2 by lia.
Qed.

(** ** Doubles *)

Lemma pow_53_1024 : (2 ^ 53 < 2 ^ 1024)%Z.
Proof. by apply Z.pow_lt_mono_r. Qed.

Lemma nearest_opp z : nearest (- z) = (- nearest z)%Z.
Proof.
  unfold nearest. rewrite Z.abs_opp, Z.sgn_opp.
  case_bool_decide; [done|]. lia.
Qed.

(** Up to [2 ^ 53] every integer is a double. *)
Lemma nearest_exact z : (Z.abs z ≤ 2 ^ 53)%Z → nearest z = z.
Proof.
  intros H. destruct (decide (Z.abs z < 2 ^ 53)%Z) as [Hlt|Hge].
  - unfold nearest. by rewrite bool_decide_eq_true_2.
  - assert (z = 2 ^ 53 ∨ z = - 2 ^ 53)%Z as [->| ->] by lia; by vm_compute.
Qed.

(** Beyond, rounding stays beyond, and within a factor of two. *)
Lemma nearest_large z : (2 ^ 53 ≤ z)%Z → (2 ^ 53 ≤ nearest z ≤ 2 * z)%Z.
Proof.
  intros H. unfold nearest.
  assert (0 < z)%Z as Hpos by lia.
  rewrite (Z.abs_eq z) by lia. rewrite bool_decide_eq_false_2 by lia.
  rewrite (Z.sgn_pos z) by lia.
  destruct (Z.log2_spec z Hpos) as [Hlo Hhi].
  assert (53 ≤ Z.log2 z)%Z as Hk.
  { rewrite <- (Z.log2_pow2 53) by lia. by apply Z.log2_le_mono. }
  set (k := Z.log2 z) in *. set (ulp := (2 ^ (k - 52))%Z).
  assert (2 ^ k = 2 ^ 52 * ulp)%Z as Hpow.
  { unfold ulp. rewrite <- Z.pow_add_r by lia. f_equal. lia. }
  assert (2 ≤ ulp)%Z as Hulp.
  { unfold ulp. change 2%Z with (2 ^ 1)%Z at 1. apply Z.pow_le_mono_r; lia. }
  pose proof (Z.div_mod z ulp ltac:(lia)) as Hdm.
  pose proof (Z.mod_pos_bound z ulp ltac:(lia)) as Hmod.
  set (q := (z / ulp)%Z) in *. set (r := (z mod ulp)%Z) in *.
  assert (2 ^ 52 ≤ q)%Z as Hq.
  { apply Z.div_le_lower_bound; lia. }
  assert (ulp ≤ z)%Z as Hle by nia.
  repeat case_bool_decide; try destruct (Z.even q); nia.
Qed.

Lemma double_exact z : (Z.abs z ≤ 2 ^ 53)%Z → double z = finite z.
Proof.
  intros H. unfold double. rewrite (nearest_exact z H).
  pose proof pow_53_1024. by rewrite bool_decide_eq_true_2 by lia.
Qed.

Lemma double_large z :
  (2 ^ 53 ≤ z ≤ 2 ^ 60)%Z → ∃ r, double z = finite r ∧ (2 ^ 53 ≤ r ≤ 2 * z)%Z.
Proof.
  intros [H1 H2]. destruct (nearest_large z H1) as [H3 H4].
  exists (nearest z). split; [|lia]. unfold double.
  assert (2 ^ 61 < 2 ^ 1024)%Z by (by apply Z.pow_lt_mono_r).
  by rewrite bool_decide_eq_true_2 by lia.
Qed.

Lemma double_small z :
  (- 2 ^ 60 ≤ z ≤ - 2 ^ 53)%Z → ∃ r, double z = finite r ∧ (2 * z ≤ r ≤ - 2 ^ 53)%Z.
Proof.
  intros [H1 H2]. destruct (nearest_large (- z) ltac:(lia)) as [H3 H4].
  rewrite nearest_opp in H3, H4.
  exists (nearest z). split; [|lia]. unfold double.
  assert (2 ^ 61 < 2 ^ 1024)%Z by (by apply Z.pow_lt_mono_r).
  by rewrite bool_decide_eq_true_2 by lia.
Qed.

(** Where every page number is a safe integer the loop runs once for each
    page from [pageNum] to [maxPageNum], and the fuel for that is enough. *)
Lemma pagemark_loop_exact n fuel pageNum maxPageNum calls :
  (- 2 ^ 53 ≤ pageNum)%Z → (maxPageNum < 2 ^ 53)%Z →
  n = Z.to_nat (maxPageNum - pageNum + 1) → n < fuel →
  pagemark_loop fuel pageNum (finite maxPageNum) calls =
    Some (calls ++ ((λ pageNum, (pageNum, full_page)) <$>
                      seqZ pageNum (maxPageNum - pageNum + 1))).
Proof.
  revert fuel pageNum calls.
  induction n as [|n IH]; intros fuel pageNum calls Hlo Hhi Hn Hf;
    (destruct fuel as [|fuel]; [lia|]); cbn [pagemark_loop le].
  - rewrite bool_decide_eq_false_2 by lia. rewrite seqZ_nil by lia.
    by rewrite app_nil_r.
  - rewrite bool_decide_eq_true_2 by lia. cbn [plus].
    rewrite double_exact by lia.
    rewrite (IH fuel (pageNum + 1)%Z) by lia.
    rewrite (seqZ_cons pageNum) by lia. rewrite fmap_cons, <- app_assoc.
    simpl. do 3 f_equal.
    replace (Z.succ pageNum) with (pageNum + 1)%Z by lia.
    by replace (Z.pred (maxPageNum - pageNum + 1)) with (maxPageNum - (pageNum + 1) + 1)%Z
      by lia.
Qed.

(** [maxPageNum], for safe integers: what the integers give, or, when the
    sum is rounded, a number that leaves the same pages. *)
Lemma maxPageNum_safe offsetPage nrPages_ docPages :
  (Z.abs offsetPage < 2 ^ 53)%Z → (Z.abs nrPages_ < 2 ^ 53)%Z →
  (Z.abs docPages < 2 ^ 53)%Z →
  ∃ m, Math_min (plus (plus (finite offsetPage) nrPages_) (-1)) (finite docPages) =
         finite m ∧
       (m < 2 ^ 53)%Z ∧
       (m = Z.min (offsetPage + nrPages_ - 1) docPages ∨
        (m < offsetPage ∧ offsetPage + nrPages_ - 1 < offsetPage)%Z).
Proof.
  intros Ho Hn Hd. cbn [plus].
  destruct (decide (2 ^ 53 ≤ offsetPage + nrPages_)%Z) as [Hbig|Hbig];
    [|destruct (decide (offsetPage + nrPages_ ≤ - 2 ^ 53)%Z) as [Hsmall|Hsmall]].
  - destruct (double_large (offsetPage + nrPages_) ltac:(lia)) as (r & -> & Hr).
    cbn [plus].
    assert (∃ r', double (r + -1) = finite r' ∧ (2 ^ 53 - 1 ≤ r')%Z) as (r' & -> & Hr').
    { destruct (decide (r = 2 ^ 53)%Z) as [->|Hne].
      - exists (2 ^ 53 - 1)%Z. split; [|lia]. by rewrite double_exact by lia.
      - destruct (double_large (r + -1) ltac:(lia)) as (r' & -> & Hr'). exists r'.
        split; [done|lia]. }
    unfold Math_min, le. case_bool_decide.
    + exists r'. split; [done|]. split; [lia|]. left. lia.
    + exists docPages. split; [done|]. split; [lia|]. left. lia.
  - destruct (double_small (offsetPage + nrPages_) ltac:(lia)) as (r & -> & Hr).
    cbn [plus].
    destruct (double_small (r + -1) ltac:(lia)) as (r' & -> & Hr').
    unfold Math_min, le. rewrite bool_decide_eq_true_2 by lia.
    exists r'. split; [done|]. split; [lia|]. right. lia.
  - rewrite double_exact by lia. cbn [plus].
    destruct (decide (offsetPage + nrPages_ + -1 = - 2 ^ 53 - 1)%Z) as [Heq|Hne].
    + destruct (double_small (offsetPage + nrPages_ + -1) ltac:(lia)) as (r' & -> & Hr').
      unfold Math_min, le. rewrite bool_decide_eq_true_2 by lia.
      exists r'. split; [done|]. split; [lia|]. right. lia.
    + rewrite double_exact by lia.
      unfold Math_min, le. case_bool_decide.
      * eexists. split; [done|]. split; [lia|]. left. lia.
      * eexists. split; [done|]. split; [lia|]. left. lia.
Qed.

(** X21.  For safe integers (below [2 ^ 53] in magnitude: the offset, the
    number of pages asked for and the document's number of pages)
    [DocMetas.addPagemarks] returns, and it has marked the pages from
    [offsetPage] (1 when it is missing or 0) up to the smaller of
    [offsetPage + nrPages - 1] ([nrPages] 3 when it is missing or 0) and
    the document's number of pages, each once, in order, and each with a full
    single-column pagemark: it marks no page beyond the document's last
    one, and [options.percentage] has no influence on what is marked. *)
Theorem addPagemarks_marks_the_pages (PageMeta : Type) (docMeta : DocMeta PageMeta)
    (options : option Options) (fuel : nat) :
  let offsetPage := or_default (o_offsetPage (default (mkOptions None None None) options)) 1 in
  let nrPages_ := or_default (o_nrPages (default (mkOptions None None None) options)) 3 in
  let pages :=
    seqZ offsetPage
      (Z.min (offsetPage + nrPages_ - 1) (nrPages (docInfo PageMeta docMeta))
         - offsetPage + 1) in
  (Z.abs offsetPage < 2 ^ 53)%Z →
  (Z.abs nrPages_ < 2 ^ 53)%Z →
  (Z.abs (nrPages (docInfo PageMeta docMeta)) < 2 ^ 53)%Z →
  length pages < fuel →
  ∃ options' calls,
    addPagemarks PageMeta fuel docMeta options = Some (options', calls) ∧
    calls = (λ pageNum, (pageNum, full_page)) <$> pages ∧
    Forall (λ c, (offsetPage ≤ c.1 ≤ nrPages (docInfo PageMeta docMeta))%Z ∧
                 (c.1 < offsetPage + nrPages_)%Z ∧ c.2 = full_page) calls ∧
    ∀ percentage_,
      snd <$> addPagemarks PageMeta fuel docMeta
                (Some (mkOptions (Some nrPages_) (Some offsetPage) percentage_)) =
        Some calls.
Proof.
  intros offsetPage nrPages_ pages Ho Hn Hd Hf.
  destruct (maxPageNum_safe offsetPage nrPages_ _ Ho Hn Hd) as (m & Hm & Hlt & Hcase).
  assert (pagemark_loop fuel offsetPage (finite m) [] =
          Some ((λ pageNum, (pageNum, full_page)) <$> pages)) as Hloop.
  { unfold pages in *. rewrite length_seqZ in Hf. destruct Hcase as [->|[H1 H2]].
    - by rewrite (pagemark_loop_exact _ fuel offsetPage _ [] ltac:(lia) Hlt eq_refl Hf).
    - rewrite (pagemark_loop_exact _ fuel offsetPage m [] ltac:(lia) Hlt eq_refl ltac:(lia)).
      by rewrite !seqZ_nil by lia. }
  eexists _, _. split; [|split; [reflexivity|split]].
  - unfold addPagemarks. cbv zeta. fold offsetPage nrPages_. by rewrite Hm, Hloop.
  - apply Forall_fmap, Forall_forall. intros p Hp. simpl.
    unfold pages in Hp. apply list_elem_of_In, elem_of_seqZ in Hp.
    split; [lia|split; [lia|done]].
  - intros percentage_. unfold addPagemarks. cbv zeta.
    cbn [default from_option Datatypes.id o_nrPages o_offsetPage o_percentage].
    assert (nrPages_ ≠ 0%Z) as Hn0 by (by apply or_default_nonzero).
    assert (offsetPage ≠ 0%Z) as Ho0 by (by apply or_default_nonzero).
    rewrite !or_default_Some by done. by rewrite Hm, Hloop.
Qed.

Lemma addPagemarks_marks_the_pages_witness :
  ∃ options' calls,
    addPagemarks Z 3 (mkDocMeta Z (mkDocInfo "0x001" 10 None None) ∅)
      (Some (mkOptions (Some 2%Z) (Some 9%Z) None)) = Some (options', calls) ∧
    calls = (λ pageNum, (pageNum, full_page)) <$> seqZ 9 2 ∧
    Forall (λ c, (9 ≤ c.1 ≤ 10)%Z ∧ (c.1 < 9 + 2)%Z ∧ c.2 = full_page) calls ∧
    ∀ percentage_,
      snd <$> addPagemarks Z 3 (mkDocMeta Z (mkDocInfo "0x001" 10 None None) ∅)
                (Some (mkOptions (Some 2%Z) (Some 9%Z) percentage_)) = Some calls.
Proof.
  apply (addPagemarks_marks_the_pages Z
           (mkDocMeta Z (mkDocInfo "0x001" 10 None None) ∅)
           (Some (mkOptions (Some 2%Z) (Some 9%Z) None)) 3); by vm_compute.
Defined.

(** Beyond the safe integers the loop follows the doubles: from
    [-(2 ^ 53 + 2)] the increment skips the odd number, and two pages are
    marked; from [2 ^ 53] the increment gives [2 ^ 53] again, and the loop
    never ends. *)
Example addPagemarks_beyond_safe_integers :
  let docMeta := mkDocMeta Z (mkDocInfo "0x001" (2 ^ 60) None None) ∅ in
  snd <$> addPagemarks Z 10 docMeta (Some (mkOptions None (Some (- 9007199254740994)%Z) None)) =
    Some [((- 9007199254740994)%Z, full_page); ((- 9007199254740992)%Z, full_page)] ∧
  addPagemarks Z 1000 docMeta (Some (mkOptions None (Some (2 ^ 53)%Z) None)) = None.
Proof. by vm_compute. Qed.

(** X22.  [createWithinInitialPagemarks] is [create] followed by
    [addPagemarks] without options, as long as the constructors keep what
    they are given: it marks the first pages of the new document, three at
    most and never more than the document has. *)
Theorem createWithinInitialPagemarks_is_create_then_addPagemarks
    (PageInfo PageMeta : Type)
    (new_PageInfo : Z → PageInfo) (new_PageMeta : PageInfo → PageMeta)
    (DocInfos_create : string → Z → option string → DocInfo)
    (new_DocMeta : DocInfo → gmap Z PageMeta → DocMeta PageMeta)
    (fingerprint : string) (nrPages_ : Z) :
  (∀ d pageMetas, docInfo PageMeta (new_DocMeta d pageMetas) = d) →
  nrPages (DocInfos_create fingerprint nrPages_ None) = nrPages_ →
  let created :=
    create PageInfo PageMeta new_PageInfo new_PageMeta DocInfos_create new_DocMeta
      fingerprint nrPages_ None in
  let result :=
    createWithinInitialPagemarks PageInfo PageMeta new_PageInfo new_PageMeta
      DocInfos_create new_DocMeta fingerprint nrPages_ in
  (∀ fuel, 3 < fuel →
     (λ r, (created, r.2)) <$> addPagemarks PageMeta fuel created None = Some result) ∧
  length result.2 = Z.to_nat (Z.min nrPages_ 3).
Proof.
  intros H1 H2 created result. split.
  - intros fuel Hf. unfold result, createWithinInitialPagemarks. fold created.
    assert (nrPages (docInfo PageMeta created) = nrPages_) as Hc.
    { unfold created, create. by rewrite H1, H2. }
    unfold addPagemarks. cbv zeta.
    cbn [default from_option Datatypes.id o_nrPages o_offsetPage o_percentage].
    rewrite Hc.
    change (or_default None 3) with 3%Z. change (or_default None 1) with 1%Z.
    cbn [plus]. rewrite (double_exact (1 + 3)) by done. cbn [plus].
    rewrite (double_exact (1 + 3 + -1)) by done.
    assert (Math_min (finite (1 + 3 + -1)) (finite nrPages_) =
            finite (Z.min nrPages_ 3)) as ->.
    { unfold Math_min, le. case_bool_decide; f_equal; lia. }
    rewrite (pagemark_loop_exact _ fuel 1 (Z.min nrPages_ 3) [] ltac:(done) ltac:(lia)
               eq_refl ltac:(lia)).
    cbn [fmap option_fmap option_map snd app]. by rewrite pagemark_calls.
  - unfold result, createWithinInitialPagemarks. simpl.
    rewrite pagemark_calls, length_fmap, length_seqZ. lia.
Qed.

Lemma createWithinInitialPagemarks_is_create_then_addPagemarks_witness :
  length
    (createWithinInitialPagemarks Z Z (λ num, num) (λ pageInfo, pageInfo)
       (λ fingerprint nrPages filename, mkDocInfo fingerprint nrPages filename None)
       (mkDocMeta Z) "0x001" 4).2 = 3%nat.
Proof.
  destruct (createWithinInitialPagemarks_is_create_then_addPagemarks Z Z
              (λ num, num) (λ pageInfo, pageInfo)
              (λ fingerprint nrPages filename, mkDocInfo fingerprint nrPages filename None)
              (mkDocMeta Z) "0x001" 4) as [_ H].
  - reflexivity.
  - reflexivity.
  - exact H.
Defined.

(** X23.  [withBatchedMutations] does not nest: the mutator runs with
    [mutating] set, and a batch started inside the mutator clears the flag
    when it ends, so that what the outer mutator does after it runs with
    [mutating] undefined, as after the outer batch; whatever a mutator
    throws is thrown on, and the flag is cleared all the same. *)
Theorem withBatchedMutations_does_not_nest (PageMeta E : Type)
    (docMeta : DocMeta PageMeta)
    (inner rest : DocMeta PageMeta → DocMeta PageMeta * option E) :
  let outer := λ d,
    let '(d', thrown) := withBatchedMutations PageMeta d inner in
    match thrown with
    | Some e => (d', Some e)
    | None => rest d'
    end in
  let '(afterInner, thrownInner) := inner (set_mutating PageMeta (Some true) docMeta) in
  mutating (docInfo PageMeta (withBatchedMutations PageMeta docMeta outer).1) = None ∧
  withBatchedMutations PageMeta docMeta outer =
    match thrownInner with
    | Some e => (set_mutating PageMeta None afterInner, Some e)
    | None =>
        let '(afterRest, thrownRest) := rest (set_mutating PageMeta None afterInner) in
        (set_mutating PageMeta None afterRest, thrownRest)
    end.
Proof.
  intros outer. unfold outer, withBatchedMutations.
  assert (set_mutating PageMeta (Some true) (set_mutating PageMeta (Some true) docMeta) =
          set_mutating PageMeta (Some true) docMeta) as -> by done.
  destruct (inner _) as [afterInner [e|]]; simpl; [done|].
  by destruct (rest _) as [afterRest thrownRest].
Qed.
